(** * Leanify, ZIP container engine ([formats/zip.cpp])

    A shallow embedding of [Zip::Leanify] and the properties of the
    repacking it performs.

    The engine works in place on one caller-owned buffer through raw
    pointers, so the embedding uses a flat byte-addressed memory: an address
    is an integer, a pointer is an address, and the archive is the window
    [fp_, fp_ + size_).  [size_t] and pointer arithmetic is exact integer
    arithmetic; the 16- and 32-bit fields of the packed structs wrap when
    they are stored. *)

From Stdlib Require Import ZArith List Bool Lia Strings.Byte.
From Stdlib Require Import Sorting.Sorted Sorting.Permutation.
Import ListNotations.
Local Open Scope Z_scope.

(* ------------------------------------------------------------------ *)
(** ** Bytes and flat memory *)

Definition byte_to_Z (b : byte) : Z := Z.of_N (Byte.to_N b).

Definition byte_of_Z (z : Z) : byte :=
  match Byte.of_N (Z.to_N (z mod 256)) with
  | Some b => b
  | None => x00
  end.

(** Memory: every address holds a byte. *)
Definition mem := Z -> byte.

Definition read8 (m : mem) (p : Z) : Z := byte_to_Z (m p).

(** [*(uint16_t* )p] on a little-endian machine. *)
Definition read16 (m : mem) (p : Z) : Z :=
  read8 m p + 256 * read8 m (p + 1).

(** [*(uint32_t* )p]. *)
Definition read32 (m : mem) (p : Z) : Z :=
  read16 m p + 65536 * read16 m (p + 2).

Definition write8 (m : mem) (p v : Z) : mem :=
  fun a => if a =? p then byte_of_Z v else m a.

Definition write16 (m : mem) (p v : Z) : mem :=
  write8 (write8 m p v) (p + 1) (v / 256).

Definition write32 (m : mem) (p v : Z) : mem :=
  write16 (write16 m p v) (p + 2) (v / 65536).

(** The [n] bytes at [p, p + n). *)
Definition read_bytes (m : mem) (p : Z) (n : nat) : list byte :=
  map (fun i => m (p + Z.of_nat i)) (seq 0 n).

(** Store the bytes of [l] at [p, p + length l). *)
Definition write_bytes (m : mem) (p : Z) (l : list byte) : mem :=
  fun a =>
    if (p <=? a) && (a <? p + Z.of_nat (length l))
    then nth (Z.to_nat (a - p)) l x00
    else m a.

(** [memmove(dst, src, n)]: every byte of the destination gets the byte the
    source held before the call, so overlapping regions are fine.  [memcpy]
    is used by the source only with a scratch buffer or a struct as one
    side, or between regions the engine keeps apart; where both sides are in
    the archive it is given the same meaning. *)
Definition memmove (m : mem) (dst src n : Z) : mem :=
  fun a =>
    if (dst <=? a) && (a <? dst + n) then m (a - dst + src) else m a.

Fixpoint bytes_eqb (a b : list byte) : bool :=
  match a, b with
  | [], [] => true
  | x :: a', y :: b' => Byte.eqb x y && bytes_eqb a' b'
  | _, _ => false
  end.

(** [memcmp(p, pat, sizeof pat) == 0]. *)
Definition memcmp_eq (m : mem) (p : Z) (pat : list byte) : bool :=
  bytes_eqb (read_bytes m p (length pat)) pat.

(** Candidates [first + n - 1] down to [first]: the last match. *)
Fixpoint rfind (m : mem) (pat : list byte) (first : Z) (n : nat) : option Z :=
  match n with
  | O => None
  | S k =>
      if memcmp_eq m (first + Z.of_nat k) pat
      then Some (first + Z.of_nat k)
      else rfind m pat first k
  end.

(** [std::find_end(first, last, pat, pat + 4)]: the start of the last
    occurrence of [pat] inside [first, last), or [last] when there is none. *)
Definition find_end (m : mem) (first last : Z) (pat : list byte) : Z :=
  match rfind m pat first (Z.to_nat (last - first - Z.of_nat (length pat) + 1)) with
  | Some p => p
  | None => last
  end.

(** Candidates [p], [p + 1], ...: the first match. *)
Fixpoint ffind (m : mem) (pat : list byte) (p : Z) (n : nat) : option Z :=
  match n with
  | O => None
  | S k => if memcmp_eq m p pat then Some p else ffind m pat (p + 1) k
  end.

(** [std::search(first, last, pat, pat + 4)]: the start of the first
    occurrence of [pat] inside [first, last), or [last] when there is none. *)
Definition search (m : mem) (first last : Z) (pat : list byte) : Z :=
  match ffind m pat first (Z.to_nat (last - first - Z.of_nat (length pat) + 1)) with
  | Some p => p
  | None => last
  end.

(* ------------------------------------------------------------------ *)
(** ** The packed structs *)

(** Truncation on a store to a [uint16_t] / [uint32_t]. *)
Definition u16 (z : Z) : Z := z mod 65536.
Definition u32 (z : Z) : Z := z mod 4294967296.

(** [Zip::header_magic], the local file header magic. *)
Definition header_magic : list byte := [x50; x4b; x03; x04].

Module CDHeader.

(** [sizeof(CDHeader)]: the struct is packed. *)
Definition size : Z := 46.

Definition magic_bytes : list byte := [x50; x4b; x01; x02].

Record t := mk {
  magic : Z;                    (* uint8_t[4], kept as the word it spells *)
  version_made_by : Z;
  version_needed : Z;
  flag : Z;
  compression_method : Z;
  last_mod_time : Z;
  last_mod_date : Z;
  crc32 : Z;
  compressed_size : Z;
  uncompressed_size : Z;
  filename_len : Z;
  extra_field_len : Z;
  comment_len : Z;
  disk_file_start : Z;
  internal_file_attributes : Z;
  external_file_attributes : Z;
  local_header_offset : Z
}.

(** [memcpy(&cd_header, p, sizeof(CDHeader))]. *)
Definition load (m : mem) (p : Z) : t :=
  mk (read32 m p) (read16 m (p + 4)) (read16 m (p + 6)) (read16 m (p + 8))
     (read16 m (p + 10)) (read16 m (p + 12)) (read16 m (p + 14))
     (read32 m (p + 16)) (read32 m (p + 20)) (read32 m (p + 24))
     (read16 m (p + 28)) (read16 m (p + 30)) (read16 m (p + 32))
     (read16 m (p + 34)) (read16 m (p + 36)) (read32 m (p + 38))
     (read32 m (p + 42)).

(** [memcpy(p, &cd_header, sizeof(CDHeader))]. *)
Definition store (m : mem) (p : Z) (h : t) : mem :=
  let m := write32 m p (magic h) in
  let m := write16 m (p + 4) (version_made_by h) in
  let m := write16 m (p + 6) (version_needed h) in
  let m := write16 m (p + 8) (flag h) in
  let m := write16 m (p + 10) (compression_method h) in
  let m := write16 m (p + 12) (last_mod_time h) in
  let m := write16 m (p + 14) (last_mod_date h) in
  let m := write32 m (p + 16) (crc32 h) in
  let m := write32 m (p + 20) (compressed_size h) in
  let m := write32 m (p + 24) (uncompressed_size h) in
  let m := write16 m (p + 28) (filename_len h) in
  let m := write16 m (p + 30) (extra_field_len h) in
  let m := write16 m (p + 32) (comment_len h) in
  let m := write16 m (p + 34) (disk_file_start h) in
  let m := write16 m (p + 36) (internal_file_attributes h) in
  let m := write32 m (p + 38) (external_file_attributes h) in
  write32 m (p + 42) (local_header_offset h).

Definition set_flag (h : t) (v : Z) : t :=
  mk (magic h) (version_made_by h) (version_needed h) v
     (compression_method h) (last_mod_time h) (last_mod_date h) (crc32 h)
     (compressed_size h) (uncompressed_size h) (filename_len h)
     (extra_field_len h) (comment_len h) (disk_file_start h)
     (internal_file_attributes h) (external_file_attributes h)
     (local_header_offset h).

Definition set_compression_method (h : t) (v : Z) : t :=
  mk (magic h) (version_made_by h) (version_needed h) (flag h)
     v (last_mod_time h) (last_mod_date h) (crc32 h)
     (compressed_size h) (uncompressed_size h) (filename_len h)
     (extra_field_len h) (comment_len h) (disk_file_start h)
     (internal_file_attributes h) (external_file_attributes h)
     (local_header_offset h).

Definition set_crc32 (h : t) (v : Z) : t :=
  mk (magic h) (version_made_by h) (version_needed h) (flag h)
     (compression_method h) (last_mod_time h) (last_mod_date h) v
     (compressed_size h) (uncompressed_size h) (filename_len h)
     (extra_field_len h) (comment_len h) (disk_file_start h)
     (internal_file_attributes h) (external_file_attributes h)
     (local_header_offset h).

Definition set_compressed_size (h : t) (v : Z) : t :=
  mk (magic h) (version_made_by h) (version_needed h) (flag h)
     (compression_method h) (last_mod_time h) (last_mod_date h) (crc32 h)
     v (uncompressed_size h) (filename_len h)
     (extra_field_len h) (comment_len h) (disk_file_start h)
     (internal_file_attributes h) (external_file_attributes h)
     (local_header_offset h).

Definition set_uncompressed_size (h : t) (v : Z) : t :=
  mk (magic h) (version_made_by h) (version_needed h) (flag h)
     (compression_method h) (last_mod_time h) (last_mod_date h) (crc32 h)
     (compressed_size h) v (filename_len h)
     (extra_field_len h) (comment_len h) (disk_file_start h)
     (internal_file_attributes h) (external_file_attributes h)
     (local_header_offset h).

Definition set_filename_len (h : t) (v : Z) : t :=
  mk (magic h) (version_made_by h) (version_needed h) (flag h)
     (compression_method h) (last_mod_time h) (last_mod_date h) (crc32 h)
     (compressed_size h) (uncompressed_size h) v
     (extra_field_len h) (comment_len h) (disk_file_start h)
     (internal_file_attributes h) (external_file_attributes h)
     (local_header_offset h).

Definition set_extra_field_len (h : t) (v : Z) : t :=
  mk (magic h) (version_made_by h) (version_needed h) (flag h)
     (compression_method h) (last_mod_time h) (last_mod_date h) (crc32 h)
     (compressed_size h) (uncompressed_size h) (filename_len h)
     v (comment_len h) (disk_file_start h)
     (internal_file_attributes h) (external_file_attributes h)
     (local_header_offset h).

Definition set_comment_len (h : t) (v : Z) : t :=
  mk (magic h) (version_made_by h) (version_needed h) (flag h)
     (compression_method h) (last_mod_time h) (last_mod_date h) (crc32 h)
     (compressed_size h) (uncompressed_size h) (filename_len h)
     (extra_field_len h) v (disk_file_start h)
     (internal_file_attributes h) (external_file_attributes h)
     (local_header_offset h).

Definition set_local_header_offset (h : t) (v : Z) : t :=
  mk (magic h) (version_made_by h) (version_needed h) (flag h)
     (compression_method h) (last_mod_time h) (last_mod_date h) (crc32 h)
     (compressed_size h) (uncompressed_size h) (filename_len h)
     (extra_field_len h) (comment_len h) (disk_file_start h)
     (internal_file_attributes h) (external_file_attributes h) v.

(** The fields hold values of their C types. *)
Definition wf (h : t) : Prop :=
  (0 <= flag h < 65536) /\ (0 <= compression_method h < 65536)
  /\ (0 <= crc32 h < 4294967296) /\ (0 <= compressed_size h < 4294967296)
  /\ (0 <= uncompressed_size h < 4294967296)
  /\ (0 <= filename_len h < 65536) /\ (0 <= extra_field_len h < 65536)
  /\ (0 <= comment_len h < 65536)
  /\ (0 <= local_header_offset h < 4294967296)
  /\ (0 <= magic h < 4294967296)
  /\ (0 <= version_made_by h < 65536) /\ (0 <= version_needed h < 65536)
  /\ (0 <= last_mod_time h < 65536) /\ (0 <= last_mod_date h < 65536)
  /\ (0 <= disk_file_start h < 65536)
  /\ (0 <= internal_file_attributes h < 65536)
  /\ (0 <= external_file_attributes h < 4294967296).

(** The same entry: the fields the engine never writes are equal. *)
Definition same_entry (h h' : t) : Prop :=
  magic h' = magic h /\ version_made_by h' = version_made_by h
  /\ version_needed h' = version_needed h
  /\ last_mod_time h' = last_mod_time h
  /\ last_mod_date h' = last_mod_date h
  /\ filename_len h' = filename_len h
  /\ disk_file_start h' = disk_file_start h
  /\ internal_file_attributes h' = internal_file_attributes h
  /\ external_file_attributes h' = external_file_attributes h.

(** What line 266 and line 267 do to a header before it is written. *)
Definition cleared (h : t) : t :=
  set_extra_field_len
    (set_comment_len (set_flag h (Z.land (flag h) (Z.lnot 8))) 0) 0.

End CDHeader.

Module EOCD.

(** [sizeof(EOCD)]. *)
Definition size : Z := 22.

Definition magic_bytes : list byte := [x50; x4b; x05; x06].

Record t := mk {
  magic : Z;
  disk_num : Z;
  disk_cd_start : Z;
  num_records : Z;
  num_records_total : Z;
  cd_size : Z;
  cd_offset : Z;
  comment_len : Z
}.

(** [memcpy(&eocd, p_eocd, sizeof(EOCD))]. *)
Definition load (m : mem) (p : Z) : t :=
  mk (read32 m p) (read16 m (p + 4)) (read16 m (p + 6)) (read16 m (p + 8))
     (read16 m (p + 10)) (read32 m (p + 12)) (read32 m (p + 16))
     (read16 m (p + 20)).

(** [memcpy(p_write, &eocd, sizeof(eocd))]. *)
Definition store (m : mem) (p : Z) (e : t) : mem :=
  let m := write32 m p (magic e) in
  let m := write16 m (p + 4) (disk_num e) in
  let m := write16 m (p + 6) (disk_cd_start e) in
  let m := write16 m (p + 8) (num_records e) in
  let m := write16 m (p + 10) (num_records_total e) in
  let m := write32 m (p + 12) (cd_size e) in
  let m := write32 m (p + 16) (cd_offset e) in
  write16 m (p + 20) (comment_len e).

Definition wf (e : t) : Prop :=
  (0 <= magic e < 4294967296) /\ (0 <= disk_num e < 65536)
  /\ (0 <= disk_cd_start e < 65536) /\ (0 <= num_records e < 65536)
  /\ (0 <= num_records_total e < 65536) /\ (0 <= cd_size e < 4294967296)
  /\ (0 <= cd_offset e < 4294967296) /\ (0 <= comment_len e < 65536).

End EOCD.

(* ------------------------------------------------------------------ *)
(** ** Collaborators and globals *)

(** What [Zip::Leanify] takes from outside this file: the globals
    [max_depth] and [is_fast], miniz ([mz_crc32],
    [tinfl_decompress_mem_to_heap]), zopfli ([ZopfliDeflate]) and the
    recursive minifier [LeanifyFile].

    - [mz_crc32 data] is [mz_crc32(0, ptr, len)] on the [len] bytes at [ptr].
    - [tinfl_decompress_mem_to_heap data] is the heap buffer (its length is
      the [s] written through the out-parameter), [None] for a null result.
    - [ZopfliDeflate data] is the stream appended to the empty [out].
    - [LeanifyFile region file_size size_leanified filename]: the file is the
      last [file_size] bytes of [region], which starts [size_leanified] bytes
      earlier, at the place the minified file has to be moved to.  The result
      is the region as the call leaves it and the returned length. *)
Record Env := mkEnv {
  max_depth : Z;
  is_fast : bool;
  mz_crc32 : list byte -> Z;
  tinfl_decompress_mem_to_heap : list byte -> option (list byte);
  ZopfliDeflate : list byte -> list byte;
  LeanifyFile : list byte -> Z -> Z -> list byte -> list byte * Z
}.

(** The object's [fp_] and [size_], the memory they point into, and the
    global [depth]. *)
Record Zip := mkZip {
  memory : mem;
  fp_ : Z;
  size_ : Z;
  depth : Z
}.

(** Modelled from the spec: [Format::Leanify], the base-class method every
    passthrough returns through, is declared outside [zip.cpp].  The spec
    gives a passthrough as "return the input unchanged": the same bytes and
    the same length.  With a nonzero [size_leanified] the unchanged bytes
    are moved down to [fp_ - size_leanified], where the caller expects the
    result. *)
Definition Format_Leanify (z : Zip) (size_leanified : Z) : Zip * Z :=
  (mkZip (memmove (memory z) (fp_ z - size_leanified) (fp_ z) (size_ z))
         (fp_ z - size_leanified) (size_ z) (depth z),
   size_ z).

(** The fields of a local file header, as the engine reads them through
    casts of [p + offset]. *)
Module LocalHeader.
Definition flag (m : mem) (p : Z) : Z := read16 m (p + 6).
Definition compression_method (m : mem) (p : Z) : Z := read16 m (p + 8).
Definition crc32 (m : mem) (p : Z) : Z := read32 m (p + 14).
Definition compressed_size (m : mem) (p : Z) : Z := read32 m (p + 18).
Definition uncompressed_size (m : mem) (p : Z) : Z := read32 m (p + 22).
Definition filename_len (m : mem) (p : Z) : Z := read16 m (p + 26).
Definition extra_field_len (m : mem) (p : Z) : Z := read16 m (p + 28).
End LocalHeader.

(* ------------------------------------------------------------------ *)
(** ** The engine *)

(** [continue] and [break] of the compaction loop. *)
Inductive flow := Next | Stop.

(** How far the header part of one iteration of the compaction loop got. *)
Inductive header_result :=
| HSkip
    (* invalid local header offset: [continue], nothing touched *)
| HEof (h : CDHeader.t)
    (* reached EOF in local header: [break] before the move *)
| HTooLarge (m : mem) (h : CDHeader.t)
    (* compressed size too large: [break] after the header was moved *)
| HReady (m : mem) (h : CDHeader.t) (p_read p_write orig_comp_size flag : Z)
         (filename : list byte).
    (* header moved and patched; both cursors are behind the header *)

(** [std::sort] with the comparator
    [a.local_header_offset < b.local_header_offset].  Entries with equal
    offsets keep their order here; [std::sort] promises nothing for them. *)
Fixpoint insert_sorted (h : CDHeader.t) (l : list CDHeader.t) : list CDHeader.t :=
  match l with
  | [] => [h]
  | x :: tl =>
      if CDHeader.local_header_offset x <? CDHeader.local_header_offset h
      then x :: insert_sorted h tl
      else h :: x :: tl
  end.

Definition sort_by_offset (l : list CDHeader.t) : list CDHeader.t :=
  fold_right insert_sorted [] l.

(** The loop that copies the central directory headers into the vector.
    [n] counts the iterations left, [i] is the loop counter. *)
Fixpoint read_cd (m : mem) (p_end zip_offset : Z) (n : nat) (i : Z)
    (p_read cd_end base_offset : Z) (cd_headers : list CDHeader.t)
    : Z * Z * Z * list CDHeader.t :=
  match n with
  | O => (p_read, cd_end, base_offset, cd_headers)
  | S n' =>
      if cd_end <? p_read + CDHeader.size
      then (p_read, cd_end, base_offset, cd_headers)
      else
        let resolved :=
          if memcmp_eq m p_read CDHeader.magic_bytes
          then Some (p_read, cd_end, base_offset)
          else if (i =? 0) && (cd_end + zip_offset <=? p_end)
                  && memcmp_eq m (p_read + zip_offset) CDHeader.magic_bytes
          then Some (p_read + zip_offset, cd_end + zip_offset, zip_offset)
          else None in
        match resolved with
        | None => (p_read, cd_end, base_offset, cd_headers)
        | Some (p_read, cd_end, base_offset) =>
            let cd_header := CDHeader.load m p_read in
            let p_read := p_read + CDHeader.size
                          + CDHeader.filename_len cd_header
                          + CDHeader.extra_field_len cd_header
                          + CDHeader.comment_len cd_header in
            read_cd m p_end zip_offset n' (i + 1) p_read cd_end base_offset
                    (cd_headers ++ [cd_header])
        end
  end.

Section Engine.

Variable E : Env.

(** Fixed for one run: the incremented [depth], [p_end],
    [fp_ + base_offset] and [fp_w_base]. *)
Variables (depth' p_end fp_base fp_w_base : Z).

(** Lines 156-159: an extra field length that is not 0 is set to 0 in the
    moved header. *)
Definition strip_extra_field (m : mem) (hdr : Z) : mem :=
  if read16 m (hdr + 28) =? 0 then m else write16 m (hdr + 28) 0.

(** Lines 176-182: bit 3 is cleared in the moved header and its crc and
    sizes are taken from the central directory. *)
Definition use_directory_values (m : mem) (hdr : Z) (cd_header : CDHeader.t)
    : mem :=
  let m := write16 m (hdr + 6) (Z.land (read16 m (hdr + 6)) (Z.lnot 8)) in
  let m := write32 m (hdr + 14) (CDHeader.crc32 cd_header) in
  let m := write32 m (hdr + 18) (CDHeader.compressed_size cd_header) in
  write32 m (hdr + 22) (CDHeader.uncompressed_size cd_header).

(** Lines 133-191: locate the local header, move it to the write cursor,
    strip the extra field, resolve the data descriptor flag.  (Lines
    170-173 only print the file name.) *)
Definition move_header (m : mem) (p_write : Z) (cd_header : CDHeader.t)
    : header_result :=
  let p_read := fp_base + CDHeader.local_header_offset cd_header in
  if (p_end <? p_read + 30) || negb (memcmp_eq m p_read header_magic)
  then HSkip
  else
    let cd_header :=
      CDHeader.set_local_header_offset cd_header (u32 (p_write - fp_w_base)) in
    let filename_length := read16 m (p_read + 26) in
    let header_size := 30 + filename_length in
    if p_end <? p_read + header_size
    then HEof cd_header
    else
      let m := memmove m p_write p_read header_size in
      let extra := read16 m (p_write + 28) in
      let p_read := if extra =? 0 then p_read else p_read + extra in
      let m := strip_extra_field m p_write in
      let orig_comp_size := read32 m (p_write + 18) in
      let flag := read16 m (p_write + 6) in
      let filename := read_bytes m (p_write + 30) (Z.to_nat filename_length) in
      let '(m, orig_comp_size) :=
        if negb (Z.land flag 8 =? 0)
        then (use_directory_values m p_write cd_header,
              CDHeader.compressed_size cd_header)
        else (m, orig_comp_size) in
      if p_end <? p_read + orig_comp_size
      then HTooLarge m cd_header
      else HReady m cd_header (p_read + header_size) (p_write + header_size)
                  orig_comp_size flag filename.

(** Lines 196-208: not deflate, or encrypted, or fast mode.  [hdr] is the
    moved header, [p_write] the cursor behind it.

    Line 200 hands [LeanifyFile] the pointer [p_read], the size and the
    distance [p_read - p_write]; here it gets the bytes from [p_write] to
    the end of the file and the same two numbers.  That is the call of the
    code as long as [p_write <= p_read], which the loop keeps for entries
    that lie one behind the other ([compact_bound]).  With the write cursor
    ahead of the read cursor (two directory records for one entry) the
    code passes the negative distance converted to [size_t], and what the
    minifier does with it is not in this file: the properties that speak
    of this call are stated for [p_write <= p_read]. *)
Definition keep_or_minify (m : mem) (cd_header : CDHeader.t)
    (hdr p_read p_write orig_comp_size flag : Z) (filename : list byte)
    : mem * Z * CDHeader.t :=
  let '(m, cd_header) :=
    if (read16 m (hdr + 8) =? 0) && (depth' <=? max_depth E)
       && (Z.land flag 1 =? 0)
    then
      if negb (orig_comp_size =? 0)
      then
        let '(region, r) :=
          LeanifyFile E
            (read_bytes m p_write (Z.to_nat (p_read - p_write + orig_comp_size)))
            orig_comp_size (p_read - p_write) filename in
        let m := write_bytes m p_write region in
        let new_size := u32 r in
        let m := write32 m (hdr + 22) new_size in
        let cd_header := CDHeader.set_uncompressed_size cd_header new_size in
        let m := write32 m (hdr + 18) new_size in
        let cd_header := CDHeader.set_compressed_size cd_header new_size in
        let c := u32 (mz_crc32 E (read_bytes m p_write (Z.to_nat new_size))) in
        let m := write32 m (hdr + 14) c in
        (m, CDHeader.set_crc32 cd_header c)
      else (m, cd_header)
    else (memmove m p_write p_read orig_comp_size, cd_header) in
  (m, p_write + read32 m (hdr + 18), cd_header).

(** Lines 211-258: deflate; recompress with zopfli. *)
Definition recompress (m : mem) (cd_header : CDHeader.t)
    (hdr p_read p_write orig_comp_size : Z) (filename : list byte)
    : mem * Z * CDHeader.t :=
  if read32 m (hdr + 22) =? 0
  then
    let m := write16 m (hdr + 8) 0 in
    let cd_header := CDHeader.set_compression_method cd_header 0 in
    let m := write32 m (hdr + 18) 0 in
    (m, p_write, CDHeader.set_compressed_size cd_header 0)
  else
    let failed := (memmove m p_write p_read orig_comp_size,
                   p_write + orig_comp_size, cd_header) in
    match tinfl_decompress_mem_to_heap E
            (read_bytes m p_read (Z.to_nat orig_comp_size)) with
    | None => failed
    | Some buffer =>
        let s := Z.of_nat (length buffer) in
        if negb (s =? read32 m (hdr + 22))
           || negb (read32 m (hdr + 14)
                    =? mz_crc32 E (firstn (Z.to_nat (read32 m (hdr + 22))) buffer))
        then failed
        else
          let '(buffer, r) := LeanifyFile E buffer s 0 filename in
          let new_uncomp_size := u32 r in
          let minified := firstn (Z.to_nat new_uncomp_size) buffer in
          let out := ZopfliDeflate E minified in
          let new_comp_size := Z.of_nat (length out) in
          let '(m, cd_header) :=
            if (new_uncomp_size <=? new_comp_size)
               && (new_uncomp_size <=? orig_comp_size)
            then
              let m := write16 m (hdr + 8) 0 in
              let cd_header := CDHeader.set_compression_method cd_header 0 in
              let c := u32 (mz_crc32 E minified) in
              let m := write32 m (hdr + 14) c in
              let cd_header := CDHeader.set_crc32 cd_header c in
              let m := write32 m (hdr + 18) new_uncomp_size in
              let cd_header := CDHeader.set_compressed_size cd_header new_uncomp_size in
              let m := write32 m (hdr + 22) new_uncomp_size in
              let cd_header := CDHeader.set_uncompressed_size cd_header new_uncomp_size in
              (write_bytes m p_write minified, cd_header)
            else if new_comp_size <? orig_comp_size
            then
              let c := u32 (mz_crc32 E minified) in
              let m := write32 m (hdr + 14) c in
              let cd_header := CDHeader.set_crc32 cd_header c in
              let m := write32 m (hdr + 18) (u32 new_comp_size) in
              let cd_header := CDHeader.set_compressed_size cd_header (u32 new_comp_size) in
              let m := write32 m (hdr + 22) new_uncomp_size in
              let cd_header := CDHeader.set_uncompressed_size cd_header new_uncomp_size in
              (write_bytes m p_write out, cd_header)
            else (memmove m p_write p_read orig_comp_size, cd_header) in
          (m, p_write + read32 m (hdr + 18), cd_header)
    end.

(** Line 196: which of the two the payload goes through. *)
Definition process_payload (m : mem) (cd_header : CDHeader.t)
    (hdr p_read p_write orig_comp_size flag : Z) (filename : list byte)
    : mem * Z * CDHeader.t :=
  if negb (read16 m (hdr + 8) =? 8) || negb (Z.land flag 1 =? 0) || is_fast E
  then keep_or_minify m cd_header hdr p_read p_write orig_comp_size flag filename
  else recompress m cd_header hdr p_read p_write orig_comp_size filename.

(** One iteration of the loop over the local file headers. *)
Definition process_entry (m : mem) (p_write : Z) (cd_header : CDHeader.t)
    : mem * Z * CDHeader.t * flow :=
  match move_header m p_write cd_header with
  | HSkip => (m, p_write, cd_header, Next)
  | HEof h => (m, p_write, h, Stop)
  | HTooLarge m' h => (m', p_write, h, Stop)
  | HReady m' h p_read' p_write' orig_comp_size flag filename =>
      let '(m'', p_write'', h') :=
        process_payload m' h p_write p_read' p_write'
                        orig_comp_size flag filename in
      (m'', p_write'', h', Next)
  end.

(** The loop itself.  The headers are updated in place in the vector;
    those after a [break] stay as they were parsed. *)
Fixpoint compact (m : mem) (p_write : Z) (cd_headers : list CDHeader.t)
    : mem * Z * list CDHeader.t :=
  match cd_headers with
  | [] => (m, p_write, [])
  | cd_header :: rest =>
      match process_entry m p_write cd_header with
      | (m', p_write', h', Stop) => (m', p_write', h' :: rest)
      | (m', p_write', h', Next) =>
          let '(m'', p_write'', rest') := compact m' p_write' rest in
          (m'', p_write'', h' :: rest')
      end
  end.

(** Lines 264-275: the central directory is written out again. *)
Fixpoint write_cd (m : mem) (p_write : Z) (cd_headers : list CDHeader.t)
    : mem * Z * list CDHeader.t :=
  match cd_headers with
  | [] => (m, p_write, [])
  | cd_header :: rest =>
      let cd_header :=
        CDHeader.set_flag cd_header
          (Z.land (CDHeader.flag cd_header) (Z.lnot 8)) in
      let cd_header := CDHeader.set_comment_len cd_header 0 in
      let cd_header := CDHeader.set_extra_field_len cd_header 0 in
      let m := CDHeader.store m p_write cd_header in
      let p_write := p_write + CDHeader.size in
      let m := memmove m p_write
                 (fp_w_base + CDHeader.local_header_offset cd_header + 30)
                 (CDHeader.filename_len cd_header) in
      let p_write := p_write + CDHeader.filename_len cd_header in
      let '(m', p_write', rest') := write_cd m p_write rest in
      (m', p_write', cd_header :: rest')
  end.

End Engine.

(** Lines 59-83: find and check the end of central directory record.
    [None] stands for the four early returns through [Format::Leanify]. *)
Definition locate_eocd (z : Zip) : option (Z * EOCD.t) :=
  let m := memory z in
  let p_end := fp_ z + size_ z in
  let p_searchstart := Z.max (fp_ z) (p_end - 65535 - 4) in
  let p_eocd := find_end m p_searchstart p_end EOCD.magic_bytes in
  if p_eocd =? p_end then None
  else if p_end <? p_eocd + EOCD.size then None
  else
    let eocd := EOCD.load m p_eocd in
    if negb (EOCD.disk_num eocd =? 0) || negb (EOCD.disk_cd_start eocd =? 0)
       || negb (EOCD.num_records eocd =? EOCD.num_records_total eocd)
    then None
    else
      let cd_end := fp_ z + EOCD.cd_offset eocd + EOCD.cd_size eocd in
      if p_eocd <? cd_end then None
      else Some (p_eocd, eocd).

(** What lines 85-125 leave behind for the rest of the function. *)
Record Directory := mkDirectory {
  zip_offset : Z;
  base_offset : Z;
  p_read_cd : Z;          (* [p_read] after the loop *)
  cd_end : Z;             (* [cd_end], moved with the base offset *)
  cd_headers : list CDHeader.t   (* sorted *)
}.

(** Lines 85-125: the offset of the first local header, the central
    directory headers, sorted by local header offset. *)
Definition read_directory (z : Zip) (eocd : EOCD.t) : Directory :=
  let m := memory z in
  let p_end := fp_ z + size_ z in
  let cd_end := fp_ z + EOCD.cd_offset eocd + EOCD.cd_size eocd in
  let first_local_header :=
    search m (fp_ z) (fp_ z + EOCD.cd_offset eocd) header_magic in
  let zip_offset := first_local_header - fp_ z in
  let '(p_read, cd_end, base_offset, cd_headers) :=
    read_cd m p_end zip_offset (Z.to_nat (EOCD.num_records eocd)) 0
            (fp_ z + EOCD.cd_offset eocd) cd_end 0 [] in
  mkDirectory zip_offset base_offset p_read cd_end (sort_by_offset cd_headers).

(** Lines 127-286: compaction, the new central directory, the new end of
    central directory record. *)
Definition rewrite_archive (E : Env) (z : Zip) (size_leanified : Z)
    (eocd : EOCD.t) (d : Directory) : Zip * Z :=
  let m := memory z in
  let p_end := fp_ z + size_ z in
  let fp_w := fp_ z - size_leanified in
  let fp_w_base := fp_w + base_offset d in
  let m := memmove m fp_w (fp_ z) (zip_offset d) in
  let p_write := fp_w + zip_offset d in
  let '(m, p_write, cd_headers) :=
    compact E (depth z) p_end (fp_ z + base_offset d) fp_w_base
            m p_write (cd_headers d) in
  let cd_offset := u32 (p_write - fp_w_base) in
  let '(m, p_write, cd_headers) :=
    write_cd fp_w_base m p_write cd_headers in
  let n := u16 (Z.of_nat (length cd_headers)) in
  let eocd :=
    EOCD.mk (EOCD.magic eocd) (EOCD.disk_num eocd)
            (EOCD.disk_cd_start eocd) n n
            (u32 (p_write - fp_w_base - cd_offset)) cd_offset 0 in
  let m := EOCD.store m p_write eocd in
  let fp := fp_ z - size_leanified in
  let size := p_write + EOCD.size - fp in
  (mkZip m fp size (depth z), size).

(** [depth++] on entry. *)
Definition enter (z : Zip) : Zip :=
  mkZip (memory z) (fp_ z) (size_ z) (depth z + 1).

(** Which headers of the vector get through the header part in the run of
    [compact]: [true] for an entry that is compacted, [false] for one that
    is skipped, that stops the loop, or that the loop never reaches. *)
Fixpoint compacted_entries (E : Env) (depth' p_end fp_base fp_w_base : Z)
    (m : mem) (p_write : Z) (cd_headers : list CDHeader.t) : list bool :=
  match cd_headers with
  | [] => []
  | cd_header :: rest =>
      match process_entry E depth' p_end fp_base fp_w_base m p_write cd_header,
            move_header p_end fp_base fp_w_base m p_write cd_header with
      | (_, _, _, Stop), _ => map (fun _ => false) cd_headers
      | (m', p_write', _, Next), HSkip =>
          false :: compacted_entries E depth' p_end fp_base fp_w_base
                     m' p_write' rest
      | (m', p_write', _, Next), _ =>
          true :: compacted_entries E depth' p_end fp_base fp_w_base
                    m' p_write' rest
      end
  end.


(** Where the cursors are behind a header that got through the header
    part: [p_read] and [p_write] of lines 190-191. *)
Definition cursors_behind_header (r : header_result) : option (Z * Z) :=
  match r with
  | HReady _ _ p_read p_write _ _ _ => Some (p_read, p_write)
  | _ => None
  end.

(** [Zip::Leanify(size_leanified)]: the object after the call and the
    returned size. *)
Definition Leanify (E : Env) (z : Zip) (size_leanified : Z) : Zip * Z :=
  let z := enter z in
  match locate_eocd z with
  | None => Format_Leanify z size_leanified
  | Some (p_eocd, eocd) =>
      rewrite_archive E z size_leanified eocd (read_directory z eocd)
  end.

(** The archive held by an object, as bytes. *)
Definition contents (z : Zip) : list byte :=
  read_bytes (memory z) (fp_ z) (Z.to_nat (size_ z)).

(** A buffer placed at address 0 of an otherwise zeroed memory. *)
Definition load_buffer (l : list byte) : mem :=
  fun a => if a <? 0 then x00 else nth (Z.to_nat a) l x00.

(** The engine as a function on byte strings: a top-level call
    ([size_leanified] is its default, 0) at depth 0. *)
Definition Leanify_bytes (E : Env) (l : list byte) : list byte :=
  contents (fst (Leanify E (mkZip (load_buffer l) 0 (Z.of_nat (length l)) 0) 0)).

(* ------------------------------------------------------------------ *)
(** ** Vocabulary of the properties *)

(** Two memories that hold the same bytes on [lo, hi). *)
Definition agree (lo hi : Z) (m m' : mem) : Prop :=
  forall a, lo <= a < hi -> m' a = m a.

(** An entry as one iteration of the compaction loop meets it: the local
    file header at [p] and the central directory header [h] that led
    there. *)
Module Entry.

(** The crc and the sizes the engine goes by: those of the central
    directory when bit 3 of the local flag is set, those of the local
    header otherwise. *)
Definition crc32 (m : mem) (p : Z) (h : CDHeader.t) : Z :=
  if Z.testbit (LocalHeader.flag m p) 3 then CDHeader.crc32 h
  else LocalHeader.crc32 m p.

Definition compressed_size (m : mem) (p : Z) (h : CDHeader.t) : Z :=
  if Z.testbit (LocalHeader.flag m p) 3 then CDHeader.compressed_size h
  else LocalHeader.compressed_size m p.

Definition uncompressed_size (m : mem) (p : Z) (h : CDHeader.t) : Z :=
  if Z.testbit (LocalHeader.flag m p) 3 then CDHeader.uncompressed_size h
  else LocalHeader.uncompressed_size m p.

Definition filename (m : mem) (p : Z) : list byte :=
  read_bytes m (p + 30) (Z.to_nat (LocalHeader.filename_len m p)).

(** Where the payload starts: behind header, file name and extra field. *)
Definition payload (m : mem) (p : Z) : Z :=
  p + 30 + LocalHeader.filename_len m p + LocalHeader.extra_field_len m p.

Definition payload_bytes (m : mem) (p : Z) (h : CDHeader.t) : list byte :=
  read_bytes m (payload m p) (Z.to_nat (compressed_size m p h)).

(** The entry gets through the checks of lines 135, 148 and 185: it is
    neither skipped nor the end of the loop. *)
Definition compactable (m : mem) (p_end p : Z) (h : CDHeader.t) : Prop :=
  memcmp_eq m p header_magic = true
  /\ p + 30 + LocalHeader.filename_len m p <= p_end
  /\ p + LocalHeader.extra_field_len m p + compressed_size m p h <= p_end.

(** Where the entry ends: behind its payload. *)
Definition extent_end (m : mem) (p : Z) (h : CDHeader.t) : Z :=
  payload m p + compressed_size m p h.

(** The payload can be inflated, to the length and the crc the engine
    goes by. *)
Definition inflates_to (E : Env) (m : mem) (p : Z) (h : CDHeader.t)
    (buffer : list byte) : Prop :=
  tinfl_decompress_mem_to_heap E (payload_bytes m p h) = Some buffer
  /\ Z.of_nat (length buffer) = uncompressed_size m p h
  /\ crc32 m p h = mz_crc32 E buffer.

End Entry.

(** The payload at [p_read] can be inflated, to the length and the crc of
    the moved header at [hdr]. *)
Definition moved_inflates_to (E : Env) (m : mem) (hdr p_read ocs : Z)
    (buffer : list byte) : Prop :=
  tinfl_decompress_mem_to_heap E (read_bytes m p_read (Z.to_nat ocs))
  = Some buffer
  /\ Z.of_nat (length buffer) = LocalHeader.uncompressed_size m hdr
  /\ LocalHeader.crc32 m hdr = mz_crc32 E buffer.

(** The central directory records of [hs], one after the other from [p],
    each followed by a file name of the length it gives. *)
Fixpoint directory_at (m : mem) (p : Z) (hs : list CDHeader.t) : Prop :=
  match hs with
  | [] => True
  | h :: rest =>
      CDHeader.load m p = h
      /\ directory_at m (p + CDHeader.size + CDHeader.filename_len h) rest
  end.

(** The bytes the records of [hs] take in a central directory written
    without extra fields and comments. *)
Definition directory_size (hs : list CDHeader.t) : Z :=
  fold_right (fun h acc => CDHeader.size + CDHeader.filename_len h + acc) 0 hs.

(** The entries of [hs] lie one behind the other: the first one starts at
    [lo] or later, each one starts where the one before it ends or later,
    and the last one ends at [limit] or earlier.  (Their offsets are then
    distinct, and ascending.) *)
Fixpoint entries_in_order (m : mem) (fp_base lo : Z) (hs : list CDHeader.t)
    (limit : Z) : Prop :=
  match hs with
  | [] => lo <= limit
  | h :: rest =>
      let p := fp_base + CDHeader.local_header_offset h in
      lo <= p /\ entries_in_order m fp_base (Entry.extent_end m p h) rest limit
  end.

(** A valid archive: the end record is found and accepted, the records that
    were read from the central directory end inside it, the directory ends
    before the end record, and the entries lie in order between the first
    local header and the directory. *)
Definition valid_archive (z : Zip) : Prop :=
  match locate_eocd z with
  | None => False
  | Some (p_eocd, eocd) =>
      let d := read_directory z eocd in
      p_read_cd d <= cd_end d
      /\ cd_end d <= p_eocd
      /\ entries_in_order (memory z) (fp_ z + base_offset d)
           (fp_ z + zip_offset d) (cd_headers d)
           (cd_end d - EOCD.cd_size eocd)
  end.

(** The recursive minifier never returns a length greater than the one it
    was given. *)
Definition minifier_shrinks (E : Env) : Prop :=
  forall region file_size size_leanified filename,
    0 <= file_size ->
    0 <= snd (LeanifyFile E region file_size size_leanified filename)
      <= file_size.

(** The recursive minifier works in the region it was given: the file and
    the [size_leanified] bytes before it. *)
Definition minifier_in_place (E : Env) : Prop :=
  forall region file_size size_leanified filename,
    0 <= file_size -> 0 <= size_leanified ->
    Z.of_nat (length region) = size_leanified + file_size ->
    length (fst (LeanifyFile E region file_size size_leanified filename))
    = length region.

(** The bytes the records of [hs] took in the central directory they were
    read from. *)
Definition directory_bytes_read (hs : list CDHeader.t) : Z :=
  fold_right
    (fun h acc => CDHeader.size + CDHeader.filename_len h
                  + CDHeader.extra_field_len h + CDHeader.comment_len h + acc)
    0 hs.



(** The magic of the end of central directory record occurs at [p], inside
    the window the locator searches: the last 65535 + 4 bytes of the
    buffer. *)
Definition eocd_magic_at (z : Zip) (p : Z) : Prop :=
  Z.max (fp_ z) (fp_ z + size_ z - 65535 - 4) <= p
  /\ p + 4 <= fp_ z + size_ z
  /\ memcmp_eq (memory z) p EOCD.magic_bytes = true.

(** The object of a top-level call on the bytes [l]: the buffer at address
    0, depth 0. *)
Definition loaded (l : list byte) : Zip :=
  mkZip (load_buffer l) 0 (Z.of_nat (length l)) 0.

(** [m1] holds from [lo + D] on what [m2] holds from [lo] on. *)
Definition shifted (D lo : Z) (m1 m2 : mem) : Prop :=
  forall a, lo <= a -> m1 (a + D) = m2 a.

(** The header part has gone the same way on both sides, with cursors [D]
    apart and memories that are [shifted]. *)
Definition header_shifted (D lo : Z) (r1 r2 : header_result) : Prop :=
  match r1, r2 with
  | HSkip, HSkip => True
  | HEof h1, HEof h2 => h1 = h2
  | HTooLarge m1 h1, HTooLarge m2 h2 => shifted D lo m1 m2 /\ h1 = h2
  | HReady m1 h1 pr1 pw1 ocs1 flag1 name1,
    HReady m2 h2 pr2 pw2 ocs2 flag2 name2 =>
      shifted D lo m1 m2 /\ h1 = h2 /\ pr1 = pr2 + D /\ pw1 = pw2 + D
      /\ ocs1 = ocs2 /\ flag1 = flag2 /\ name1 = name2
  | _, _ => False
  end.

(** The first local file header magic of the buffer lies at offset [N],
    before the nominal start of the central directory. *)
Definition first_local_header_at (z : Zip) (eocd : EOCD.t) (N : Z) : Prop :=
  search (memory z) (fp_ z) (fp_ z + EOCD.cd_offset eocd) header_magic
  = fp_ z + N
  /\ N < EOCD.cd_offset eocd.

(** The central directory starts at [p] with a record: the end record
    counts one at least, and gives the directory the room for it. *)
Definition directory_starts_at (m : mem) (p : Z) (eocd : EOCD.t) : Prop :=
  0 < EOCD.num_records eocd
  /\ CDHeader.size <= EOCD.cd_size eocd
  /\ memcmp_eq m p CDHeader.magic_bytes = true.

(** The last place at which the magic of the end of central directory
    record occurs inside the window the locator searches. *)
Definition last_eocd_magic (z : Zip) (p : Z) : Prop :=
  eocd_magic_at z p /\ forall q, eocd_magic_at z q -> q <= p.

(** The records of [hs] lie one after the other from [p] as a central
    directory holds them, each with its magic and with its 46 bytes before
    [limit], each followed by its file name, extra field and comment. *)
Fixpoint records_at (m : mem) (p limit : Z) (hs : list CDHeader.t) : Prop :=
  match hs with
  | [] => True
  | h :: rest =>
      p + CDHeader.size <= limit
      /\ memcmp_eq m p CDHeader.magic_bytes = true
      /\ h = CDHeader.load m p
      /\ records_at m
           (p + CDHeader.size + CDHeader.filename_len h
            + CDHeader.extra_field_len h + CDHeader.comment_len h)
           limit rest
  end.

(** The file names behind the records of [hs] written from [p] on in
    [m_dst] are the file names behind the local headers the records point
    to, as [m_src] holds them. *)
Fixpoint names_at (m_src m_dst : mem) (fp_w_base p : Z)
    (hs : list CDHeader.t) : Prop :=
  match hs with
  | [] => True
  | h :: rest =>
      read_bytes m_dst (p + CDHeader.size) (Z.to_nat (CDHeader.filename_len h))
      = read_bytes m_src (fp_w_base + CDHeader.local_header_offset h + 30)
          (Z.to_nat (CDHeader.filename_len h))
      /\ names_at m_src m_dst fp_w_base
           (p + CDHeader.size + CDHeader.filename_len h) rest
  end.

(** The directory header [h] points at a rewritten local header: at its
    offset lies the local header magic, with no extra field and bit 3 of
    the flag cleared. *)
Definition points_at_header (m : mem) (fp_w_base : Z) (h : CDHeader.t)
    : Prop :=
  let q := fp_w_base + CDHeader.local_header_offset h in
  memcmp_eq m q header_magic = true
  /\ LocalHeader.extra_field_len m q = 0
  /\ Z.testbit (LocalHeader.flag m q) 3 = false.


(* ------------------------------------------------------------------ *)
(** ** Sample collaborators and archives

    Concrete stand-ins for the collaborators, used to run the engine on
    sample archives. *)

Module Sample.

(** One bit step of the reflected CRC-32 (polynomial 0xEDB88320). *)
Definition crc_step (c : Z) : Z :=
  if Z.testbit c 0 then Z.lxor (Z.shiftr c 1) 3988292384 else Z.shiftr c 1.

Definition crc_byte (c : Z) (b : byte) : Z :=
  let c := Z.lxor c (byte_to_Z b) in
  crc_step (crc_step (crc_step (crc_step
    (crc_step (crc_step (crc_step (crc_step c))))))).

(** The CRC-32 of ZIP, which is what [mz_crc32(0, ...)] computes. *)
Definition crc32 (data : list byte) : Z :=
  Z.lxor (fold_left crc_byte data 4294967295) 4294967295.

Definition le16 (z : Z) : list byte := [byte_of_Z z; byte_of_Z (z / 256)].
Definition le32 (z : Z) : list byte := le16 z ++ le16 (z / 65536).

(** A raw deflate stream made of stored blocks only is inflated; any other
    block type is reported as a failure. *)
Fixpoint inflate_stored (fuel : nat) (data : list byte) : option (list byte) :=
  match fuel with
  | O => None
  | S fuel' =>
      match data with
      | hd :: l0 :: l1 :: n0 :: n1 :: rest =>
          let len := byte_to_Z l0 + 256 * byte_to_Z l1 in
          let nlen := byte_to_Z n0 + 256 * byte_to_Z n1 in
          if negb (Z.land (byte_to_Z hd) 6 =? 0) then None
          else if negb (len + nlen =? 65535) then None
          else if Z.of_nat (length rest) <? len then None
          else
            let block := firstn (Z.to_nat len) rest in
            if Z.testbit (byte_to_Z hd) 0 then Some block
            else
              match inflate_stored fuel' (skipn (Z.to_nat len) rest) with
              | Some more => Some (block ++ more)
              | None => None
              end
      | _ => None
      end
  end.

Definition inflate (data : list byte) : option (list byte) :=
  inflate_stored (S (length data)) data.

(** A deflate stream of one final stored block. *)
Definition deflate_stored (data : list byte) : list byte :=
  let len := Z.of_nat (length data) in
  x01 :: le16 len ++ le16 (65535 - len) ++ data.












Fixpoint strip_spaces (rev_data : list byte) : list byte :=
  match rev_data with
  | x20 :: tl => strip_spaces tl
  | _ => rev_data
  end.

(** A minifier that leaves the file as it is and only moves it down to the
    start of the region. *)
Definition move_only (region : list byte) (file_size size_leanified : Z)
    (filename : list byte) : list byte * Z :=
  let file := skipn (Z.to_nat size_leanified) region in
  (file ++ skipn (Z.to_nat file_size) region, file_size).

(** A minifier that drops trailing blanks (0x20) from the file. *)
Definition trim_blanks (region : list byte) (file_size size_leanified : Z)
    (filename : list byte) : list byte * Z :=
  let file := skipn (Z.to_nat size_leanified) region in
  let kept := rev (strip_spaces (rev file)) in
  (kept ++ skipn (length kept) region, Z.of_nat (length kept)).

(** Nothing is minified below the archive, deflate entries are recompressed
    into stored blocks. *)
Definition plain : Env :=
  mkEnv 1 false crc32 inflate deflate_stored move_only.

(** The same with the blank-trimming minifier. *)
Definition trimming : Env :=
  mkEnv 1 false crc32 inflate deflate_stored trim_blanks.

(** Fast mode. *)
Definition fast : Env :=
  mkEnv 1 true crc32 inflate deflate_stored trim_blanks.


(** A local file header with its file name. *)
Definition local_header (flag method crc csize usize fnlen : Z)
    (extra name : list byte) : list byte :=
  header_magic ++ le16 10 ++ le16 flag ++ le16 method ++ le16 0 ++ le16 0
  ++ le32 crc ++ le32 csize ++ le32 usize ++ le16 fnlen
  ++ le16 (Z.of_nat (length extra)) ++ name ++ extra.

(** A central directory record with its file name. *)
Definition cd_record (flag method crc csize usize fnlen offset : Z)
    (name : list byte) : list byte :=
  CDHeader.magic_bytes ++ le16 20 ++ le16 10 ++ le16 flag ++ le16 method
  ++ le16 0 ++ le16 0 ++ le32 crc ++ le32 csize ++ le32 usize ++ le16 fnlen
  ++ le16 0 ++ le16 0 ++ le16 0 ++ le16 0 ++ le32 0 ++ le32 offset ++ name.

Definition eocd_record (records cd_size cd_offset : Z) : list byte :=
  EOCD.magic_bytes ++ le16 0 ++ le16 0 ++ le16 records ++ le16 records
  ++ le32 cd_size ++ le32 cd_offset ++ le16 0.

(** File contents and a file name. *)
Definition hello : list byte := [x68; x65; x6c; x6c; x6f].
Definition hi_blanks : list byte := [x68; x69; x20; x20; x20].
Definition name_a : list byte := [x61].

(** An archive is run from address 0, as a top-level call at depth 0. *)
Definition zip_of (archive : list byte) : Zip := loaded archive.

(** One stored entry [a] holding [hello]: header at 0, payload at 31,
    directory at 36, end record at 83. *)
Definition stored_hello : list byte :=
  local_header 0 0 (crc32 hello) 5 5 1 [] name_a ++ hello
  ++ cd_record 0 0 (crc32 hello) 5 5 1 0 name_a
  ++ eocd_record 1 47 36.

(** One deflate entry [a] holding [hello] in a stored block: payload of 10
    bytes at 31, directory at 41, end record at 88. *)
Definition deflated_hello : list byte :=
  local_header 0 8 (crc32 hello) 10 5 1 [] name_a ++ deflate_stored hello
  ++ cd_record 0 8 (crc32 hello) 10 5 1 0 name_a
  ++ eocd_record 1 47 41.

(** The same, with a crc in the local header that is not the one of
    [hello]. *)
Definition deflated_bad_crc : list byte :=
  local_header 0 8 1 10 5 1 [] name_a ++ deflate_stored hello
  ++ cd_record 0 8 1 10 5 1 0 name_a
  ++ eocd_record 1 47 41.

(** The same as [deflated_hello], but the directory gives a crc (12345)
    that is not the one of [hello]; the local header gives the right one. *)
Definition deflated_directory_crc : list byte :=
  local_header 0 8 (crc32 hello) 10 5 1 [] name_a ++ deflate_stored hello
  ++ cd_record 0 8 12345 10 5 1 0 name_a
  ++ eocd_record 1 47 41.

(** A deflate entry whose header and directory give the uncompressed size
    0, with a payload of 10 bytes that inflates to [hello]. *)
Definition deflated_size_zero : list byte :=
  local_header 0 8 0 10 0 1 [] name_a ++ deflate_stored hello
  ++ cd_record 0 8 0 10 0 1 0 name_a
  ++ eocd_record 1 47 41.



(** One stored entry whose local header gives a file name of 1 byte and
    whose directory header gives 2. *)
Definition name_length_mismatch : list byte :=
  local_header 0 0 (crc32 hello) 5 5 1 [] name_a ++ hello
  ++ cd_record 0 0 (crc32 hello) 5 5 2 0 [x61; x62]
  ++ eocd_record 1 48 36.

(** One stored entry [a] holding [hi_blanks], written with a data
    descriptor: bit 3 set, crc and sizes 0 in the local header, the
    descriptor behind the payload. *)
Definition with_descriptor : list byte :=
  local_header 8 0 0 0 0 1 [] name_a ++ hi_blanks
  ++ (le32 134695760 ++ le32 (crc32 hi_blanks) ++ le32 5 ++ le32 5)
  ++ cd_record 8 0 (crc32 hi_blanks) 5 5 1 0 name_a
  ++ eocd_record 1 47 52.

(** Two stored entries; the directory header of the second one points at
    offset 40, where no local header starts. *)
Definition lost_header : list byte :=
  local_header 0 0 (crc32 hello) 5 5 1 [] name_a ++ hello
  ++ [x00; x00; x00; x00; x00; x00; x00; x00]
  ++ cd_record 0 0 (crc32 hello) 5 5 1 0 name_a
  ++ cd_record 0 0 (crc32 hello) 5 5 1 40 [x62]
  ++ eocd_record 2 94 44.

(** One entry [d/], a directory: stored, nothing in it.  Header and name
    at 0, directory at 32, end record at 80. *)
Definition name_d : list byte := [x64; x2f].

Definition empty_directory : list byte :=
  local_header 0 0 0 0 0 2 [] name_d
  ++ cd_record 0 0 0 0 0 2 0 name_d
  ++ eocd_record 1 48 32.

(** A stub of four bytes, as a self-extractor puts before an archive. *)
Definition stub : list byte := [x53; x54; x55; x42].

(** One stored entry [a] whose four bytes are the magic of a central
    directory record: header at 0, payload at 31, directory at 35, end
    record at 82.  Behind a stub of four bytes the payload lies at 35. *)
Definition magic_payload : list byte :=
  local_header 0 0 (crc32 CDHeader.magic_bytes) 4 4 1 [] name_a
  ++ CDHeader.magic_bytes
  ++ cd_record 0 0 (crc32 CDHeader.magic_bytes) 4 4 1 0 name_a
  ++ eocd_record 1 47 35.

(** A memory holding an archive of 4 GiB and 99 bytes at address 0: the
    central directory (one record, 47 bytes) comes first, then the local
    header of its entry at 47, a deflate payload of 4294967295 bytes (all
    0) at 78, and the end record. *)
Definition huge_payload : Z := 4294967295.

Definition huge_size : Z := 78 + huge_payload + 22.

Definition huge_memory : mem :=
  let front :=
    cd_record 0 8 0 huge_payload 5 1 47 name_a
    ++ local_header 0 8 0 huge_payload 5 1 [] name_a in
  let back := eocd_record 1 47 0 in
  fun a =>
    if a <? 0 then x00
    else if a <? 78 then nth (Z.to_nat a) front x00
    else if a <? 78 + huge_payload then x00
    else nth (Z.to_nat (a - (78 + huge_payload))) back x00.

End Sample.

(* ------------------------------------------------------------------ *)
(** * Properties *)

(** ** Bytes and words in memory *)

Lemma byte_to_Z_range (b : byte) : 0 <= byte_to_Z b < 256.
Proof.
  unfold byte_to_Z. pose proof (Byte.to_N_bounded b). lia.
Qed.

Lemma byte_to_of_Z (z : Z) : byte_to_Z (byte_of_Z z) = z mod 256.
Proof.
  unfold byte_to_Z, byte_of_Z.
  pose proof (Z.mod_pos_bound z 256 ltac:(lia)) as Hr.
  destruct (Byte.of_N (Z.to_N (z mod 256))) as [b|] eqn:Hb.
  - apply Byte.to_of_N in Hb. rewrite Hb. lia.
  - apply Byte.of_N_None_iff in Hb. lia.
Qed.

Lemma byte_of_to_Z (b : byte) : byte_of_Z (byte_to_Z b) = b.
Proof.
  unfold byte_to_Z, byte_of_Z.
  pose proof (Byte.to_N_bounded b).
  rewrite Z.mod_small by lia.
  rewrite N2Z.id, Byte.of_to_N. reflexivity.
Qed.

Lemma byte_to_Z_inj (a b : byte) : byte_to_Z a = byte_to_Z b -> a = b.
Proof.
  intros H. rewrite <- (byte_of_to_Z a), <- (byte_of_to_Z b), H. reflexivity.
Qed.

Lemma read8_range m p : 0 <= read8 m p < 256.
Proof. apply byte_to_Z_range. Qed.

Lemma read16_range m p : 0 <= read16 m p < 65536.
Proof.
  unfold read16. pose proof (read8_range m p). pose proof (read8_range m (p + 1)).
  lia.
Qed.

Lemma read32_range m p : 0 <= read32 m p < 4294967296.
Proof.
  unfold read32. pose proof (read16_range m p).
  pose proof (read16_range m (p + 2)). lia.
Qed.

Lemma agree_refl lo hi m : agree lo hi m m.
Proof. intros a _. reflexivity. Qed.

Lemma agree_sym lo hi m m' : agree lo hi m m' -> agree lo hi m' m.
Proof. intros H a Ha. symmetry. apply H, Ha. Qed.

Lemma agree_trans lo hi m1 m2 m3 :
  agree lo hi m1 m2 -> agree lo hi m2 m3 -> agree lo hi m1 m3.
Proof. intros H1 H2 a Ha. rewrite H2, H1 by assumption. reflexivity. Qed.

Lemma agree_sub lo hi lo' hi' m m' :
  agree lo hi m m' -> lo <= lo' -> hi' <= hi -> agree lo' hi' m m'.
Proof. intros H Hl Hh a Ha. apply H. lia. Qed.

Lemma read8_agree m m' p : agree p (p + 1) m m' -> read8 m' p = read8 m p.
Proof. intros H. unfold read8. rewrite H by lia. reflexivity. Qed.

Lemma read16_agree m m' p : agree p (p + 2) m m' -> read16 m' p = read16 m p.
Proof.
  intros H. unfold read16, read8. rewrite !H by lia. reflexivity.
Qed.

Lemma read32_agree m m' p : agree p (p + 4) m m' -> read32 m' p = read32 m p.
Proof.
  intros H. unfold read32.
  rewrite (read16_agree m m' p), (read16_agree m m' (p + 2)); try reflexivity;
    eapply agree_sub; eauto; lia.
Qed.

Lemma read_bytes_length m p n : length (read_bytes m p n) = n.
Proof. unfold read_bytes. rewrite length_map, length_seq. reflexivity. Qed.

Lemma read_bytes_nth m p n i d :
  (i < n)%nat -> nth i (read_bytes m p n) d = m (p + Z.of_nat i).
Proof.
  intros Hi. unfold read_bytes.
  rewrite (nth_indep _ d (m (p + Z.of_nat 0)))
    by (rewrite length_map, length_seq; exact Hi).
  rewrite (map_nth (fun i => m (p + Z.of_nat i)) (seq 0 n) 0%nat i).
  rewrite seq_nth by exact Hi. reflexivity.
Qed.

Lemma read_bytes_agree m m' p n :
  agree p (p + Z.of_nat n) m m' -> read_bytes m' p n = read_bytes m p n.
Proof.
  intros H. unfold read_bytes. apply map_ext_in.
  intros i Hi. apply in_seq in Hi. apply H. lia.
Qed.

Lemma read_bytes_S m p n :
  read_bytes m p (S n) = m p :: read_bytes m (p + 1) n.
Proof.
  unfold read_bytes. cbn [seq map]. rewrite Z.add_0_r. f_equal.
  rewrite <- seq_shift, map_map. apply map_ext.
  intros i. f_equal. lia.
Qed.

Lemma read_bytes_app m p n k :
  read_bytes m p (n + k) = read_bytes m p n ++ read_bytes m (p + Z.of_nat n) k.
Proof.
  revert p. induction n as [|n IH]; intros p.
  - cbn [plus]. cbn. f_equal. lia.
  - cbn [plus]. rewrite !read_bytes_S, IH. cbn [app]. do 3 f_equal. lia.
Qed.

Lemma bytes_eqb_eq a b : bytes_eqb a b = true <-> a = b.
Proof.
  revert b. induction a as [|x a IH]; intros [|y b]; cbn; split; intros H;
    try reflexivity; try discriminate.
  - apply andb_true_iff in H as [H1 H2].
    apply Byte.byte_dec_bl in H1. apply IH in H2. congruence.
  - inversion H; subst. apply andb_true_iff. split.
    + apply Byte.byte_dec_lb. reflexivity.
    + apply IH. reflexivity.
Qed.

Lemma memcmp_eq_agree m m' p pat :
  agree p (p + Z.of_nat (length pat)) m m' ->
  memcmp_eq m' p pat = memcmp_eq m p pat.
Proof.
  intros H. unfold memcmp_eq. rewrite (read_bytes_agree m m') by exact H.
  reflexivity.
Qed.

(** *** Stores leave the rest of memory alone *)

Lemma write8_same m p v : write8 m p v p = byte_of_Z v.
Proof. unfold write8. rewrite Z.eqb_refl. reflexivity. Qed.

Lemma write8_other m p v a : a <> p -> write8 m p v a = m a.
Proof. intros H. unfold write8. apply Z.eqb_neq in H. rewrite H. reflexivity. Qed.

Lemma write16_other m p v a : a < p \/ p + 2 <= a -> write16 m p v a = m a.
Proof. intros H. unfold write16. rewrite !write8_other by lia. reflexivity. Qed.

Lemma write32_other m p v a : a < p \/ p + 4 <= a -> write32 m p v a = m a.
Proof. intros H. unfold write32. rewrite !write16_other by lia. reflexivity. Qed.

Lemma write_bytes_other m p l a :
  a < p \/ p + Z.of_nat (length l) <= a -> write_bytes m p l a = m a.
Proof.
  intros H. unfold write_bytes.
  destruct (p <=? a) eqn:H1; destruct (a <? p + Z.of_nat (length l)) eqn:H2;
    cbn; try reflexivity. lia.
Qed.


Lemma memmove_other m dst src n a :
  a < dst \/ dst + n <= a -> memmove m dst src n a = m a.
Proof.
  intros H. unfold memmove.
  destruct (dst <=? a) eqn:H1; destruct (a <? dst + n) eqn:H2;
    cbn; try reflexivity. lia.
Qed.

Lemma memmove_inside m dst src n a :
  dst <= a < dst + n -> memmove m dst src n a = m (a - dst + src).
Proof.
  intros H. unfold memmove.
  destruct (dst <=? a) eqn:H1; destruct (a <? dst + n) eqn:H2;
    cbn; try reflexivity; lia.
Qed.

Lemma read16_write16 m p v : read16 (write16 m p v) p = u16 v.
Proof.
  unfold read16, write16, read8, u16.
  rewrite write8_other by lia. rewrite !write8_same, !byte_to_of_Z.
  change 65536 with (256 * 256).
  rewrite Z.rem_mul_r by lia. reflexivity.
Qed.

Lemma read32_write32 m p v : read32 (write32 m p v) p = u32 v.
Proof.
  unfold read32, write32.
  rewrite (read16_agree (write16 m p v) _ p)
    by (intros a Ha; apply write16_other; lia).
  rewrite !read16_write16. unfold u16, u32.
  change 4294967296 with (65536 * 65536).
  rewrite Z.rem_mul_r by lia. reflexivity.
Qed.


Lemma read_bytes_memmove m dst src n :
  read_bytes (memmove m dst src (Z.of_nat n)) dst n = read_bytes m src n.
Proof.
  unfold read_bytes. apply map_ext_in. intros i Hi. apply in_seq in Hi.
  rewrite memmove_inside by lia. f_equal. lia.
Qed.

(* ------------------------------------------------------------------ *)
(** ** The end-marker locator and the passthrough *)

Lemma rfind_None m pat first n :
  rfind m pat first n = None ->
  forall p, first <= p < first + Z.of_nat n -> memcmp_eq m p pat = false.
Proof.
  induction n as [|k IH]; intros H p Hp; [lia|].
  cbn [rfind] in H.
  destruct (memcmp_eq m (first + Z.of_nat k) pat) eqn:Hk; [discriminate|].
  destruct (Z.eq_dec p (first + Z.of_nat k)) as [->|Hne]; [exact Hk|].
  apply IH; [exact H | lia].
Qed.

Lemma rfind_Some m pat first n p :
  rfind m pat first n = Some p ->
  first <= p < first + Z.of_nat n /\ memcmp_eq m p pat = true
  /\ forall q, p < q < first + Z.of_nat n -> memcmp_eq m q pat = false.
Proof.
  induction n as [|k IH]; intros H; [discriminate|].
  cbn [rfind] in H.
  destruct (memcmp_eq m (first + Z.of_nat k) pat) eqn:Hk.
  - inversion H; subst. split; [lia|]. split; [exact Hk|]. intros q Hq. lia.
  - destruct (IH H) as (Hr & Hm & Hl). split; [lia|]. split; [exact Hm|].
    intros q Hq.
    destruct (Z.eq_dec q (first + Z.of_nat k)) as [->|Hne]; [exact Hk|].
    apply Hl. lia.
Qed.

Lemma ffind_None m pat p n :
  ffind m pat p n = None ->
  forall q, p <= q < p + Z.of_nat n -> memcmp_eq m q pat = false.
Proof.
  revert p. induction n as [|k IH]; intros p H q Hq; [lia|].
  cbn [ffind] in H.
  destruct (memcmp_eq m p pat) eqn:Hk; [discriminate|].
  destruct (Z.eq_dec q p) as [->|Hne]; [exact Hk|].
  apply (IH (p + 1)); [exact H | lia].
Qed.

Lemma ffind_Some m pat p n r :
  ffind m pat p n = Some r ->
  p <= r < p + Z.of_nat n /\ memcmp_eq m r pat = true
  /\ forall q, p <= q < r -> memcmp_eq m q pat = false.
Proof.
  revert p. induction n as [|k IH]; intros p H; [discriminate|].
  cbn [ffind] in H.
  destruct (memcmp_eq m p pat) eqn:Hk.
  - inversion H; subst. split; [lia|]. split; [exact Hk|]. intros q Hq. lia.
  - destruct (IH _ H) as (Hr & Hm & Hl). split; [lia|]. split; [exact Hm|].
    intros q Hq.
    destruct (Z.eq_dec q p) as [->|Hne]; [exact Hk|].
    apply Hl. lia.
Qed.

(** [search] never leaves [first, last] when the range is not reversed. *)
Lemma search_range m first last pat :
  first <= last -> first <= search m first last pat <= last.
Proof.
  intros Hle. unfold search.
  destruct (ffind m pat first _) as [r|] eqn:Hf; [|lia].
  apply ffind_Some in Hf as (Hr & _ & _). lia.
Qed.

Lemma locate_eocd_not_found z :
  (forall p, ~ eocd_magic_at z p) -> locate_eocd z = None.
Proof.
  intros H. unfold locate_eocd, find_end.
  destruct (rfind _ _ _ _) as [p|] eqn:Hf.
  - apply rfind_Some in Hf as (Hr & Hm & _). exfalso. apply (H p).
    unfold eocd_magic_at. cbn [length EOCD.magic_bytes] in Hr.
    split; [lia|]. split; [lia|exact Hm].
  - rewrite Z.eqb_refl. reflexivity.
Qed.

Lemma locate_eocd_overlap z p :
  eocd_magic_at z p -> (forall q, eocd_magic_at z q -> q <= p) ->
  fp_ z + size_ z < p + 22 -> locate_eocd z = None.
Proof.
  intros (Hlo & Hhi & Hm) Hlast Hov. unfold locate_eocd, find_end.
  cbn [length EOCD.magic_bytes].
  destruct (rfind _ _ _ _) as [r|] eqn:Hf.
  - apply rfind_Some in Hf as (Hr & Hrm & Hl).
    assert (r = p) as ->.
    { assert (r <= p)
        by (apply Hlast; unfold eocd_magic_at;
            split; [lia|]; split; [lia|exact Hrm]).
      destruct (Z.eq_dec r p) as [|Hne]; [assumption|].
      rewrite Hl in Hm by lia. discriminate. }
    destruct (p =? fp_ z + size_ z); [reflexivity|].
    unfold EOCD.size.
    destruct (fp_ z + size_ z <? p + 22) eqn:Hc; [reflexivity|lia].
  - rewrite Z.eqb_refl. reflexivity.
Qed.

Lemma contents_Format_Leanify z sl :
  contents (fst (Format_Leanify z sl)) = contents z.
Proof.
  unfold Format_Leanify, contents. cbn [fst memory fp_ size_].
  destruct (Z_lt_le_dec (size_ z) 0) as [Hn|Hp].
  - replace (Z.to_nat (size_ z)) with 0%nat by lia. reflexivity.
  - rewrite <- (Z2Nat.id (size_ z)) at 1 by exact Hp.
    apply read_bytes_memmove.
Qed.

(** C7.  A buffer with no end of central directory magic in its last
    65535 + 4 bytes, or whose last such magic starts a record that would
    run past the end of the buffer, is passed through: the returned length
    is the input length and the archive holds the same bytes. *)
Theorem Leanify_passthrough_without_eocd (E : Env) (z : Zip) (size_leanified : Z) :
  (forall p, ~ eocd_magic_at z p)
  \/ (exists p, eocd_magic_at z p /\ (forall q, eocd_magic_at z q -> q <= p)
                /\ fp_ z + size_ z < p + EOCD.size) ->
  Leanify E z size_leanified = Format_Leanify (enter z) size_leanified
  /\ snd (Leanify E z size_leanified) = size_ z
  /\ contents (fst (Leanify E z size_leanified)) = contents z.
Proof.
  intros H.
  assert (Hnone : locate_eocd (enter z) = None).
  { destruct H as [H | (p & Hp & Hlast & Hov)].
    - apply locate_eocd_not_found. exact H.
    - eapply locate_eocd_overlap; eauto. }
  unfold Leanify. rewrite Hnone. split; [reflexivity|]. split.
  - reflexivity.
  - apply (contents_Format_Leanify (enter z)).
Qed.

(* ------------------------------------------------------------------ *)
(** ** Reading back what was stored *)

Lemma read16_write16_other m p v q :
  q + 2 <= p \/ p + 2 <= q -> read16 (write16 m p v) q = read16 m q.
Proof. intros H. apply read16_agree. intros a Ha. apply write16_other. lia. Qed.

Lemma read16_write32_other m p v q :
  q + 2 <= p \/ p + 4 <= q -> read16 (write32 m p v) q = read16 m q.
Proof. intros H. apply read16_agree. intros a Ha. apply write32_other. lia. Qed.

Lemma read32_write16_other m p v q :
  q + 4 <= p \/ p + 2 <= q -> read32 (write16 m p v) q = read32 m q.
Proof. intros H. apply read32_agree. intros a Ha. apply write16_other. lia. Qed.

Lemma read32_write32_other m p v q :
  q + 4 <= p \/ p + 4 <= q -> read32 (write32 m p v) q = read32 m q.
Proof. intros H. apply read32_agree. intros a Ha. apply write32_other. lia. Qed.

Lemma read16_write_bytes_other m p l q :
  q + 2 <= p \/ p + Z.of_nat (length l) <= q ->
  read16 (write_bytes m p l) q = read16 m q.
Proof. intros H. apply read16_agree. intros a Ha. apply write_bytes_other. lia. Qed.

Lemma read32_write_bytes_other m p l q :
  q + 4 <= p \/ p + Z.of_nat (length l) <= q ->
  read32 (write_bytes m p l) q = read32 m q.
Proof. intros H. apply read32_agree. intros a Ha. apply write_bytes_other. lia. Qed.

Lemma read16_memmove_other m d s n q :
  q + 2 <= d \/ d + n <= q -> read16 (memmove m d s n) q = read16 m q.
Proof. intros H. apply read16_agree. intros a Ha. apply memmove_other. lia. Qed.

Lemma read32_memmove_other m d s n q :
  q + 4 <= d \/ d + n <= q -> read32 (memmove m d s n) q = read32 m q.
Proof. intros H. apply read32_agree. intros a Ha. apply memmove_other. lia. Qed.

Lemma read16_memmove_inside m d s n q :
  d <= q -> q + 2 <= d + n -> read16 (memmove m d s n) q = read16 m (q - d + s).
Proof.
  intros H1 H2. unfold read16, read8. rewrite !memmove_inside by lia.
  replace (q + 1 - d + s) with (q - d + s + 1) by lia. reflexivity.
Qed.

Lemma read32_memmove_inside m d s n q :
  d <= q -> q + 4 <= d + n -> read32 (memmove m d s n) q = read32 m (q - d + s).
Proof.
  intros H1 H2. unfold read32. rewrite !read16_memmove_inside by lia.
  replace (q + 2 - d + s) with (q - d + s + 2) by lia. reflexivity.
Qed.

Lemma read_bytes_memmove_inside m d s n q k :
  d <= q -> q + Z.of_nat k <= d + n ->
  read_bytes (memmove m d s n) q k = read_bytes m (q - d + s) k.
Proof.
  intros H1 H2. unfold read_bytes. apply map_ext_in. intros i Hi.
  apply in_seq in Hi. rewrite memmove_inside by lia. f_equal. lia.
Qed.

(** The rewriting steps that read a field back through later stores. *)
Ltac mem_simpl :=
  repeat first
    [ rewrite read16_write16
    | rewrite read32_write32
    | rewrite read16_write16_other by lia
    | rewrite read16_write32_other by lia
    | rewrite read32_write16_other by lia
    | rewrite read32_write32_other by lia
    | rewrite read16_memmove_other by lia
    | rewrite read32_memmove_other by lia
    | rewrite read16_write_bytes_other by lia
    | rewrite read32_write_bytes_other by lia ].

Lemma u16_small z : 0 <= z < 65536 -> u16 z = z.
Proof. intros H. unfold u16. apply Z.mod_small. exact H. Qed.

Lemma u32_small z : 0 <= z < 4294967296 -> u32 z = z.
Proof. intros H. unfold u32. apply Z.mod_small. exact H. Qed.

Lemma u16_range z : 0 <= u16 z < 65536.
Proof. unfold u16. apply Z.mod_pos_bound. lia. Qed.

Lemma u32_range z : 0 <= u32 z < 4294967296.
Proof. unfold u32. apply Z.mod_pos_bound. lia. Qed.

(** Bit 3, the "data descriptor follows" flag. *)
Lemma land_8_testbit f : (Z.land f 8 =? 0) = negb (Z.testbit f 3).
Proof.
  destruct (Z.testbit f 3) eqn:Hb; cbn [negb].
  - apply Z.eqb_neq. intros H.
    assert (Ht : Z.testbit (Z.land f 8) 3 = false) by (rewrite H; apply Z.bits_0).
    rewrite Z.land_spec, Hb in Ht. discriminate.
  - apply Z.eqb_eq. apply Z.bits_inj'. intros n Hn.
    rewrite Z.land_spec, Z.bits_0.
    destruct (Z.eq_dec n 3) as [->|Hne].
    + rewrite Hb. reflexivity.
    + change 8 with (2 ^ 3). rewrite Z.pow2_bits_eqb by lia.
      replace (3 =? n) with false by (symmetry; apply Z.eqb_neq; lia).
      apply andb_false_r.
Qed.

Lemma clear_bit3 f : Z.testbit (Z.land f (Z.lnot 8)) 3 = false.
Proof.
  rewrite Z.land_spec, Z.lnot_spec by lia.
  change (Z.testbit 8 3) with true. apply andb_false_r.
Qed.

Lemma clear_bit3_range f : 0 <= f < 65536 -> 0 <= Z.land f (Z.lnot 8) < 65536.
Proof.
  intros H.
  assert (Hf : f = Z.land f (Z.ones 16)).
  { rewrite Z.land_ones by lia. symmetry. apply Z.mod_small. exact H. }
  rewrite Hf, <- Z.land_assoc, (Z.land_comm (Z.ones 16)), Z.land_assoc.
  rewrite Z.land_ones by lia. apply Z.mod_pos_bound. reflexivity.
Qed.

Lemma clear_bit3_id f : Z.testbit f 3 = false -> Z.land f (Z.lnot 8) = f.
Proof.
  intros Hb. apply Z.bits_inj'. intros n Hn.
  rewrite Z.land_spec, Z.lnot_spec by lia.
  destruct (Z.eq_dec n 3) as [->|Hne].
  - rewrite Hb. reflexivity.
  - change 8 with (2 ^ 3). rewrite Z.pow2_bits_eqb by lia.
    replace (3 =? n) with false by (symmetry; apply Z.eqb_neq; lia).
    cbn [negb]. apply andb_true_r.
Qed.

(* ------------------------------------------------------------------ *)
(** ** The header part of one iteration *)

Section HeaderFacts.

Variables (p_end fp_base fp_w_base : Z).

(** [move_header] with every value it reads expressed on the memory the
    iteration starts from. *)
Lemma move_header_unfold m p_write h :
  move_header p_end fp_base fp_w_base m p_write h
  = let p_read := fp_base + CDHeader.local_header_offset h in
    let fl := LocalHeader.filename_len m p_read in
    let extra := LocalHeader.extra_field_len m p_read in
    let flag := LocalHeader.flag m p_read in
    let csize := if Z.testbit flag 3 then CDHeader.compressed_size h
                 else LocalHeader.compressed_size m p_read in
    let h1 := CDHeader.set_local_header_offset h (u32 (p_write - fp_w_base)) in
    if (p_end <? p_read + 30) || negb (memcmp_eq m p_read header_magic)
    then HSkip
    else if p_end <? p_read + 30 + fl then HEof h1
    else
      let moved :=
        strip_extra_field (memmove m p_write p_read (30 + fl)) p_write in
      let m1 := if Z.testbit flag 3 then use_directory_values moved p_write h1
                else moved in
      if p_end <? p_read + extra + csize then HTooLarge m1 h1
      else HReady m1 h1 (p_read + extra + 30 + fl) (p_write + 30 + fl)
                  csize flag (read_bytes m (p_read + 30) (Z.to_nat fl)).
Proof.
  unfold move_header, LocalHeader.filename_len, LocalHeader.extra_field_len,
    LocalHeader.flag, LocalHeader.compressed_size. cbv zeta.
  set (p_read := fp_base + CDHeader.local_header_offset h).
  set (fl := read16 m (p_read + 26)).
  pose proof (read16_range m (p_read + 26)) as Hfl. fold fl in Hfl.
  destruct ((p_end <? p_read + 30) || negb (memcmp_eq m p_read header_magic));
    [reflexivity|].
  replace (p_read + 30 + fl) with (p_read + (30 + fl)) by lia.
  replace (p_read + read16 m (p_read + 28) + 30 + fl)
    with (p_read + read16 m (p_read + 28) + (30 + fl)) by lia.
  replace (p_write + 30 + fl) with (p_write + (30 + fl)) by lia.
  remember (30 + fl) as hs eqn:Ehs.
  destruct (p_end <? p_read + hs) eqn:Hhs; [reflexivity|].
  set (mv := memmove m p_write p_read hs).
  assert (Hextra : read16 mv (p_write + 28) = read16 m (p_read + 28)).
  { unfold mv. rewrite read16_memmove_inside by lia. f_equal. lia. }
  set (st := strip_extra_field mv p_write).
  assert (Hflag : read16 st (p_write + 6) = read16 m (p_read + 6)).
  { unfold st, strip_extra_field.
    destruct (read16 mv (p_write + 28) =? 0); mem_simpl;
      unfold mv; rewrite read16_memmove_inside by lia; f_equal; lia. }
  assert (Hcs : read32 st (p_write + 18) = read32 m (p_read + 18)).
  { unfold st, strip_extra_field.
    destruct (read16 mv (p_write + 28) =? 0); mem_simpl;
      unfold mv; rewrite read32_memmove_inside by lia; f_equal; lia. }
  assert (Hname : read_bytes st (p_write + 30) (Z.to_nat fl)
                  = read_bytes m (p_read + 30) (Z.to_nat fl)).
  { transitivity (read_bytes mv (p_write + 30) (Z.to_nat fl)).
    - apply read_bytes_agree. intros a Ha. unfold st, strip_extra_field.
      destruct (read16 mv (p_write + 28) =? 0); [reflexivity|].
      apply write16_other. lia.
    - unfold mv. rewrite read_bytes_memmove_inside by lia. f_equal. lia. }
  rewrite Hextra, Hflag, Hcs, Hname, land_8_testbit, negb_involutive.
  set (extra := read16 m (p_read + 28)).
  assert (Hpr : (if extra =? 0 then p_read else p_read + extra) = p_read + extra).
  { destruct (extra =? 0) eqn:He; [apply Z.eqb_eq in He; lia | reflexivity]. }
  rewrite Hpr.
  destruct (Z.testbit (read16 m (p_read + 6)) 3) eqn:Hb3; reflexivity.
Qed.

(** What a header that got through lines 133-191 looked like, and where
    the cursors are. *)
Lemma move_header_ready m p_write h m1 h1 p_read' p_write' ocs flag fname :
  move_header p_end fp_base fp_w_base m p_write h
  = HReady m1 h1 p_read' p_write' ocs flag fname ->
  let p_read := fp_base + CDHeader.local_header_offset h in
  let fl := LocalHeader.filename_len m p_read in
  let extra := LocalHeader.extra_field_len m p_read in
  p_read + 30 + fl <= p_end
  /\ memcmp_eq m p_read header_magic = true
  /\ h1 = CDHeader.set_local_header_offset h (u32 (p_write - fp_w_base))
  /\ flag = LocalHeader.flag m p_read
  /\ fname = read_bytes m (p_read + 30) (Z.to_nat fl)
  /\ p_write' = p_write + 30 + fl
  /\ p_read' = p_read + extra + 30 + fl
  /\ ocs = (if Z.testbit flag 3 then CDHeader.compressed_size h
            else LocalHeader.compressed_size m p_read)
  /\ p_read + extra + ocs <= p_end
  /\ m1 = (let moved :=
             strip_extra_field (memmove m p_write p_read (30 + fl)) p_write in
           if Z.testbit flag 3 then use_directory_values moved p_write h1
           else moved).
Proof.
  rewrite move_header_unfold. cbv zeta.
  set (p_read := fp_base + CDHeader.local_header_offset h).
  set (fl := LocalHeader.filename_len m p_read).
  set (extra := LocalHeader.extra_field_len m p_read).
  destruct ((p_end <? p_read + 30) || negb (memcmp_eq m p_read header_magic))
    eqn:H1; [discriminate|].
  apply orb_false_iff in H1 as [_ Hmag]. apply negb_false_iff in Hmag.
  destruct (p_end <? p_read + 30 + fl) eqn:H2; [discriminate|].
  match goal with
  | |- (if ?c then _ else _) = _ -> _ => destruct c eqn:H3; [discriminate|]
  end.
  apply Z.ltb_ge in H2, H3.
  intros [= <- <- <- <- <- <- <-].
  repeat split; try reflexivity; try assumption.
Qed.

(** The moved header: the bytes around it are untouched, the file name is
    the one of the local header, bit 3 is clear, the extra field length is
    0, and crc and sizes are the directory's when bit 3 was set. *)
Lemma move_header_memory m p_write h m1 h1 p_read' p_write' ocs flag fname :
  move_header p_end fp_base fp_w_base m p_write h
  = HReady m1 h1 p_read' p_write' ocs flag fname ->
  let p_read := fp_base + CDHeader.local_header_offset h in
  (forall a, a < p_write \/ p_write' <= a -> m1 a = m a)
  /\ (forall a, p_write + 30 <= a < p_write' -> m1 a = m (a - p_write + p_read))
  /\ LocalHeader.flag m1 p_write = Z.land flag (Z.lnot 8)
  /\ LocalHeader.compression_method m1 p_write
     = LocalHeader.compression_method m p_read
  /\ LocalHeader.crc32 m1 p_write
     = (if Z.testbit flag 3 then u32 (CDHeader.crc32 h)
        else LocalHeader.crc32 m p_read)
  /\ LocalHeader.compressed_size m1 p_write
     = (if Z.testbit flag 3 then u32 (CDHeader.compressed_size h)
        else LocalHeader.compressed_size m p_read)
  /\ LocalHeader.uncompressed_size m1 p_write
     = (if Z.testbit flag 3 then u32 (CDHeader.uncompressed_size h)
        else LocalHeader.uncompressed_size m p_read)
  /\ LocalHeader.filename_len m1 p_write = LocalHeader.filename_len m p_read
  /\ LocalHeader.extra_field_len m1 p_write = 0.
Proof.
  intros Hready.
  destruct (move_header_ready _ _ _ _ _ _ _ _ _ _ Hready)
    as (Hhs & _ & Hh1 & Hflag & _ & Hpw & _ & _ & _ & Hm1).
  cbv zeta in *.
  set (p_read := fp_base + CDHeader.local_header_offset h) in *.
  unfold LocalHeader.filename_len, LocalHeader.flag in *.
  set (fl := read16 m (p_read + 26)) in *.
  pose proof (read16_range m (p_read + 26)) as Hfl. fold fl in Hfl.
  pose proof (read16_range m (p_read + 6)) as Hfr.
  set (mv := memmove m p_write p_read (30 + fl)) in *.
  assert (Hmv16 : forall k, 0 <= k -> k + 2 <= 30 ->
            read16 mv (p_write + k) = read16 m (p_read + k)).
  { intros k Hk1 Hk2. unfold mv. rewrite read16_memmove_inside by lia.
    f_equal. lia. }
  assert (Hmv32 : forall k, 0 <= k -> k + 4 <= 30 ->
            read32 mv (p_write + k) = read32 m (p_read + k)).
  { intros k Hk1 Hk2. unfold mv. rewrite read32_memmove_inside by lia.
    f_equal. lia. }
  set (st := strip_extra_field mv p_write) in *.
  assert (Hst : forall a, a < p_write + 28 \/ p_write + 30 <= a -> st a = mv a).
  { intros a Ha. unfold st, strip_extra_field.
    destruct (read16 mv (p_write + 28) =? 0); [reflexivity|].
    apply write16_other. lia. }
  assert (Hst16 : forall k, 0 <= k -> k + 2 <= 28 ->
            read16 st (p_write + k) = read16 m (p_read + k)).
  { intros k Hk1 Hk2. rewrite <- Hmv16 by lia. apply read16_agree.
    intros a Ha. apply Hst. lia. }
  assert (Hst32 : forall k, 0 <= k -> k + 4 <= 28 ->
            read32 st (p_write + k) = read32 m (p_read + k)).
  { intros k Hk1 Hk2. rewrite <- Hmv32 by lia. apply read32_agree.
    intros a Ha. apply Hst. lia. }
  assert (Hstx : read16 st (p_write + 28) = 0).
  { unfold st, strip_extra_field.
    destruct (read16 mv (p_write + 28) =? 0) eqn:He.
    - apply Z.eqb_eq. exact He.
    - rewrite read16_write16. reflexivity. }
  unfold LocalHeader.compression_method, LocalHeader.crc32,
    LocalHeader.compressed_size, LocalHeader.uncompressed_size,
    LocalHeader.extra_field_len.
  subst p_write'.
  destruct (Z.testbit flag 3) eqn:Hb3; subst m1.
  - unfold use_directory_values.
    assert (Hout : forall a, a < p_write \/ p_write + 30 <= a ->
              write32 (write32 (write32 (write16 st (p_write + 6)
                (Z.land (read16 st (p_write + 6)) (Z.lnot 8)))
                (p_write + 14) (CDHeader.crc32 h1))
                (p_write + 18) (CDHeader.compressed_size h1))
                (p_write + 22) (CDHeader.uncompressed_size h1) a = st a).
    { intros a Ha. rewrite !write32_other, write16_other by lia. reflexivity. }
    split; [|split].
    + intros a Ha. rewrite Hout, Hst by lia. unfold mv.
      apply memmove_other. lia.
    + intros a Ha. rewrite Hout, Hst by lia. unfold mv.
      apply memmove_inside. lia.
    + mem_simpl. rewrite (Hst16 6), (Hst16 8), (Hst16 26) by lia.
      rewrite Hstx, Hh1. cbn [CDHeader.crc32 CDHeader.compressed_size
        CDHeader.uncompressed_size CDHeader.set_local_header_offset].
      rewrite <- Hflag. rewrite u16_small by (apply clear_bit3_range; lia).
      repeat split; reflexivity.
  - split; [|split].
    + intros a Ha.
      destruct (Z_lt_le_dec a p_write).
      * rewrite Hst by lia. unfold mv. apply memmove_other. lia.
      * rewrite Hst by lia. unfold mv. apply memmove_other. lia.
    + intros a Ha. rewrite Hst by lia. unfold mv. apply memmove_inside. lia.
    + rewrite (Hst16 6), (Hst16 8), (Hst16 26), (Hst32 14), (Hst32 18),
        (Hst32 22) by lia.
      rewrite Hstx, <- Hflag. rewrite clear_bit3_id by exact Hb3.
      repeat split; reflexivity.
Qed.

(** A header with the magic, inside the buffer, whose payload the check of
    line 185 lets through, gets through the header part. *)
Lemma move_header_ready_intro m p_write h :
  let p_read := fp_base + CDHeader.local_header_offset h in
  let fl := LocalHeader.filename_len m p_read in
  let extra := LocalHeader.extra_field_len m p_read in
  let flag := LocalHeader.flag m p_read in
  let csize := if Z.testbit flag 3 then CDHeader.compressed_size h
               else LocalHeader.compressed_size m p_read in
  memcmp_eq m p_read header_magic = true ->
  p_read + 30 + fl <= p_end ->
  p_read + extra + csize <= p_end ->
  exists m1,
    move_header p_end fp_base fp_w_base m p_write h
    = HReady m1 (CDHeader.set_local_header_offset h (u32 (p_write - fp_w_base)))
             (p_read + extra + 30 + fl) (p_write + 30 + fl) csize flag
             (read_bytes m (p_read + 30) (Z.to_nat fl)).
Proof.
  cbv zeta. intros Hmag Hhs Hcs. rewrite move_header_unfold. cbv zeta.
  rewrite Hmag. cbn [negb]. rewrite orb_false_r.
  pose proof (read16_range m (fp_base + CDHeader.local_header_offset h + 26)) as Hfl.
  unfold LocalHeader.filename_len in *.
  replace (p_end <? _ + 30) with false by (symmetry; apply Z.ltb_ge; lia).
  replace (p_end <? _ + 30 + _) with false by (symmetry; apply Z.ltb_ge; lia).
  replace (p_end <? _) with false by (symmetry; apply Z.ltb_ge; lia).
  eexists. reflexivity.
Qed.

End HeaderFacts.

(* ------------------------------------------------------------------ *)
(** ** The payload part of one iteration *)

Section PayloadFacts.

Variable E : Env.
Variable depth' : Z.

(** Lines 204-208: the payload is moved as it is. *)
Lemma keep_or_minify_moves m h hdr p_read p_write ocs flag fname :
  hdr + 22 <= p_write ->
  LocalHeader.compression_method m hdr <> 0 \/ max_depth E < depth'
    \/ Z.land flag 1 <> 0 ->
  keep_or_minify E depth' m h hdr p_read p_write ocs flag fname
  = (memmove m p_write p_read ocs,
     p_write + LocalHeader.compressed_size m hdr, h).
Proof.
  intros Hhdr Hc. unfold keep_or_minify, LocalHeader.compression_method,
    LocalHeader.compressed_size in *.
  assert (Hcond : (read16 m (hdr + 8) =? 0) && (depth' <=? max_depth E)
                  && (Z.land flag 1 =? 0) = false).
  { destruct Hc as [Hc | [Hc | Hc]].
    - apply Z.eqb_neq in Hc. rewrite Hc. reflexivity.
    - apply Z.leb_gt in Hc. rewrite Hc. apply andb_false_iff. left.
      apply andb_false_r.
    - apply Z.eqb_neq in Hc. rewrite Hc. apply andb_false_r. }
  rewrite Hcond. mem_simpl. reflexivity.
Qed.

(** Lines 198-203, a stored file of nonzero size: it is minified in place
    and crc and sizes follow. *)
Lemma keep_or_minify_minifies m h hdr p_read p_write ocs flag fname :
  hdr + 26 <= p_write ->
  LocalHeader.compression_method m hdr = 0 -> depth' <= max_depth E ->
  Z.land flag 1 = 0 -> ocs <> 0 ->
  let res := LeanifyFile E
               (read_bytes m p_write (Z.to_nat (p_read - p_write + ocs)))
               ocs (p_read - p_write) fname in
  let new_size := u32 (snd res) in
  let placed := write_bytes m p_write (fst res) in
  let c := u32 (mz_crc32 E (read_bytes placed p_write (Z.to_nat new_size))) in
  exists m2,
    keep_or_minify E depth' m h hdr p_read p_write ocs flag fname
    = (m2, p_write + new_size,
       CDHeader.set_crc32
         (CDHeader.set_compressed_size
            (CDHeader.set_uncompressed_size h new_size) new_size) c)
    /\ (forall a, a < hdr + 14 \/ hdr + 26 <= a -> m2 a = placed a)
    /\ LocalHeader.crc32 m2 hdr = c
    /\ LocalHeader.compressed_size m2 hdr = new_size
    /\ LocalHeader.uncompressed_size m2 hdr = new_size.
Proof.
  intros Hhdr Hm Hd He Ho. cbv zeta.
  unfold keep_or_minify, LocalHeader.compression_method, LocalHeader.crc32,
    LocalHeader.compressed_size, LocalHeader.uncompressed_size in *.
  rewrite Hm, He. apply Z.leb_le in Hd. rewrite Hd. cbn [Z.eqb andb].
  apply Z.eqb_neq in Ho. rewrite Ho. cbn [negb].
  destruct (LeanifyFile E _ ocs (p_read - p_write) fname) as [region r].
  cbn [fst snd].
  set (placed := write_bytes m p_write region).
  set (new_size := u32 r).
  pose proof (u32_range r) as Hr. fold new_size in Hr.
  assert (Hrd : read_bytes
                  (write32 (write32 placed (hdr + 22) new_size) (hdr + 18) new_size)
                  p_write (Z.to_nat new_size)
                = read_bytes placed p_write (Z.to_nat new_size)).
  { apply read_bytes_agree. intros a Ha.
    rewrite !write32_other by lia. reflexivity. }
  rewrite Hrd.
  eexists. split; [|split; [|split; [|split]]].
  - f_equal. f_equal. mem_simpl. rewrite u32_small by exact Hr. reflexivity.
  - intros a Ha. rewrite !write32_other by lia. reflexivity.
  - mem_simpl. apply u32_small, u32_range.
  - mem_simpl. apply u32_small. exact Hr.
  - mem_simpl. apply u32_small. exact Hr.
Qed.

(** Lines 198-203, a stored file of size 0: nothing to do. *)
Lemma keep_or_minify_empty m h hdr p_read p_write flag fname :
  LocalHeader.compression_method m hdr = 0 -> depth' <= max_depth E ->
  Z.land flag 1 = 0 ->
  keep_or_minify E depth' m h hdr p_read p_write 0 flag fname
  = (m, p_write + LocalHeader.compressed_size m hdr, h).
Proof.
  intros Hm Hd He.
  unfold keep_or_minify, LocalHeader.compression_method,
    LocalHeader.compressed_size in *.
  rewrite Hm, He. apply Z.leb_le in Hd. rewrite Hd. reflexivity.
Qed.

(** Lines 214-218: a deflate entry of uncompressed size 0 becomes a stored
    entry of size 0. *)
Lemma recompress_empty m h hdr p_read p_write ocs fname :
  LocalHeader.uncompressed_size m hdr = 0 ->
  recompress E m h hdr p_read p_write ocs fname
  = (write32 (write16 m (hdr + 8) 0) (hdr + 18) 0, p_write,
     CDHeader.set_compressed_size (CDHeader.set_compression_method h 0) 0).
Proof.
  intros Hu. unfold recompress, LocalHeader.uncompressed_size in *.
  rewrite Hu. reflexivity.
Qed.

(** Lines 224-230: whatever fails the check of line 224 is moved as it
    is. *)
Lemma recompress_failed m h hdr p_read p_write ocs fname :
  LocalHeader.uncompressed_size m hdr <> 0 ->
  (forall buffer, ~ moved_inflates_to E m hdr p_read ocs buffer) ->
  recompress E m h hdr p_read p_write ocs fname
  = (memmove m p_write p_read ocs, p_write + ocs, h).
Proof.
  intros Hu Hfail.
  unfold recompress, moved_inflates_to, LocalHeader.uncompressed_size,
    LocalHeader.crc32 in *.
  apply Z.eqb_neq in Hu. rewrite Hu.
  destruct (tinfl_decompress_mem_to_heap E _) as [buffer|] eqn:Hinf;
    [|reflexivity].
  destruct (Z.of_nat (length buffer) =? read32 m (hdr + 22)) eqn:Hlen;
    cbn [negb orb]; [|reflexivity].
  apply Z.eqb_eq in Hlen.
  destruct (read32 m (hdr + 14) =? _) eqn:Hcrc; cbn [negb]; [|reflexivity].
  exfalso. apply (Hfail buffer). split; [reflexivity|]. split; [exact Hlen|].
  apply Z.eqb_eq in Hcrc. rewrite Hcrc. f_equal.
  rewrite <- Hlen, Nat2Z.id. apply firstn_all.
Qed.


End PayloadFacts.

(* ------------------------------------------------------------------ *)
(** ** One iteration, seen from the memory it starts from *)

Section EntryFacts.

Variable E : Env.
Variables (depth' p_end fp_base fp_w_base : Z).

Lemma process_entry_ready m p_write h m1 h1 p_read' p_write' ocs flag fname :
  move_header p_end fp_base fp_w_base m p_write h
  = HReady m1 h1 p_read' p_write' ocs flag fname ->
  process_entry E depth' p_end fp_base fp_w_base m p_write h
  = (let '(m2, p2, h2) :=
       process_payload E depth' m1 h1 p_write p_read' p_write' ocs flag fname in
     (m2, p2, h2, Next)).
Proof. intros H. unfold process_entry. rewrite H. reflexivity. Qed.

(** The header of a compactable entry after lines 133-191. *)
Lemma compactable_ready m p_write h :
  let p := fp_base + CDHeader.local_header_offset h in
  let hdr_end := p_write + 30 + LocalHeader.filename_len m p in
  Entry.compactable m p_end p h ->
  exists m1,
    move_header p_end fp_base fp_w_base m p_write h
    = HReady m1 (CDHeader.set_local_header_offset h (u32 (p_write - fp_w_base)))
             (Entry.payload m p) hdr_end (Entry.compressed_size m p h)
             (LocalHeader.flag m p) (Entry.filename m p)
    /\ (forall a, a < p_write \/ hdr_end <= a -> m1 a = m a)
    /\ (forall a, p_write + 30 <= a < hdr_end -> m1 a = m (a - p_write + p))
    /\ LocalHeader.flag m1 p_write = Z.land (LocalHeader.flag m p) (Z.lnot 8)
    /\ LocalHeader.compression_method m1 p_write
       = LocalHeader.compression_method m p
    /\ LocalHeader.crc32 m1 p_write = u32 (Entry.crc32 m p h)
    /\ LocalHeader.compressed_size m1 p_write = u32 (Entry.compressed_size m p h)
    /\ LocalHeader.uncompressed_size m1 p_write
       = u32 (Entry.uncompressed_size m p h)
    /\ LocalHeader.filename_len m1 p_write = LocalHeader.filename_len m p
    /\ LocalHeader.extra_field_len m1 p_write = 0.
Proof.
  cbv zeta. intros (Hmag & Hhs & Hcs).
  destruct (move_header_ready_intro p_end fp_base fp_w_base m p_write h
              Hmag Hhs Hcs) as (m1 & Hmh).
  exists m1. split.
  - rewrite Hmh. unfold Entry.payload, Entry.compressed_size, Entry.filename.
    f_equal. lia.
  - destruct (move_header_memory _ _ _ _ _ _ _ _ _ _ _ _ _ Hmh)
      as (F1 & F2 & F3 & F4 & F5 & F6 & F7 & F8 & F9).
    unfold Entry.crc32, Entry.compressed_size, Entry.uncompressed_size.
    repeat split; try assumption.
    + rewrite F5. destruct (Z.testbit _ 3); [reflexivity|].
      symmetry. apply u32_small, read32_range.
    + rewrite F6. destruct (Z.testbit _ 3); [reflexivity|].
      symmetry. apply u32_small, read32_range.
    + rewrite F7. destruct (Z.testbit _ 3); [reflexivity|].
      symmetry. apply u32_small, read32_range.
Qed.

End EntryFacts.

(* ------------------------------------------------------------------ *)
(** ** Fast mode *)

Lemma entry_sizes_wf m p h :
  CDHeader.wf h ->
  u32 (Entry.crc32 m p h) = Entry.crc32 m p h
  /\ u32 (Entry.compressed_size m p h) = Entry.compressed_size m p h
  /\ u32 (Entry.uncompressed_size m p h) = Entry.uncompressed_size m p h
  /\ 0 <= Entry.compressed_size m p h < 4294967296.
Proof.
  intros (_ & _ & Hc & Hcs & Hus & _).
  unfold Entry.crc32, Entry.compressed_size, Entry.uncompressed_size,
    LocalHeader.crc32, LocalHeader.compressed_size,
    LocalHeader.uncompressed_size.
  pose proof (read32_range m (p + 14)). pose proof (read32_range m (p + 18)).
  pose proof (read32_range m (p + 22)).
  destruct (Z.testbit _ 3); repeat split; try apply u32_small; lia.
Qed.

(** C8.  In fast mode no entry meets the inflater or the deflater.  A
    deflate entry has its compressed payload moved to the write cursor as it
    is, header and directory values untouched.  A stored entry that is not
    encrypted, of nonzero size and within the depth limit is handed to the
    recursive minifier in place, and crc32 and both sizes, in the header and
    in the directory, are those of the minified file.  Both halves are for
    a write cursor that is not ahead of the entry, [p_write <= p], as the
    compaction of entries in order keeps it ([compact_bound]): only there
    is the payload still where the entry has it when it is moved, and only
    there does the region handed to [LeanifyFile] stand for line 200. *)
Theorem fast_mode_entry (E : Env) (depth' p_end fp_base fp_w_base : Z)
    (m : mem) (p_write : Z) (h : CDHeader.t) :
  let p := fp_base + CDHeader.local_header_offset h in
  let hdr_end := p_write + 30 + LocalHeader.filename_len m p in
  let csize := Entry.compressed_size m p h in
  is_fast E = true ->
  CDHeader.wf h ->
  Entry.compactable m p_end p h ->
  (forall inflate deflate,
     process_entry
       (mkEnv (max_depth E) true (mz_crc32 E) inflate deflate (LeanifyFile E))
       depth' p_end fp_base fp_w_base m p_write h
     = process_entry E depth' p_end fp_base fp_w_base m p_write h)
  /\ let '(m2, p_write2, h2, next) :=
       process_entry E depth' p_end fp_base fp_w_base m p_write h in
     (LocalHeader.compression_method m p = 8 -> p_write <= p ->
        next = Next
        /\ read_bytes m2 hdr_end (Z.to_nat csize) = Entry.payload_bytes m p h
        /\ p_write2 = hdr_end + csize
        /\ LocalHeader.compression_method m2 p_write = 8
        /\ LocalHeader.crc32 m2 p_write = Entry.crc32 m p h
        /\ LocalHeader.compressed_size m2 p_write = csize
        /\ LocalHeader.uncompressed_size m2 p_write
           = Entry.uncompressed_size m p h
        /\ h2 = CDHeader.set_local_header_offset h (u32 (p_write - fp_w_base)))
     /\ (LocalHeader.compression_method m p = 0 -> p_write <= p ->
         Z.land (LocalHeader.flag m p) 1 = 0 -> csize <> 0 ->
         depth' <= max_depth E ->
         let res :=
           LeanifyFile E
             (read_bytes m hdr_end (Z.to_nat (Entry.payload m p - hdr_end + csize)))
             csize (Entry.payload m p - hdr_end) (Entry.filename m p) in
         let new_size := u32 (snd res) in
         next = Next
         /\ (forall a, hdr_end <= a ->
               m2 a = write_bytes m hdr_end (fst res) a)
         /\ p_write2 = hdr_end + new_size
         /\ LocalHeader.compression_method m2 p_write = 0
         /\ LocalHeader.compressed_size m2 p_write = new_size
         /\ LocalHeader.uncompressed_size m2 p_write = new_size
         /\ LocalHeader.crc32 m2 p_write
            = u32 (mz_crc32 E (read_bytes m2 hdr_end (Z.to_nat new_size)))
         /\ CDHeader.compressed_size h2 = new_size
         /\ CDHeader.uncompressed_size h2 = new_size
         /\ CDHeader.crc32 h2 = LocalHeader.crc32 m2 p_write).
Proof.
  cbv zeta. intros Hfast Hwf Hok.
  destruct (compactable_ready p_end fp_base fp_w_base m p_write h Hok)
    as (m1 & Hmh & F1 & F2 & F3 & F4 & F5 & F6 & F7 & F8 & F9).
  destruct (entry_sizes_wf m (fp_base + CDHeader.local_header_offset h) h Hwf)
    as (W1 & W2 & W3 & W4).
  rewrite W1 in F5. rewrite W2 in F6. rewrite W3 in F7.
  set (p := fp_base + CDHeader.local_header_offset h) in *.
  pose proof (read16_range m (p + 26)) as Hfl.
  unfold LocalHeader.filename_len in *.
  set (hdr_end := p_write + 30 + read16 m (p + 26)) in *.
  assert (Hhe : hdr_end = p_write + 30 + read16 m (p + 26)) by reflexivity.
  assert (Hpay : process_payload E depth' m1
                   (CDHeader.set_local_header_offset h (u32 (p_write - fp_w_base)))
                   p_write (Entry.payload m p) hdr_end
                   (Entry.compressed_size m p h) (LocalHeader.flag m p)
                   (Entry.filename m p)
                 = keep_or_minify E depth' m1
                   (CDHeader.set_local_header_offset h (u32 (p_write - fp_w_base)))
                   p_write (Entry.payload m p) hdr_end
                   (Entry.compressed_size m p h) (LocalHeader.flag m p)
                   (Entry.filename m p)).
  { unfold process_payload. rewrite Hfast, orb_true_r. reflexivity. }
  split.
  - intros inflate deflate.
    rewrite !(process_entry_ready _ _ _ _ _ _ _ _ _ _ _ _ _ _ _ Hmh).
    rewrite Hpay. unfold process_payload. cbn [is_fast].
    rewrite orb_true_r. reflexivity.
  - rewrite (process_entry_ready _ _ _ _ _ _ _ _ _ _ _ _ _ _ _ Hmh), Hpay.
    destruct (keep_or_minify _ _ _ _ _ _ _ _ _ _) as [[m2 p2] h2] eqn:Hk.
    split.
    + intros Hmeth Hcur.
      assert (Hh22 : p_write + 22 <= hdr_end) by lia.
      assert (Hnz : LocalHeader.compression_method m1 p_write <> 0)
        by (rewrite F4, Hmeth; discriminate).
      rewrite (keep_or_minify_moves E depth' m1 _ p_write _ hdr_end _ _ _
                 Hh22 (or_introl Hnz)) in Hk.
      injection Hk as <- <- <-. rewrite F6.
      split; [reflexivity|]. split.
      { unfold Entry.payload_bytes.
        rewrite <- (Z2Nat.id (Entry.compressed_size m p h)) at 1 by lia.
        rewrite read_bytes_memmove. apply read_bytes_agree.
        intros a Ha. apply F1. unfold Entry.payload in *.
        pose proof (read16_range m (p + 28)). unfold LocalHeader.filename_len,
          LocalHeader.extra_field_len in *. lia. }
      split; [reflexivity|].
      unfold LocalHeader.compression_method, LocalHeader.crc32,
        LocalHeader.compressed_size, LocalHeader.uncompressed_size in *.
      mem_simpl. rewrite F4, F5, F6, F7, Hmeth. repeat split; reflexivity.
    + intros Hmeth Hcur Henc Hnz Hdepth.
      assert (Hh26 : p_write + 26 <= hdr_end) by lia.
      assert (Hm0 : LocalHeader.compression_method m1 p_write = 0)
        by (rewrite F4; exact Hmeth).
      destruct (keep_or_minify_minifies E depth' m1
                  (CDHeader.set_local_header_offset h (u32 (p_write - fp_w_base)))
                  p_write (Entry.payload m p) hdr_end
                  (Entry.compressed_size m p h) (LocalHeader.flag m p)
                  (Entry.filename m p) Hh26 Hm0 Hdepth Henc Hnz)
        as (m2' & Hk' & G1 & G2 & G3 & G4).
      rewrite Hk in Hk'. injection Hk' as <- -> ->.
      assert (Hreg : read_bytes m1 hdr_end
                       (Z.to_nat (Entry.payload m p - hdr_end
                                  + Entry.compressed_size m p h))
                     = read_bytes m hdr_end
                       (Z.to_nat (Entry.payload m p - hdr_end
                                  + Entry.compressed_size m p h))).
      { apply read_bytes_agree. intros a Ha. apply F1. lia. }
      rewrite Hreg in *.
      set (res := LeanifyFile E _ _ _ _) in *.
      assert (Hm2 : forall a, hdr_end <= a ->
                      m2 a = write_bytes m hdr_end (fst res) a).
      { intros a Ha. rewrite G1 by lia. unfold write_bytes.
        destruct ((hdr_end <=? a) && _); [reflexivity|]. apply F1. lia. }
      split; [reflexivity|]. split; [exact Hm2|]. split; [reflexivity|].
      split.
      { unfold LocalHeader.compression_method in *. rewrite <- Hmeth, <- F4.
        apply read16_agree. intros a Ha. rewrite G1 by lia.
        apply write_bytes_other. lia. }
      split; [exact G3|]. split; [exact G4|].
      assert (Hc : LocalHeader.crc32 m2 p_write
                   = u32 (mz_crc32 E (read_bytes m2 hdr_end
                                        (Z.to_nat (u32 (snd res)))))).
      { rewrite G2. do 2 f_equal. symmetry. apply read_bytes_agree.
        intros a Ha. rewrite G1 by lia. reflexivity. }
      split; [exact Hc|].
      cbn [CDHeader.compressed_size CDHeader.uncompressed_size CDHeader.crc32
           CDHeader.set_crc32 CDHeader.set_compressed_size
           CDHeader.set_uncompressed_size].
      repeat split; try reflexivity. rewrite <- G2. reflexivity.
Qed.

(* ------------------------------------------------------------------ *)
(** ** Deflate entries *)

Section DeflateEntries.

Variable E : Env.
Variables (depth' p_end fp_base fp_w_base : Z).

(** A compactable deflate entry outside fast mode goes through
    [recompress], and what was true of the local header is true of the
    moved one. *)
Lemma deflate_entry_recompress m p_write h :
  let p := fp_base + CDHeader.local_header_offset h in
  let hdr_end := p_write + 30 + LocalHeader.filename_len m p in
  let h1 := CDHeader.set_local_header_offset h (u32 (p_write - fp_w_base)) in
  is_fast E = false ->
  CDHeader.wf h ->
  Entry.compactable m p_end p h ->
  p_write <= p ->
  LocalHeader.compression_method m p = 8 ->
  Z.land (LocalHeader.flag m p) 1 = 0 ->
  exists m1,
    process_entry E depth' p_end fp_base fp_w_base m p_write h
    = (let '(m2, p2, h2) :=
         recompress E m1 h1 p_write (Entry.payload m p) hdr_end
                    (Entry.compressed_size m p h) (Entry.filename m p) in
       (m2, p2, h2, Next))
    /\ (forall a, a < p_write \/ hdr_end <= a -> m1 a = m a)
    /\ LocalHeader.compression_method m1 p_write = 8
    /\ LocalHeader.crc32 m1 p_write = Entry.crc32 m p h
    /\ LocalHeader.compressed_size m1 p_write = Entry.compressed_size m p h
    /\ LocalHeader.uncompressed_size m1 p_write = Entry.uncompressed_size m p h
    /\ read_bytes m1 (Entry.payload m p)
         (Z.to_nat (Entry.compressed_size m p h))
       = Entry.payload_bytes m p h
    /\ (forall buffer,
          moved_inflates_to E m1 p_write (Entry.payload m p)
            (Entry.compressed_size m p h) buffer
          <-> Entry.inflates_to E m p h buffer).
Proof.
  cbv zeta. intros Hfast Hwf Hok Hcur Hmeth Henc.
  destruct (compactable_ready p_end fp_base fp_w_base m p_write h Hok)
    as (m1 & Hmh & F1 & F2 & F3 & F4 & F5 & F6 & F7 & F8 & F9).
  destruct (entry_sizes_wf m (fp_base + CDHeader.local_header_offset h) h Hwf)
    as (W1 & W2 & W3 & W4).
  rewrite W1 in F5. rewrite W2 in F6. rewrite W3 in F7.
  exists m1.
  assert (Hbytes : read_bytes m1 (Entry.payload m (fp_base + CDHeader.local_header_offset h))
                     (Z.to_nat (Entry.compressed_size m (fp_base + CDHeader.local_header_offset h) h))
                   = Entry.payload_bytes m (fp_base + CDHeader.local_header_offset h) h).
  { unfold Entry.payload_bytes. apply read_bytes_agree. intros a Ha.
    apply F1. unfold Entry.payload, LocalHeader.filename_len,
      LocalHeader.extra_field_len in *.
    pose proof (read16_range m (fp_base + CDHeader.local_header_offset h + 28)).
    lia. }
  split.
  - rewrite (process_entry_ready _ _ _ _ _ _ _ _ _ _ _ _ _ _ _ Hmh).
    unfold process_payload.
    change (read16 m1 (p_write + 8))
      with (LocalHeader.compression_method m1 p_write).
    rewrite Hfast, F4, Hmeth, Henc. reflexivity.
  - rewrite F4. do 6 (split; [assumption|]).
    intros buffer. split.
    + intros (H1 & H2 & H3). unfold Entry.inflates_to.
      rewrite <- Hbytes, <- F5, <- F7. repeat split; assumption.
    + intros (H1 & H2 & H3). unfold moved_inflates_to.
      rewrite Hbytes, F5, F7. repeat split; assumption.
Qed.

End DeflateEntries.


(** C6, as the code has it.  A deflate entry of nonzero uncompressed size
    that does not inflate, or not to the length and the crc the engine goes
    by (those of the local header, or of the directory when bit 3 is set),
    keeps its compressed bytes, its header values and its directory header;
    the loop goes on, and no byte outside the place the entry is moved to
    changes. *)
Theorem deflate_entry_failed_check (E : Env)
    (depth' p_end fp_base fp_w_base : Z) (m : mem) (p_write : Z)
    (h : CDHeader.t) :
  let p := fp_base + CDHeader.local_header_offset h in
  let hdr_end := p_write + 30 + LocalHeader.filename_len m p in
  let csize := Entry.compressed_size m p h in
  is_fast E = false ->
  CDHeader.wf h ->
  Entry.compactable m p_end p h ->
  p_write <= p ->
  LocalHeader.compression_method m p = 8 ->
  Z.land (LocalHeader.flag m p) 1 = 0 ->
  Entry.uncompressed_size m p h <> 0 ->
  (forall buffer, ~ Entry.inflates_to E m p h buffer) ->
  let '(m2, p_write2, h2, next) :=
    process_entry E depth' p_end fp_base fp_w_base m p_write h in
  next = Next
  /\ read_bytes m2 hdr_end (Z.to_nat csize) = Entry.payload_bytes m p h
  /\ p_write2 = hdr_end + csize
  /\ LocalHeader.compression_method m2 p_write = 8
  /\ LocalHeader.crc32 m2 p_write = Entry.crc32 m p h
  /\ LocalHeader.compressed_size m2 p_write = csize
  /\ LocalHeader.uncompressed_size m2 p_write = Entry.uncompressed_size m p h
  /\ h2 = CDHeader.set_local_header_offset h (u32 (p_write - fp_w_base))
  /\ (forall a, a < p_write \/ p_write2 <= a -> m2 a = m a).
Proof.
  cbv zeta. intros Hfast Hwf Hok Hcur Hmeth Henc Hnz Hfail.
  destruct (deflate_entry_recompress E depth' p_end fp_base fp_w_base
              m p_write h Hfast Hwf Hok Hcur Hmeth Henc)
    as (m1 & Hpe & F1 & F4 & F5 & F6 & F7 & Hbytes & Hiff).
  destruct (entry_sizes_wf m (fp_base + CDHeader.local_header_offset h) h Hwf)
    as (_ & _ & _ & W4).
  set (p := fp_base + CDHeader.local_header_offset h) in *.
  pose proof (read16_range m (p + 26)) as Hfl.
  unfold LocalHeader.filename_len in *.
  set (hdr_end := p_write + 30 + read16 m (p + 26)) in *.
  assert (Hhe : hdr_end = p_write + 30 + read16 m (p + 26)) by reflexivity.
  rewrite Hpe, recompress_failed.
  - split; [reflexivity|]. split.
    { rewrite <- (Z2Nat.id (Entry.compressed_size m p h)) at 1 by lia.
      rewrite read_bytes_memmove. exact Hbytes. }
    split; [reflexivity|].
    unfold LocalHeader.compression_method, LocalHeader.crc32,
      LocalHeader.compressed_size, LocalHeader.uncompressed_size in *.
    mem_simpl. rewrite F4, F5, F6, F7.
    repeat split; try reflexivity.
    intros a Ha. rewrite memmove_other by lia. apply F1. lia.
  - rewrite F7. exact Hnz.
  - intros buffer Hb. apply (Hfail buffer), Hiff, Hb.
Qed.

(* ------------------------------------------------------------------ *)
(** ** What every path through the payload part has in common *)

(** All the ways through [process_payload]. *)
Ltac payload_cases H :=
  unfold process_payload, keep_or_minify, recompress in H;
  repeat (cbv beta iota zeta in H;
          match type of H with
          | context [LeanifyFile ?e ?a ?b ?c ?d] =>
              destruct (LeanifyFile e a b c d) eqn:?
          | context [if ?c then _ else _] => destruct c eqn:?
          | context [match ?x with Some _ => _ | None => _ end] =>
              destruct x eqn:?
          end);
  cbv beta iota zeta in H;
  injection H as <- <- <-.

(** Stores that do not reach the address in question. *)
Ltac frame :=
  repeat first
    [ rewrite write32_other by lia
    | rewrite write16_other by lia
    | rewrite write_bytes_other by lia
    | rewrite memmove_other by lia ];
  try reflexivity.

Lemma u32_idem z : u32 (u32 z) = u32 z.
Proof. apply u32_small, u32_range. Qed.

Section PayloadGeneral.

Variable E : Env.
Variable depth' : Z.

(** The payload part writes the method, the crc and the sizes of the
    moved header, and from the write cursor on; nothing else. *)
Lemma process_payload_frame m h hdr p_read p_write ocs flag fname m2 p2 h2 :
  process_payload E depth' m h hdr p_read p_write ocs flag fname
  = (m2, p2, h2) ->
  hdr + 26 <= p_write ->
  forall a, a < hdr + 8 \/ hdr + 10 <= a < hdr + 14
            \/ hdr + 26 <= a < p_write -> m2 a = m a.
Proof.
  intros H Hhdr a Ha. payload_cases H; frame.
Qed.

(** It writes nothing but the method, the crc and the sizes into the
    directory header. *)
Lemma process_payload_same_entry m h hdr p_read p_write ocs flag fname m2 p2 h2 :
  process_payload E depth' m h hdr p_read p_write ocs flag fname
  = (m2, p2, h2) ->
  CDHeader.same_entry h h2
  /\ CDHeader.local_header_offset h2 = CDHeader.local_header_offset h
  /\ CDHeader.flag h2 = CDHeader.flag h
  /\ CDHeader.extra_field_len h2 = CDHeader.extra_field_len h
  /\ CDHeader.comment_len h2 = CDHeader.comment_len h.
Proof.
  intros H. unfold CDHeader.same_entry.
  payload_cases H; cbn; repeat split; reflexivity.
Qed.

Lemma process_payload_wf m h hdr p_read p_write ocs flag fname m2 p2 h2 :
  process_payload E depth' m h hdr p_read p_write ocs flag fname
  = (m2, p2, h2) ->
  CDHeader.wf h -> CDHeader.wf h2.
Proof.
  intros H Hwf. unfold CDHeader.wf in *.
  pose proof u32_range as Hr.
  payload_cases H; cbn; repeat split; try apply Hr; try tauto; try lia.
Qed.

(** The write cursor does not go back. *)
Lemma process_payload_advances m h hdr p_read p_write ocs flag fname m2 p2 h2 :
  process_payload E depth' m h hdr p_read p_write ocs flag fname
  = (m2, p2, h2) ->
  0 <= ocs -> p_write <= p2.
Proof.
  intros H Hocs.
  assert (Hr : forall m a, 0 <= read32 m a) by (intros; apply read32_range).
  payload_cases H; try lia;
    match goal with |- _ <= _ + read32 ?m ?a => specialize (Hr m a); lia end.
Qed.

(** Every path ends with the write cursor behind the payload, whose
    length is the compressed size the moved header has by then. *)
Lemma process_payload_cursor m h hdr p_read p_write ocs flag fname m2 p2 h2 :
  process_payload E depth' m h hdr p_read p_write ocs flag fname
  = (m2, p2, h2) ->
  hdr + 22 <= p_write ->
  LocalHeader.compressed_size m hdr = ocs ->
  p2 = p_write + LocalHeader.compressed_size m2 hdr.
Proof.
  unfold LocalHeader.compressed_size.
  intros H Hhdr Hocs.
  pose proof (read32_range m (hdr + 18)) as Hr.
  payload_cases H; mem_simpl; try reflexivity;
    rewrite ?read32_memmove_other by lia; try lia.
  change (u32 0) with 0. lia.
Qed.


End PayloadGeneral.

(* ------------------------------------------------------------------ *)
(** ** What every iteration has in common *)

Lemma strip_extra_field_other m hdr a :
  a < hdr + 28 \/ hdr + 30 <= a -> strip_extra_field m hdr a = m a.
Proof.
  intros Ha. unfold strip_extra_field.
  destruct (read16 m (hdr + 28) =? 0); [reflexivity|].
  apply write16_other. lia.
Qed.

Lemma use_directory_values_other m hdr h a :
  a < hdr + 6 \/ hdr + 26 <= a -> use_directory_values m hdr h a = m a.
Proof.
  intros Ha. unfold use_directory_values.
  rewrite !write32_other, write16_other by lia. reflexivity.
Qed.

Lemma moved_header_other m p_write p_read fl h (b : bool) a :
  0 <= fl -> a < p_write \/ p_write + 30 + fl <= a ->
  (let moved := strip_extra_field (memmove m p_write p_read (30 + fl)) p_write in
   if b then use_directory_values moved p_write h else moved) a = m a.
Proof.
  intros Hfl Ha. cbv zeta.
  destruct b; [rewrite use_directory_values_other by lia|];
    rewrite strip_extra_field_other by lia; apply memmove_other; lia.
Qed.

Lemma set_local_header_offset_wf h v :
  CDHeader.wf h -> CDHeader.wf (CDHeader.set_local_header_offset h (u32 v)).
Proof.
  unfold CDHeader.wf. cbn. pose proof (u32_range v). tauto.
Qed.

Lemma load_wf m p : CDHeader.wf (CDHeader.load m p).
Proof.
  unfold CDHeader.wf, CDHeader.load. cbn.
  repeat split; try apply read16_range; try apply read32_range;
    apply read16_range || apply read32_range.
Qed.

Section EntryGeneral.

Variable E : Env.
Variables (depth' p_end fp_base fp_w_base : Z).

(** An iteration that does not get to the payload leaves the cursor where
    it is and touches at most the place of the header. *)
Lemma process_entry_cases m p_write h m2 p2 h2 next :
  process_entry E depth' p_end fp_base fp_w_base m p_write h
  = (m2, p2, h2, next) ->
  (move_header p_end fp_base fp_w_base m p_write h = HSkip
   /\ m2 = m /\ p2 = p_write /\ h2 = h /\ next = Next)
  \/ (exists h1, move_header p_end fp_base fp_w_base m p_write h = HEof h1
      /\ m2 = m /\ p2 = p_write /\ h2 = h1 /\ next = Stop)
  \/ (move_header p_end fp_base fp_w_base m p_write h = HTooLarge m2 h2
      /\ p2 = p_write /\ next = Stop)
  \/ (exists m1 h1 p_read' p_write' ocs flag fname,
        move_header p_end fp_base fp_w_base m p_write h
        = HReady m1 h1 p_read' p_write' ocs flag fname
        /\ process_payload E depth' m1 h1 p_write p_read' p_write' ocs flag fname
           = (m2, p2, h2)
        /\ next = Next).
Proof.
  unfold process_entry. intros H.
  destruct (move_header p_end fp_base fp_w_base m p_write h)
    as [|h1|m1 h1|m1 h1 p_read' p_write' ocs flag fname] eqn:Hmh.
  - injection H as <- <- <- <-. left. repeat split; reflexivity.
  - injection H as <- <- <- <-. right. left. exists h1.
    repeat split; reflexivity.
  - injection H as <- <- <- <-. right. right. left.
    repeat split; reflexivity.
  - destruct (process_payload _ _ _ _ _ _ _ _ _ _) as [[m2' p2'] h2'] eqn:Hp.
    injection H as <- <- <- <-. right. right. right.
    exists m1, h1, p_read', p_write', ocs, flag, fname.
    repeat split; assumption || reflexivity.
Qed.

Lemma move_header_too_large m p_write h m1 h1 :
  move_header p_end fp_base fp_w_base m p_write h = HTooLarge m1 h1 ->
  h1 = CDHeader.set_local_header_offset h (u32 (p_write - fp_w_base))
  /\ forall a,
       a < p_write
       \/ p_write + 30
          + LocalHeader.filename_len m
              (fp_base + CDHeader.local_header_offset h) <= a ->
       m1 a = m a.
Proof.
  rewrite move_header_unfold. cbv zeta.
  set (p_read := fp_base + CDHeader.local_header_offset h).
  pose proof (read16_range m (p_read + 26)) as Hfl.
  destruct (_ || _); [discriminate|].
  destruct (p_end <? _); [discriminate|].
  match goal with
  | |- (if ?c then _ else _) = _ -> _ => destruct c; [|discriminate]
  end.
  intros [= <- <-]. split; [reflexivity|].
  intros a Ha. apply moved_header_other; [exact (proj1 Hfl)|exact Ha].
Qed.

Lemma move_header_eof m p_write h h1 :
  move_header p_end fp_base fp_w_base m p_write h = HEof h1 ->
  h1 = CDHeader.set_local_header_offset h (u32 (p_write - fp_w_base)).
Proof.
  rewrite move_header_unfold. cbv zeta.
  destruct (_ || _); [discriminate|].
  destruct (p_end <? _); [|].
  - intros [= <-]. reflexivity.
  - match goal with
    | |- (if ?c then _ else _) = _ -> _ => destruct c; discriminate
    end.
Qed.

(** No iteration writes below the write cursor, and the cursor does not go
    back. *)
Lemma process_entry_below m p_write h m2 p2 h2 next :
  process_entry E depth' p_end fp_base fp_w_base m p_write h
  = (m2, p2, h2, next) ->
  CDHeader.wf h ->
  p_write <= p2 /\ forall a, a < p_write -> m2 a = m a.
Proof.
  intros H Hwf.
  destruct (process_entry_cases _ _ _ _ _ _ _ H)
    as [(_ & -> & -> & _) | [(h1 & _ & -> & -> & _)
        | [(Hmh & -> & _) | (m1 & h1 & p_read' & p_write' & ocs & flag
                             & fname & Hmh & Hp & _)]]].
  - split; [lia|reflexivity].
  - split; [lia|reflexivity].
  - split; [lia|]. intros a Ha.
    apply (proj2 (move_header_too_large _ _ _ _ _ Hmh)). left. exact Ha.
  - destruct (move_header_ready _ _ _ _ _ _ _ _ _ _ _ _ _ Hmh)
      as (_ & _ & _ & Hflag & _ & Hpw & _ & Hocs & _ & _).
    destruct (move_header_memory _ _ _ _ _ _ _ _ _ _ _ _ _ Hmh)
      as (F1 & _).
    pose proof (read16_range m (fp_base + CDHeader.local_header_offset h + 26)) as Hfl.
    unfold LocalHeader.filename_len in Hpw.
    assert (Hocs0 : 0 <= ocs).
    { rewrite Hocs. destruct (Z.testbit flag 3).
      - apply Hwf.
      - apply read32_range. }
    pose proof (process_payload_advances _ _ _ _ _ _ _ _ _ _ _ _ _ Hp Hocs0).
    split; [lia|].
    intros a Ha.
    rewrite (process_payload_frame _ _ _ _ _ _ _ _ _ _ _ _ _ Hp) by lia.
    apply F1. lia.
Qed.

(** The directory header stays the header of the same entry. *)
Lemma process_entry_header m p_write h m2 p2 h2 next :
  process_entry E depth' p_end fp_base fp_w_base m p_write h
  = (m2, p2, h2, next) ->
  CDHeader.wf h ->
  CDHeader.wf h2 /\ CDHeader.same_entry h h2
  /\ CDHeader.flag h2 = CDHeader.flag h.
Proof.
  intros H Hwf.
  assert (Hset : forall v,
            CDHeader.same_entry h (CDHeader.set_local_header_offset h v))
    by (intros v; unfold CDHeader.same_entry; cbn; repeat split; reflexivity).
  destruct (process_entry_cases _ _ _ _ _ _ _ H)
    as [(_ & _ & _ & -> & _) | [(h1 & Hmh & _ & _ & -> & _)
        | [(Hmh & _ & _) | (m1 & h1 & p_read' & p_write' & ocs & flag
                            & fname & Hmh & Hp & _)]]].
  - split; [exact Hwf|]. split; [|reflexivity].
    unfold CDHeader.same_entry. repeat split; reflexivity.
  - apply move_header_eof in Hmh. subst h1.
    split; [apply set_local_header_offset_wf, Hwf|]. split; [apply Hset|].
    reflexivity.
  - apply move_header_too_large in Hmh as [-> _].
    split; [apply set_local_header_offset_wf, Hwf|]. split; [apply Hset|].
    reflexivity.
  - destruct (move_header_ready _ _ _ _ _ _ _ _ _ _ _ _ _ Hmh)
      as (_ & _ & Hh1 & _).
    destruct (process_payload_same_entry _ _ _ _ _ _ _ _ _ _ _ _ _ Hp)
      as (Hs & _ & Hf & _).
    split.
    + apply (process_payload_wf _ _ _ _ _ _ _ _ _ _ _ _ _ Hp).
      rewrite Hh1. apply set_local_header_offset_wf, Hwf.
    + rewrite Hh1 in Hs, Hf. split; [|exact Hf].
      unfold CDHeader.same_entry in *. cbn in Hs. exact Hs.
Qed.

(** The loop: the vector keeps its length and its entries, nothing is
    written below the cursor, and the cursor does not go back. *)
Lemma compact_spec hs : forall m p_write m2 p2 hs2,
  compact E depth' p_end fp_base fp_w_base m p_write hs = (m2, p2, hs2) ->
  Forall CDHeader.wf hs ->
  p_write <= p2
  /\ (forall a, a < p_write -> m2 a = m a)
  /\ Forall2 CDHeader.same_entry hs hs2
  /\ Forall CDHeader.wf hs2.
Proof.
  induction hs as [|h rest IH]; intros m p_write m2 p2 hs2 H Hwf.
  - cbn in H. injection H as <- <- <-.
    repeat split; try lia; constructor.
  - cbn [compact] in H. inversion Hwf as [|? ? Hh Hrest]; subst.
    destruct (process_entry E depth' p_end fp_base fp_w_base m p_write h)
      as [[[m1 p1] h1] next] eqn:Hpe.
    destruct (process_entry_below _ _ _ _ _ _ _ Hpe Hh) as (Hle & Hfr).
    destruct (process_entry_header _ _ _ _ _ _ _ Hpe Hh) as (Hwf1 & Hs1 & _).
    destruct next.
    + destruct (compact E depth' p_end fp_base fp_w_base m1 p1 rest)
        as [[m3 p3] rest3] eqn:Hc.
      injection H as <- <- <-.
      destruct (IH _ _ _ _ _ Hc Hrest) as (Hle' & Hfr' & Hs' & Hwf').
      split; [lia|]. split.
      * intros a Ha. rewrite Hfr' by lia. apply Hfr, Ha.
      * split; constructor; assumption.
    + injection H as <- <- <-.
      split; [lia|]. split; [exact Hfr|]. split.
      * constructor; [exact Hs1|].
        clear. induction rest; constructor; [|assumption].
        unfold CDHeader.same_entry. repeat split; reflexivity.
      * constructor; assumption.
Qed.

End EntryGeneral.

(* ------------------------------------------------------------------ *)
(** ** Structs written and read back *)

Lemma CDHeader_load_agree m m' p :
  agree p (p + CDHeader.size) m m' -> CDHeader.load m' p = CDHeader.load m p.
Proof.
  intros H. unfold CDHeader.load, CDHeader.size in *.
  assert (H16 : forall k, 0 <= k -> k + 2 <= 46 ->
            read16 m' (p + k) = read16 m (p + k))
    by (intros; apply read16_agree; eapply agree_sub; eauto; lia).
  assert (H32 : forall k, 0 <= k -> k + 4 <= 46 ->
            read32 m' (p + k) = read32 m (p + k))
    by (intros; apply read32_agree; eapply agree_sub; eauto; lia).
  rewrite !H16, !H32 by lia.
  rewrite (read32_agree m m' p) by (eapply agree_sub; eauto; lia).
  reflexivity.
Qed.

Lemma CDHeader_store_other m p h a :
  a < p \/ p + CDHeader.size <= a -> CDHeader.store m p h a = m a.
Proof.
  unfold CDHeader.store, CDHeader.size. intros Ha.
  rewrite !write32_other, !write16_other, !write32_other, !write16_other,
    write32_other by lia.
  reflexivity.
Qed.

Lemma CDHeader_load_store m p h :
  CDHeader.wf h -> CDHeader.load (CDHeader.store m p h) p = h.
Proof.
  intros (H1 & H2 & H3 & H4 & H5 & H6 & H7 & H8 & H9 & H10 & H11 & H12 & H13
          & H14 & H15 & H16 & H17).
  unfold CDHeader.load, CDHeader.store. mem_simpl.
  rewrite !u16_small, !u32_small by assumption.
  destruct h; reflexivity.
Qed.

Lemma EOCD_store_other m p e a :
  a < p \/ p + EOCD.size <= a -> EOCD.store m p e a = m a.
Proof.
  unfold EOCD.store, EOCD.size. intros Ha.
  rewrite write16_other, !write32_other, !write16_other, write32_other by lia.
  reflexivity.
Qed.

Lemma EOCD_load_store m p e :
  EOCD.wf e -> EOCD.load (EOCD.store m p e) p = e.
Proof.
  intros (H1 & H2 & H3 & H4 & H5 & H6 & H7 & H8).
  unfold EOCD.load, EOCD.store. mem_simpl.
  rewrite !u16_small, !u32_small by assumption.
  destruct e; reflexivity.
Qed.

Lemma EOCD_load_wf m p : EOCD.wf (EOCD.load m p).
Proof.
  unfold EOCD.wf, EOCD.load. cbn.
  repeat split; try apply read16_range; apply read32_range.
Qed.

Lemma cleared_wf h : CDHeader.wf h -> CDHeader.wf (CDHeader.cleared h).
Proof.
  unfold CDHeader.wf, CDHeader.cleared. cbn.
  intros (H1 & H).
  pose proof (clear_bit3_range _ H1). repeat split; try tauto; lia.
Qed.

Lemma directory_size_cons h rest :
  directory_size (h :: rest) = 46 + CDHeader.filename_len h + directory_size rest.
Proof. reflexivity. Qed.

Lemma directory_size_nonneg hs : Forall CDHeader.wf hs -> 0 <= directory_size hs.
Proof.
  induction 1 as [|x l Hx _ IHl]; [cbn; lia|].
  rewrite directory_size_cons.
  destruct Hx as (_ & _ & _ & _ & _ & Hf & _). lia.
Qed.

Lemma directory_at_agree hs : forall m m' p,
  Forall CDHeader.wf hs ->
  agree p (p + directory_size hs) m m' ->
  directory_at m p hs -> directory_at m' p hs.
Proof.
  induction hs as [|h rest IH]; intros m m' p Hwf Hag Hd; [exact I|].
  inversion Hwf as [|? ? Hh Hrest]; subst.
  rewrite directory_size_cons in Hag.
  cbn [directory_at] in *. unfold CDHeader.size in *.
  destruct Hd as (Hl & Hd).
  pose proof (directory_size_nonneg rest Hrest).
  assert (Hf : 0 <= CDHeader.filename_len h) by apply Hh.
  split.
  - rewrite <- Hl. apply CDHeader_load_agree. unfold CDHeader.size.
    eapply agree_sub; eauto; lia.
  - eapply IH; eauto. eapply agree_sub; eauto; lia.
Qed.

(** The directory writer: one record for each header of the vector, with
    bit 3 clear and no extra field or comment; nothing below the cursor is
    written. *)
Lemma write_cd_spec fp_w_base hs : forall m p m' p' hs',
  write_cd fp_w_base m p hs = (m', p', hs') ->
  Forall CDHeader.wf hs ->
  hs' = map CDHeader.cleared hs
  /\ p' = p + directory_size hs
  /\ (forall a, a < p -> m' a = m a)
  /\ directory_at m' p hs'.
Proof.
  induction hs as [|h rest IH]; intros m p m' p' hs' H Hwf.
  - cbn in H. injection H as <- <- <-. cbn. repeat split; try lia; reflexivity.
  - inversion Hwf as [|? ? Hh Hrest]; subst.
    cbn [write_cd] in H. fold (CDHeader.cleared h) in H.
    set (hc := CDHeader.cleared h) in *.
    assert (Hhc : CDHeader.wf hc) by (apply cleared_wf, Hh).
    assert (Hfn : CDHeader.filename_len hc = CDHeader.filename_len h)
      by reflexivity.
    assert (Hf0 : 0 <= CDHeader.filename_len h) by apply Hh.
    destruct (write_cd fp_w_base _ _ rest) as [[m3 p3] rest3] eqn:Hw.
    injection H as <- <- <-.
    destruct (IH _ _ _ _ _ Hw Hrest) as (-> & -> & Hfr & Hd).
    cbn [map]. rewrite directory_size_cons.
    fold hc. rewrite Hfn in *. unfold CDHeader.size in *.
    split; [reflexivity|]. split; [lia|]. split.
    + intros a Ha. rewrite Hfr by lia. rewrite memmove_other by lia.
      apply CDHeader_store_other. unfold CDHeader.size. lia.
    + cbn [directory_at]. rewrite Hfn. split; [|exact Hd].
      transitivity (CDHeader.load (CDHeader.store m p hc) p);
        [|apply CDHeader_load_store, Hhc].
      apply CDHeader_load_agree. intros a Ha. unfold CDHeader.size in Ha.
      rewrite Hfr by lia. apply memmove_other. lia.
Qed.

(* ------------------------------------------------------------------ *)
(** ** Reading and sorting the central directory *)

Lemma read_cd_spec m p_end zo n : forall i p ce b acc p' ce' b' hs,
  read_cd m p_end zo n i p ce b acc = (p', ce', b', hs) ->
  Forall CDHeader.wf acc ->
  Forall CDHeader.wf hs
  /\ (length hs <= length acc + n)%nat
  /\ (b' = b \/ b' = zo).
Proof.
  induction n as [|n IH]; intros i p ce b acc p' ce' b' hs H Hwf.
  - cbn in H. injection H as <- <- <- <-. repeat split; auto; lia.
  - cbn [read_cd] in H.
    destruct (ce <? p + CDHeader.size).
    { injection H as <- <- <- <-. repeat split; auto; lia. }
    destruct (memcmp_eq m p CDHeader.magic_bytes).
    + apply IH in H.
      * rewrite length_app in H. cbn [length] in H.
        destruct H as (H1 & H2 & H3). repeat split; auto; lia.
      * apply Forall_app. split; [exact Hwf|]. constructor; [|constructor].
        apply load_wf.
    + destruct ((i =? 0) && (ce + zo <=? p_end)
                && memcmp_eq m (p + zo) CDHeader.magic_bytes).
      * apply IH in H.
        -- rewrite length_app in H. cbn [length] in H.
           destruct H as (H1 & H2 & H3).
           split; [exact H1|]. split; [lia|]. destruct H3; auto.
        -- apply Forall_app. split; [exact Hwf|]. constructor; [|constructor].
           apply load_wf.
      * injection H as <- <- <- <-. repeat split; auto; lia.
Qed.

Lemma insert_sorted_perm h l : Permutation (insert_sorted h l) (h :: l).
Proof.
  induction l as [|x tl IH]; cbn; [apply Permutation_refl|].
  destruct (CDHeader.local_header_offset x <? CDHeader.local_header_offset h).
  - eapply Permutation_trans; [apply perm_skip, IH|]. apply perm_swap.
  - apply Permutation_refl.
Qed.

Lemma sort_by_offset_perm l : Permutation (sort_by_offset l) l.
Proof.
  induction l as [|h tl IH]; cbn; [apply Permutation_refl|].
  eapply Permutation_trans; [apply insert_sorted_perm|].
  apply perm_skip, IH.
Qed.

(** What the rest of the function can rely on after lines 85-125. *)
Lemma read_directory_spec z eocd :
  EOCD.wf eocd ->
  let d := read_directory z eocd in
  Forall CDHeader.wf (cd_headers d)
  /\ Z.of_nat (length (cd_headers d)) <= EOCD.num_records eocd
  /\ 0 <= zip_offset d
  /\ (base_offset d = 0 \/ base_offset d = zip_offset d).
Proof.
  intros Hwf. unfold read_directory.
  destruct (read_cd _ _ _ _ _ _ _ _ _) as [[[p' ce'] b'] hs] eqn:Hr.
  cbn [cd_headers zip_offset base_offset].
  destruct (read_cd_spec _ _ _ _ _ _ _ _ _ _ _ _ _ Hr (Forall_nil _))
    as (H1 & H2 & H3).
  pose proof (sort_by_offset_perm hs) as Hp.
  split; [|split; [|split]].
  - eapply Permutation_Forall; [apply Permutation_sym, Hp|exact H1].
  - rewrite (Permutation_length Hp). cbn [length] in H2.
    destruct Hwf as (_ & _ & _ & Hn & _). lia.
  - assert (Ho : 0 <= EOCD.cd_offset eocd) by apply Hwf.
    pose proof (search_range (memory z) (fp_ z) (fp_ z + EOCD.cd_offset eocd)
                  header_magic ltac:(lia)). lia.
  - destruct H3 as [->| ->]; [left|right]; reflexivity.
Qed.

Lemma locate_eocd_Some z p_eocd eocd :
  locate_eocd z = Some (p_eocd, eocd) ->
  eocd = EOCD.load (memory z) p_eocd
  /\ memcmp_eq (memory z) p_eocd EOCD.magic_bytes = true
  /\ p_eocd + EOCD.size <= fp_ z + size_ z
  /\ EOCD.disk_num eocd = 0 /\ EOCD.disk_cd_start eocd = 0
  /\ EOCD.num_records eocd = EOCD.num_records_total eocd
  /\ fp_ z + EOCD.cd_offset eocd + EOCD.cd_size eocd <= p_eocd.
Proof.
  unfold locate_eocd, find_end.
  destruct (rfind _ _ _ _) as [p|] eqn:Hf.
  - apply rfind_Some in Hf as (_ & Hm & _).
    destruct (p =? fp_ z + size_ z); [discriminate|].
    destruct (fp_ z + size_ z <? p + EOCD.size) eqn:H1; [discriminate|].
    destruct (negb (EOCD.disk_num _ =? 0)) eqn:H2; [discriminate|].
    destruct (negb (EOCD.disk_cd_start _ =? 0)) eqn:H3; [discriminate|].
    destruct (negb (EOCD.num_records _ =? _)) eqn:H4; [discriminate|].
    cbn [orb].
    destruct (p <? _) eqn:H5; [discriminate|].
    intros [= <- <-].
    apply negb_false_iff, Z.eqb_eq in H2, H3, H4.
    apply Z.ltb_ge in H1, H5.
    repeat split; assumption.
  - rewrite Z.eqb_refl. discriminate.
Qed.

(* ------------------------------------------------------------------ *)
(** ** The rewritten archive *)

Lemma same_entry_trans a b c :
  CDHeader.same_entry a b -> CDHeader.same_entry b c -> CDHeader.same_entry a c.
Proof.
  unfold CDHeader.same_entry.
  intros (A1 & A2 & A3 & A4 & A5 & A6 & A7 & A8 & A9)
         (B1 & B2 & B3 & B4 & B5 & B6 & B7 & B8 & B9).
  repeat split; congruence.
Qed.

Lemma same_entry_cleared h : CDHeader.same_entry h (CDHeader.cleared h).
Proof. unfold CDHeader.same_entry. cbn. repeat split; reflexivity. Qed.

Lemma Forall2_same_entry_cleared hs hs2 :
  Forall2 CDHeader.same_entry hs hs2 ->
  Forall2 CDHeader.same_entry hs (map CDHeader.cleared hs2).
Proof.
  induction 1 as [|a b l l' Hab _ IH]; cbn; constructor; [|exact IH].
  eapply same_entry_trans; [exact Hab|apply same_entry_cleared].
Qed.

Lemma Forall2_same_entry_size hs hs' :
  Forall2 CDHeader.same_entry hs hs' -> directory_size hs' = directory_size hs.
Proof.
  induction 1 as [|a b l l' Hab _ IH]; [reflexivity|].
  rewrite !directory_size_cons, IH.
  destruct Hab as (_ & _ & _ & _ & _ & Hf & _). rewrite Hf. reflexivity.
Qed.

(** Lines 127-286 as a whole.  [p_cd] is where the new central directory
    starts, [hs'] are the headers written there. *)
Lemma rewrite_archive_spec E z size_leanified eocd d z' r :
  rewrite_archive E z size_leanified eocd d = (z', r) ->
  EOCD.wf eocd ->
  Forall CDHeader.wf (cd_headers d) ->
  let fp_w := fp_ z - size_leanified in
  exists p_cd hs',
    fp_ z' = fp_w /\ size_ z' = r
    /\ fp_w + zip_offset d <= p_cd
    /\ r = p_cd + directory_size (cd_headers d) + EOCD.size - fp_w
    /\ Forall2 CDHeader.same_entry (cd_headers d) hs'
    /\ Forall CDHeader.wf hs'
    /\ Forall (fun h => Z.testbit (CDHeader.flag h) 3 = false
                        /\ CDHeader.extra_field_len h = 0
                        /\ CDHeader.comment_len h = 0) hs'
    /\ directory_at (memory z') p_cd hs'
    /\ EOCD.load (memory z') (fp_w + r - EOCD.size)
       = (let n := u16 (Z.of_nat (length (cd_headers d))) in
          let cd_offset := u32 (p_cd - (fp_w + base_offset d)) in
          EOCD.mk (EOCD.magic eocd) (EOCD.disk_num eocd)
                  (EOCD.disk_cd_start eocd) n n
                  (u32 (p_cd + directory_size (cd_headers d)
                        - (fp_w + base_offset d) - cd_offset))
                  cd_offset 0)
    /\ (forall a, fp_w <= a < fp_w + zip_offset d ->
          memory z' a = memory z (a - fp_w + fp_ z)).
Proof.
  unfold rewrite_archive. cbv zeta. intros H Hwe Hwf.
  set (fp_w := fp_ z - size_leanified) in *.
  destruct (compact E _ _ _ _ _ _ _) as [[m2 p_cd] hs2] eqn:Hc.
  destruct (write_cd _ m2 p_cd hs2) as [[m3 p3] hs3] eqn:Hw.
  injection H as <- <-.
  destruct (compact_spec _ _ _ _ _ _ _ _ _ _ _ Hc Hwf)
    as (Hle & Hfr & Hsame & Hwf2).
  destruct (write_cd_spec _ _ _ _ _ _ _ Hw Hwf2) as (-> & -> & Hfr3 & Hd).
  pose proof (Forall2_same_entry_cleared _ _ Hsame) as Hsame'.
  pose proof (Forall2_same_entry_size _ _ Hsame) as Hsz.
  pose proof (Forall2_same_entry_size _ _ Hsame') as Hsz'.
  assert (Hwf3 : Forall CDHeader.wf (map CDHeader.cleared hs2)).
  { apply Forall_map. eapply Forall_impl; [|exact Hwf2]. apply cleared_wf. }
  pose proof (directory_size_nonneg _ Hwf2) as Hnn.
  exists p_cd, (map CDHeader.cleared hs2). cbn [fp_ size_ memory].
  rewrite length_map, (Forall2_length Hsame), Hsz.
  unfold EOCD.size in *.
  split; [reflexivity|]. split; [reflexivity|]. split; [exact Hle|].
  split; [rewrite <- Hsz; lia|]. split; [exact Hsame'|]. split; [exact Hwf3|].
  split.
  { apply Forall_map. apply Forall_forall. intros h _. cbn.
    split; [apply clear_bit3|]. split; reflexivity. }
  split.
  { eapply directory_at_agree; [exact Hwf3| |exact Hd].
    intros a Ha. rewrite Hsz' in Ha. rewrite <- Hsz in Ha.
    apply EOCD_store_other. lia. }
  split.
  { rewrite <- Hsz.
    replace (fp_w + (p_cd + directory_size hs2 + 22 - fp_w) - 22)
      with (p_cd + directory_size hs2) by lia.
    apply EOCD_load_store.
    destruct Hwe as (H1 & H2 & H3 & _).
    unfold EOCD.wf. cbn.
    repeat split; try apply u16_range; try apply u32_range; lia. }
  intros a Ha.
  rewrite EOCD_store_other by lia.
  rewrite Hfr3 by lia. rewrite Hfr by lia.
  apply memmove_inside. lia.
Qed.

Lemma eocd_magic_word m p :
  memcmp_eq m p EOCD.magic_bytes = true <-> read32 m p = 101010256.
Proof.
  unfold memcmp_eq. rewrite bytes_eqb_eq.
  cbn [length EOCD.magic_bytes]. rewrite !read_bytes_S.
  unfold read32, read16, read8.
  replace (p + 1 + 1) with (p + 2) by lia.
  replace (p + 2 + 1) with (p + 3) by lia.
  split.
  - intros [= H0 H1 H2 H3]. rewrite H0, H1, H2, H3. reflexivity.
  - intros H.
    pose proof (byte_to_Z_range (m p)) as R0.
    pose proof (byte_to_Z_range (m (p + 1))) as R1.
    pose proof (byte_to_Z_range (m (p + 2))) as R2.
    pose proof (byte_to_Z_range (m (p + 3))) as R3.
    assert (H0 : byte_to_Z (m p) = byte_to_Z x50) by (cbn; lia).
    assert (H1' : byte_to_Z (m (p + 1)) = byte_to_Z x4b) by (cbn; lia).
    assert (H2' : byte_to_Z (m (p + 2)) = byte_to_Z x05) by (cbn; lia).
    assert (H3' : byte_to_Z (m (p + 3)) = byte_to_Z x06) by (cbn; lia).
    apply byte_to_Z_inj in H0, H1', H2', H3'.
    rewrite H0, H1', H2', H3'. reflexivity.
Qed.

Lemma Leanify_rewrites E z size_leanified p_eocd eocd :
  locate_eocd (enter z) = Some (p_eocd, eocd) ->
  Leanify E z size_leanified
  = rewrite_archive E (enter z) size_leanified eocd
      (read_directory (enter z) eocd).
Proof. intros H. unfold Leanify. rewrite H. reflexivity. Qed.

(** Lines 264-278 go through the whole vector: the new central directory
    has a record for every central directory header that was read, in
    sorted order, whether or not the entry was compacted; and the new
    num_records and num_records_total are the number of those records. *)
Lemma directory_keeps_every_header (E : Env) (z : Zip) (size_leanified : Z)
    (p_eocd : Z) (eocd : EOCD.t) :
  locate_eocd (enter z) = Some (p_eocd, eocd) ->
  let d := read_directory (enter z) eocd in
  let z' := fst (Leanify E z size_leanified) in
  let r := snd (Leanify E z size_leanified) in
  let eocd' := EOCD.load (memory z') (fp_ z' + r - EOCD.size) in
  EOCD.num_records eocd' = Z.of_nat (length (cd_headers d))
  /\ EOCD.num_records_total eocd' = Z.of_nat (length (cd_headers d))
  /\ exists hs',
       Forall2 CDHeader.same_entry (cd_headers d) hs'
       /\ directory_at (memory z')
            (fp_ z' + r - EOCD.size - directory_size hs') hs'.
Proof.
  intros Hloc. cbv zeta.
  rewrite (Leanify_rewrites _ _ _ _ _ Hloc).
  destruct (locate_eocd_Some _ _ _ Hloc) as (He & _).
  assert (Hwe : EOCD.wf eocd) by (rewrite He; apply EOCD_load_wf).
  destruct (read_directory_spec (enter z) eocd Hwe) as (Hwf & Hlen & Hzo & Hbo).
  destruct (rewrite_archive _ _ _ _ _) as [z' r] eqn:Hrw. cbn [fst snd].
  destruct (rewrite_archive_spec _ _ _ _ _ _ _ Hrw Hwe Hwf)
    as (p_cd & hs' & Hfp & Hsz & Hle & Hr & Hsame & Hwf' & Hbits & Hdir
        & Heocd & _).
  rewrite Hfp, Heocd. cbn [EOCD.num_records EOCD.num_records_total].
  assert (Hn : u16 (Z.of_nat (length (cd_headers (read_directory (enter z) eocd))))
               = Z.of_nat (length (cd_headers (read_directory (enter z) eocd)))).
  { apply u16_small. destruct Hwe as (_ & _ & _ & Hn & _). lia. }
  rewrite Hn. split; [reflexivity|]. split; [reflexivity|].
  exists hs'. split; [exact Hsame|].
  rewrite (Forall2_same_entry_size _ _ Hsame).
  replace (_ - _ + r - EOCD.size - _) with p_cd by (cbn [fp_ enter] in *; lia).
  exact Hdir.
Qed.

(** C10, as the code has it.  After a rewrite the archive ends with the end
    of central directory record, whose comment length is 0; and when the
    archive stays below 4 GiB, the offset and the size of the record locate
    the new central directory exactly, so that the returned length is
    base_offset + cd_offset + cd_size + 22. *)
Theorem rewritten_archive_layout (E : Env) (z : Zip) (size_leanified : Z)
    (p_eocd : Z) (eocd : EOCD.t) :
  locate_eocd (enter z) = Some (p_eocd, eocd) ->
  let d := read_directory (enter z) eocd in
  let z' := fst (Leanify E z size_leanified) in
  let r := snd (Leanify E z size_leanified) in
  let eocd' := EOCD.load (memory z') (fp_ z' + r - EOCD.size) in
  size_ z' = r
  /\ memcmp_eq (memory z') (fp_ z' + r - EOCD.size) EOCD.magic_bytes = true
  /\ EOCD.comment_len eocd' = 0
  /\ (r < 4294967296 ->
      r = base_offset d + EOCD.cd_offset eocd' + EOCD.cd_size eocd' + EOCD.size
      /\ exists hs',
           directory_at (memory z')
             (fp_ z' + base_offset d + EOCD.cd_offset eocd') hs'
           /\ directory_size hs' = EOCD.cd_size eocd'
           /\ Z.of_nat (length hs') = EOCD.num_records eocd').
Proof.
  intros Hloc. cbv zeta.
  rewrite (Leanify_rewrites _ _ _ _ _ Hloc).
  destruct (locate_eocd_Some _ _ _ Hloc) as (He & Hmag & _).
  assert (Hwe : EOCD.wf eocd) by (rewrite He; apply EOCD_load_wf).
  destruct (read_directory_spec (enter z) eocd Hwe) as (Hwf & Hlen & Hzo & Hbo).
  destruct (rewrite_archive _ _ _ _ _) as [z' r] eqn:Hrw. cbn [fst snd].
  destruct (rewrite_archive_spec _ _ _ _ _ _ _ Hrw Hwe Hwf)
    as (p_cd & hs' & Hfp & Hsz & Hle & Hr & Hsame & Hwf' & Hbits & Hdir
        & Heocd & _).
  set (d := read_directory (enter z) eocd) in *.
  set (fp_w := fp_ (enter z) - size_leanified) in *.
  pose proof (directory_size_nonneg _ Hwf) as Hnn.
  rewrite Hfp. split; [exact Hsz|]. split.
  { apply eocd_magic_word.
    change (read32 (memory z') (fp_w + r - EOCD.size))
      with (EOCD.magic (EOCD.load (memory z') (fp_w + r - EOCD.size))).
    rewrite Heocd. cbn [EOCD.magic]. rewrite He. cbn [EOCD.load EOCD.magic].
    apply eocd_magic_word. exact Hmag. }
  rewrite Heocd. cbn [EOCD.comment_len EOCD.cd_offset EOCD.cd_size
                      EOCD.num_records].
  split; [reflexivity|]. intros Hsmall. unfold EOCD.size in *.
  assert (Hoff : u32 (p_cd - (fp_w + base_offset d))
                 = p_cd - (fp_w + base_offset d))
    by (apply u32_small; lia).
  rewrite Hoff.
  assert (Hcs : u32 (p_cd + directory_size (cd_headers d)
                     - (fp_w + base_offset d) - (p_cd - (fp_w + base_offset d)))
                = directory_size (cd_headers d))
    by (rewrite u32_small; lia).
  rewrite Hcs. split; [lia|].
  exists hs'. split.
  - replace (fp_w + base_offset d + (p_cd - (fp_w + base_offset d)))
      with p_cd by lia.
    exact Hdir.
  - split; [apply (Forall2_same_entry_size _ _ Hsame)|].
    rewrite <- (Forall2_length Hsame). symmetry. apply u16_small.
    destruct Hwe as (_ & _ & _ & Hn & _). lia.
Qed.

(* ------------------------------------------------------------------ *)
(** ** The data descriptor flag *)




(* ------------------------------------------------------------------ *)
(** ** The length of the file name *)

Section FilenameLength.

Variable E : Env.
Variables (depth' p_end fp_base fp_w_base : Z).

(** Nothing in the payload part reads the directory header. *)
Lemma process_payload_filename_len m h v hdr p_read p_write ocs flag fname :
  process_payload E depth' m (CDHeader.set_filename_len h v) hdr p_read
                  p_write ocs flag fname
  = (let '(m2, p2, h2) :=
       process_payload E depth' m h hdr p_read p_write ocs flag fname in
     (m2, p2, CDHeader.set_filename_len h2 v)).
Proof.
  unfold process_payload, keep_or_minify, recompress.
  repeat (cbv beta iota zeta;
          match goal with
          | |- context [LeanifyFile ?e ?a ?b ?c ?d] =>
              destruct (LeanifyFile e a b c d)
          | |- context [if ?c then _ else _] => destruct c
          | |- context [match ?x with Some _ => _ | None => _ end] =>
              destruct x
          end);
    reflexivity.
Qed.

(** The header part reads the offset, and crc and sizes when bit 3 is
    set, but not the length of the file name. *)
Lemma move_header_filename_len m p_write h v :
  move_header p_end fp_base fp_w_base m p_write (CDHeader.set_filename_len h v)
  = match move_header p_end fp_base fp_w_base m p_write h with
    | HSkip => HSkip
    | HEof h1 => HEof (CDHeader.set_filename_len h1 v)
    | HTooLarge m1 h1 => HTooLarge m1 (CDHeader.set_filename_len h1 v)
    | HReady m1 h1 p_read' p_write' ocs flag fname =>
        HReady m1 (CDHeader.set_filename_len h1 v) p_read' p_write' ocs
               flag fname
    end.
Proof.
  rewrite !move_header_unfold. cbv zeta.
  cbn [CDHeader.local_header_offset CDHeader.compressed_size
       CDHeader.set_filename_len].
  destruct (_ || _); [reflexivity|].
  destruct (p_end <? _); [reflexivity|].
  match goal with
  | |- (if ?c then _ else _) = _ => destruct c; reflexivity
  end.
Qed.

Lemma process_entry_filename_len m p_write h v :
  process_entry E depth' p_end fp_base fp_w_base m p_write
                (CDHeader.set_filename_len h v)
  = (let '(m2, p2, h2, next) :=
       process_entry E depth' p_end fp_base fp_w_base m p_write h in
     (m2, p2, CDHeader.set_filename_len h2 v, next)).
Proof.
  unfold process_entry. rewrite move_header_filename_len.
  destruct (move_header p_end fp_base fp_w_base m p_write h);
    try reflexivity.
  rewrite process_payload_filename_len.
  destruct (process_payload _ _ _ _ _ _ _ _ _ _) as [[m2 p2] h2].
  reflexivity.
Qed.

End FilenameLength.

(** C3, as the code has it.  The header that is moved has 30 bytes plus the
    file name length [fl] of the local header itself.  Behind the header
    part both cursors have gone 30 + [fl] bytes on (the read cursor the
    extra field as well), the bytes of the file name lie behind the moved
    header, and nothing outside the 30 + [fl] bytes from the write cursor
    has changed.  The payload is placed right behind them: the iteration
    ends with the write cursor 30 + [fl] bytes plus the compressed size of
    the rewritten header further.  The file name length of the directory
    header takes no part in the iteration (a different value changes
    nothing but itself), and it is left as it is. *)
Theorem header_size_from_local_header (E : Env)
    (depth' p_end fp_base fp_w_base : Z) (m : mem) (p_write : Z)
    (h : CDHeader.t) :
  let p := fp_base + CDHeader.local_header_offset h in
  let fl := LocalHeader.filename_len m p in
  let hdr_end := p_write + 30 + fl in
  CDHeader.wf h ->
  Entry.compactable m p_end p h ->
  (forall v,
     process_entry E depth' p_end fp_base fp_w_base m p_write
                   (CDHeader.set_filename_len h v)
     = (let '(m2, p2, h2, next) :=
          process_entry E depth' p_end fp_base fp_w_base m p_write h in
        (m2, p2, CDHeader.set_filename_len h2 v, next)))
  /\ match move_header p_end fp_base fp_w_base m p_write h with
     | HReady m1 _ p_read' p_write' _ _ _ =>
         p_read' = p + LocalHeader.extra_field_len m p + 30 + fl
         /\ p_write' = hdr_end
         /\ (forall a, p_write + 30 <= a < hdr_end -> m1 a = m (a - p_write + p))
         /\ (forall a, a < p_write \/ hdr_end <= a -> m1 a = m a)
     | _ => False
     end
  /\ let '(m2, p_write2, h2, next) :=
       process_entry E depth' p_end fp_base fp_w_base m p_write h in
     read_bytes m2 (p_write + 30) (Z.to_nat fl) = Entry.filename m p
     /\ LocalHeader.filename_len m2 p_write = fl
     /\ p_write2 = hdr_end + LocalHeader.compressed_size m2 p_write
     /\ CDHeader.filename_len h2 = CDHeader.filename_len h.
Proof.
  cbv zeta. intros Hwf Hok.
  split; [intros v; apply process_entry_filename_len|].
  destruct (compactable_ready p_end fp_base fp_w_base m p_write h Hok)
    as (m1 & Hmh & F1 & F2 & F3 & F4 & F5 & F6 & F7 & F8 & F9).
  destruct (entry_sizes_wf m (fp_base + CDHeader.local_header_offset h) h Hwf)
    as (_ & W2 & _ & W4).
  rewrite W2 in F6.
  set (p := fp_base + CDHeader.local_header_offset h) in *.
  pose proof (read16_range m (p + 26)) as Hfl.
  split.
  { rewrite Hmh. unfold Entry.payload.
    split; [lia|]. split; [reflexivity|]. split; assumption. }
  rewrite (process_entry_ready _ _ _ _ _ _ _ _ _ _ _ _ _ _ _ Hmh).
  destruct (process_payload _ _ _ _ _ _ _ _ _ _) as [[m2 p2] h2] eqn:Hp.
  unfold LocalHeader.filename_len in *.
  pose proof (process_payload_cursor _ _ _ _ _ _ _ _ _ _ _ _ _ Hp
                ltac:(lia) F6) as Hcur.
  pose proof (process_payload_frame _ _ _ _ _ _ _ _ _ _ _ _ _ Hp
                ltac:(lia)) as Hfr.
  destruct (process_payload_same_entry _ _ _ _ _ _ _ _ _ _ _ _ _ Hp)
    as ((_ & _ & _ & _ & _ & Hfn & _) & _).
  split; [|split; [|split; [exact Hcur|exact Hfn]]].
  - unfold Entry.filename, LocalHeader.filename_len, read_bytes.
    apply map_ext_in. intros i Hi. apply in_seq in Hi.
    rewrite Hfr by lia. rewrite F2 by lia. f_equal. lia.
  - rewrite <- F8. apply read16_agree. intros a Ha. apply Hfr. lia.
Qed.

(* ------------------------------------------------------------------ *)
(** ** The archive does not grow *)

(** Boolean tests in the context, as propositions. *)
Ltac reflect_tests :=
  repeat match goal with
         | H : (_ && _) = true |- _ => apply andb_true_iff in H; destruct H
         | H : (_ <=? _) = true |- _ => apply Z.leb_le in H
         | H : (_ <=? _) = false |- _ => apply Z.leb_gt in H
         | H : (_ <? _) = true |- _ => apply Z.ltb_lt in H
         | H : (_ <? _) = false |- _ => apply Z.ltb_ge in H
         | H : (_ =? _) = true |- _ => apply Z.eqb_eq in H
         | H : (_ =? _) = false |- _ => apply Z.eqb_neq in H
         | H : negb _ = true |- _ => apply negb_true_iff in H
         | H : negb _ = false |- _ => apply negb_false_iff in H
         end.

(** The length of every prefix taken in the goal. *)
Ltac prefix_lengths :=
  repeat match goal with
         | |- context [firstn ?n ?l] =>
             lazymatch goal with
             | H : (length (firstn n l) <= n)%nat |- _ => fail
             | _ => pose proof (firstn_le_length n l)
             end
         end.

Section Bound.

Variable E : Env.
Variable depth' : Z.
Hypothesis Hshrinks : minifier_shrinks E.
Hypothesis Hplace : minifier_in_place E.

(** The payload part writes no more than the compressed size it found, and
    nothing behind the place the payload was read from. *)
Lemma process_payload_bound m h hdr p_read p_write ocs flag fname m2 p2 h2 :
  process_payload E depth' m h hdr p_read p_write ocs flag fname
  = (m2, p2, h2) ->
  hdr + 30 <= p_write -> p_write <= p_read ->
  0 <= ocs < 4294967296 ->
  LocalHeader.compressed_size m hdr = ocs ->
  p2 <= p_write + ocs /\ forall a, p_read + ocs <= a -> m2 a = m a.
Proof.
  unfold LocalHeader.compressed_size.
  intros H Hhdr Hcur Hocs Hcs.
  pose proof u32_range as Hu.
  payload_cases H; reflect_tests;
    try match goal with
        | HL : LeanifyFile E ?r ?f ?s ?n = (?l, ?z) |- _ =>
            pose proof (Hshrinks r f s n) as Hz;
            pose proof (Hplace r f s n) as Hl;
            rewrite HL in Hz, Hl; cbn [fst snd] in Hz, Hl;
            try rewrite read_bytes_length in Hl;
            pose proof (Hu z)
        end;
    (split;
     [ mem_simpl; rewrite ?u32_idem; rewrite ?u32_small by lia; lia
     | intros a Ha; prefix_lengths; frame ]).
Qed.

End Bound.

Section BoundLoop.

Variable E : Env.
Variables (depth' p_end fp_base fp_w_base : Z).
Hypothesis Hshrinks : minifier_shrinks E.
Hypothesis Hplace : minifier_in_place E.

Lemma extent_end_agree m m0 p h :
  (forall a, p <= a -> m a = m0 a) ->
  Entry.extent_end m p h = Entry.extent_end m0 p h.
Proof.
  intros H.
  assert (H16 : forall k, 0 <= k -> read16 m (p + k) = read16 m0 (p + k))
    by (intros; apply read16_agree; intros a Ha; apply H; lia).
  assert (H32 : forall k, 0 <= k -> read32 m (p + k) = read32 m0 (p + k))
    by (intros; apply read32_agree; intros a Ha; apply H; lia).
  unfold Entry.extent_end, Entry.payload, Entry.compressed_size,
    LocalHeader.filename_len, LocalHeader.extra_field_len, LocalHeader.flag,
    LocalHeader.compressed_size.
  rewrite !H16, !H32 by lia. reflexivity.
Qed.

Lemma extent_end_ge m p h : CDHeader.wf h -> p + 30 <= Entry.extent_end m p h.
Proof.
  intros Hwf.
  destruct (entry_sizes_wf m p h Hwf) as (_ & _ & _ & W).
  unfold Entry.extent_end, Entry.payload, LocalHeader.filename_len,
    LocalHeader.extra_field_len.
  pose proof (read16_range m (p + 26)). pose proof (read16_range m (p + 28)).
  lia.
Qed.

(** With the write cursor at least [sl] bytes before the entry, an
    iteration leaves it at least [sl] bytes before the end of the entry and
    writes nothing behind that end. *)
Lemma process_entry_bound m0 m p_write h sl m2 p2 h2 next :
  process_entry E depth' p_end fp_base fp_w_base m p_write h
  = (m2, p2, h2, next) ->
  CDHeader.wf h -> 0 <= sl ->
  let p := fp_base + CDHeader.local_header_offset h in
  (forall a, p <= a -> m a = m0 a) ->
  p_write + sl <= p ->
  p2 + sl <= Entry.extent_end m0 p h
  /\ forall a, Entry.extent_end m0 p h <= a -> m2 a = m a.
Proof.
  cbv zeta. intros H Hwf Hsl Hag Hcur.
  rewrite <- (extent_end_agree m m0 _ h Hag).
  pose proof (extent_end_ge m (fp_base + CDHeader.local_header_offset h) h Hwf)
    as Hge.
  set (p := fp_base + CDHeader.local_header_offset h) in *.
  destruct (entry_sizes_wf m p h Hwf) as (_ & W2 & _ & W4).
  pose proof (read16_range m (p + 26)) as Hfl.
  pose proof (read16_range m (p + 28)) as Hex.
  destruct (process_entry_cases _ _ _ _ _ _ _ _ _ _ _ _ H)
    as [(_ & -> & -> & _) | [(h1 & _ & -> & -> & _)
        | [(Hmh & -> & _) | (m1 & h1 & p_read' & p_write' & ocs & flag
                             & fname & Hmh & Hp & _)]]].
  - split; [lia|reflexivity].
  - split; [lia|reflexivity].
  - split; [lia|]. intros a Ha.
    apply (proj2 (move_header_too_large _ _ _ _ _ _ _ _ Hmh)).
    right. fold p. unfold Entry.extent_end, Entry.payload,
      LocalHeader.filename_len, LocalHeader.extra_field_len in *. lia.
  - destruct (move_header_ready _ _ _ _ _ _ _ _ _ _ _ _ _ Hmh)
      as (_ & _ & _ & Hflag & _ & Hpw & Hpr & Hocs & _ & _).
    destruct (move_header_memory _ _ _ _ _ _ _ _ _ _ _ _ _ Hmh)
      as (F1 & _ & _ & _ & _ & F6 & _).
    fold p in Hpw, Hpr, Hocs, F6. cbv zeta in Hpw, Hpr, Hocs.
    assert (Hocs' : ocs = Entry.compressed_size m p h).
    { rewrite Hocs, Hflag. reflexivity. }
    assert (Hcs1 : LocalHeader.compressed_size m1 p_write = ocs).
    { rewrite F6, Hocs.
      destruct (Z.testbit flag 3).
      - apply u32_small. apply Hwf.
      - reflexivity. }
    unfold Entry.extent_end, Entry.payload, LocalHeader.filename_len,
      LocalHeader.extra_field_len in *.
    destruct (process_payload_bound E depth' Hshrinks Hplace _ _ _ _ _ _ _ _
                _ _ _ Hp) as (B1 & B2); try lia; try assumption.
    split; [lia|].
    intros a Ha. rewrite B2 by lia. apply F1. lia.
Qed.

Lemma entries_in_order_le m0 limit hs : forall lo,
  Forall CDHeader.wf hs ->
  entries_in_order m0 fp_base lo hs limit -> lo <= limit.
Proof.
  induction hs as [|h rest IH]; intros lo Hwf H; [exact H|].
  inversion Hwf as [|? ? Hh Hrest]; subst.
  cbn [entries_in_order] in H. destruct H as (Hlo & H).
  apply IH in H; [|exact Hrest].
  pose proof (extent_end_ge m0 (fp_base + CDHeader.local_header_offset h) h Hh).
  lia.
Qed.

(** The loop keeps the write cursor at least [sl] bytes before what it
    reads: at its end the cursor is at least [sl] bytes before [limit]. *)
Lemma compact_bound m0 sl limit hs : forall m p_write lo m2 p2 hs2,
  compact E depth' p_end fp_base fp_w_base m p_write hs = (m2, p2, hs2) ->
  Forall CDHeader.wf hs -> 0 <= sl ->
  entries_in_order m0 fp_base lo hs limit ->
  (forall a, lo <= a -> m a = m0 a) ->
  p_write + sl <= lo ->
  p2 + sl <= limit.
Proof.
  induction hs as [|h rest IH]; intros m p_write lo m2 p2 hs2 H Hwf Hsl Ho Hag Hcur.
  - cbn in H, Ho. injection H as <- <- <-. lia.
  - inversion Hwf as [|? ? Hh Hrest]; subst.
    cbn [compact] in H. cbn [entries_in_order] in Ho. destruct Ho as (Hlo & Ho).
    destruct (process_entry E depth' p_end fp_base fp_w_base m p_write h)
      as [[[m1 p1] h1] next] eqn:Hpe.
    destruct (process_entry_bound m0 m p_write h sl _ _ _ _ Hpe Hh Hsl)
      as (B1 & B2).
    { intros a Ha. apply Hag. lia. }
    { lia. }
    pose proof (extent_end_ge m0 (fp_base + CDHeader.local_header_offset h) h Hh)
      as Hge.
    destruct next.
    + destruct (compact E depth' p_end fp_base fp_w_base m1 p1 rest)
        as [[m3 p3] rest3] eqn:Hc.
      injection H as <- <- <-.
      eapply IH; eauto.
      intros a Ha. rewrite B2 by lia. apply Hag. lia.
    + injection H as <- <- <-.
      pose proof (entries_in_order_le m0 limit rest _ Hrest Ho). lia.
Qed.

End BoundLoop.

Lemma directory_bytes_read_cons h l :
  directory_bytes_read (h :: l)
  = 46 + CDHeader.filename_len h + CDHeader.extra_field_len h
    + CDHeader.comment_len h + directory_bytes_read l.
Proof. reflexivity. Qed.

Lemma directory_size_le_read hs :
  Forall CDHeader.wf hs -> directory_size hs <= directory_bytes_read hs.
Proof.
  induction 1 as [|h l Hh _ IH]; [cbn; lia|].
  rewrite directory_size_cons, directory_bytes_read_cons.
  destruct Hh as (_ & _ & _ & _ & _ & _ & He & Hc & _). lia.
Qed.

Lemma directory_size_perm l l' :
  Permutation l l' -> directory_size l = directory_size l'.
Proof.
  induction 1; rewrite ?directory_size_cons; lia.
Qed.

Lemma directory_bytes_read_perm l l' :
  Permutation l l' -> directory_bytes_read l = directory_bytes_read l'.
Proof.
  induction 1; rewrite ?directory_bytes_read_cons; lia.
Qed.

(** The reader moves on by the bytes of the records it takes, and the end
    of the directory moves with the base offset. *)
Lemma read_cd_consumed m p_end zo n : forall i p ce b acc p' ce' b' hs,
  read_cd m p_end zo n i p ce b acc = (p', ce', b', hs) ->
  exists new,
    hs = acc ++ new /\ p' - ce' = p - ce + directory_bytes_read new.
Proof.
  assert (Hstop : forall p ce acc,
            exists new : list CDHeader.t,
              acc = acc ++ new
              /\ p - ce = p - ce + directory_bytes_read new).
  { intros. exists []. rewrite app_nil_r. cbn.
    split; [reflexivity|lia]. }
  induction n as [|n IH]; intros i p ce b acc p' ce' b' hs H.
  - cbn in H. injection H as <- <- <- <-. apply Hstop.
  - cbn [read_cd] in H.
    destruct (ce <? p + CDHeader.size).
    { injection H as <- <- <- <-. apply Hstop. }
    destruct (memcmp_eq m p CDHeader.magic_bytes).
    + apply IH in H. destruct H as (new & -> & Hp).
      exists (CDHeader.load m p :: new). rewrite <- app_assoc.
      split; [reflexivity|].
      rewrite directory_bytes_read_cons. unfold CDHeader.size in Hp. lia.
    + destruct ((i =? 0) && (ce + zo <=? p_end)
                && memcmp_eq m (p + zo) CDHeader.magic_bytes).
      * apply IH in H. destruct H as (new & -> & Hp).
        exists (CDHeader.load m (p + zo) :: new). rewrite <- app_assoc.
        split; [reflexivity|].
        rewrite directory_bytes_read_cons. unfold CDHeader.size in Hp. lia.
      * injection H as <- <- <- <-. apply Hstop.
Qed.

(** The returned length, by the cursor the compaction loop stops at. *)
Lemma rewrite_archive_size E z size_leanified eocd d z' r :
  rewrite_archive E z size_leanified eocd d = (z', r) ->
  Forall CDHeader.wf (cd_headers d) ->
  let fp_w := fp_ z - size_leanified in
  exists m2 p_cd hs2,
    compact E (depth z) (fp_ z + size_ z) (fp_ z + base_offset d)
      (fp_w + base_offset d)
      (memmove (memory z) fp_w (fp_ z) (zip_offset d))
      (fp_w + zip_offset d) (cd_headers d) = (m2, p_cd, hs2)
    /\ r = p_cd + directory_size (cd_headers d) + EOCD.size - fp_w.
Proof.
  unfold rewrite_archive. cbv zeta. intros H Hwf.
  set (fp_w := fp_ z - size_leanified) in *.
  destruct (compact E _ _ _ _ _ _ _) as [[m2 p_cd] hs2] eqn:Hc.
  destruct (write_cd _ m2 p_cd hs2) as [[m3 p3] hs3] eqn:Hw.
  injection H as <- <-.
  destruct (compact_spec _ _ _ _ _ _ _ _ _ _ _ Hc Hwf)
    as (_ & _ & Hsame & Hwf2).
  destruct (write_cd_spec _ _ _ _ _ _ _ Hw Hwf2) as (_ & -> & _).
  exists m2, p_cd, hs2. split; [reflexivity|].
  rewrite (Forall2_same_entry_size _ _ Hsame). lia.
Qed.

(** What the reader took from the central directory fits between the start
    of the directory and the read cursor. *)
Lemma read_directory_consumed z eocd :
  EOCD.wf eocd ->
  let d := read_directory z eocd in
  directory_size (cd_headers d)
  <= p_read_cd d - cd_end d + EOCD.cd_size eocd.
Proof.
  intros Hwe. pose proof (read_directory_spec z eocd Hwe) as Hs.
  cbv zeta in *. destruct Hs as (Hwf & _).
  unfold read_directory in *. cbv zeta in *.
  destruct (read_cd _ _ _ _ _ _ _ _ _) as [[[p' ce'] b'] hs] eqn:Hr.
  cbn [cd_headers p_read_cd cd_end] in *.
  destruct (read_cd_consumed _ _ _ _ _ _ _ _ _ _ _ _ _ Hr) as (new & -> & Hp).
  cbn [app] in *.
  pose proof (directory_size_le_read _ Hwf) as Hle.
  rewrite (directory_bytes_read_perm _ _ (sort_by_offset_perm new)) in Hle.
  lia.
Qed.

(** C4. For every valid input archive (the end record is accepted, the
    records of the central directory end inside it and before the end
    record, the entries lie one behind the other between the first local
    header and the directory, so that their offsets are distinct) and a
    recursive minifier that never returns a length greater than the one it
    was given and works in the region it was given, the length returned by
    the engine is less than or equal to the input length. *)
Theorem valid_archive_does_not_grow (E : Env) (z : Zip) (size_leanified : Z) :
  0 <= size_leanified ->
  minifier_shrinks E -> minifier_in_place E ->
  valid_archive z ->
  snd (Leanify E z size_leanified) <= size_ z.
Proof.
  intros Hsl Hshrinks Hplace Hvalid.
  unfold valid_archive in Hvalid.
  change (locate_eocd z) with (locate_eocd (enter z)) in Hvalid.
  destruct (locate_eocd (enter z)) as [[p_eocd eocd]|] eqn:Hloc;
    [|contradiction].
  change (read_directory z eocd) with (read_directory (enter z) eocd)
    in Hvalid.
  change (memory z) with (memory (enter z)) in Hvalid.
  change (fp_ z) with (fp_ (enter z)) in Hvalid.
  change (size_ z) with (size_ (enter z)).
  cbv zeta in Hvalid. destruct Hvalid as (Hread & Hend & Horder).
  rewrite (Leanify_rewrites _ _ _ _ _ Hloc).
  destruct (locate_eocd_Some _ _ _ Hloc) as (He & _ & Hfit & _).
  assert (Hwe : EOCD.wf eocd) by (rewrite He; apply EOCD_load_wf).
  destruct (read_directory_spec (enter z) eocd Hwe) as (Hwf & _ & Hzo & _).
  pose proof (read_directory_consumed (enter z) eocd Hwe) as Hcons.
  cbv zeta in Hcons.
  destruct (rewrite_archive _ _ _ _ _) as [z' r] eqn:Hrw. cbn [fst snd].
  destruct (rewrite_archive_size _ _ _ _ _ _ _ Hrw Hwf)
    as (m2 & p_cd & hs2 & Hc & ->).
  set (d := read_directory (enter z) eocd) in *.
  pose proof (compact_bound E _ _ _ _ Hshrinks Hplace (memory (enter z))
                size_leanified _ _ _ _ _ _ _ _ Hc Hwf Hsl Horder) as Hb.
  assert (Hcur : p_cd + size_leanified <= cd_end d - EOCD.cd_size eocd).
  { apply Hb.
    - intros a Ha. apply memmove_other. right. lia.
    - lia. }
  unfold EOCD.size in *. lia.
Qed.

(* ------------------------------------------------------------------ *)
(** ** The engine on the same bytes at another address *)

Section Shifted.

Variables D lo : Z.

Lemma read8_shifted m1 m2 p1 p2 :
  shifted D lo m1 m2 -> p1 = p2 + D -> lo <= p2 -> read8 m1 p1 = read8 m2 p2.
Proof. intros H -> Hp. unfold read8. rewrite H by lia. reflexivity. Qed.

Lemma read16_shifted m1 m2 p1 p2 :
  shifted D lo m1 m2 -> p1 = p2 + D -> lo <= p2 ->
  read16 m1 p1 = read16 m2 p2.
Proof.
  intros H -> Hp. unfold read16.
  rewrite (read8_shifted m1 m2 (p2 + D) p2), (read8_shifted m1 m2 _ (p2 + 1))
    by (assumption || lia).
  reflexivity.
Qed.

Lemma read32_shifted m1 m2 p1 p2 :
  shifted D lo m1 m2 -> p1 = p2 + D -> lo <= p2 ->
  read32 m1 p1 = read32 m2 p2.
Proof.
  intros H -> Hp. unfold read32.
  rewrite (read16_shifted m1 m2 (p2 + D) p2), (read16_shifted m1 m2 _ (p2 + 2))
    by (assumption || lia).
  reflexivity.
Qed.

Lemma read_bytes_shifted m1 m2 p1 p2 n1 n2 :
  shifted D lo m1 m2 -> p1 = p2 + D -> lo <= p2 -> n1 = n2 ->
  read_bytes m1 p1 n1 = read_bytes m2 p2 n2.
Proof.
  intros H -> Hp ->. unfold read_bytes. apply map_ext. intros i.
  rewrite <- H by lia. f_equal. lia.
Qed.

Lemma memcmp_eq_shifted m1 m2 p1 p2 pat :
  shifted D lo m1 m2 -> p1 = p2 + D -> lo <= p2 ->
  memcmp_eq m1 p1 pat = memcmp_eq m2 p2 pat.
Proof.
  intros H Hp Hlo. unfold memcmp_eq.
  rewrite (read_bytes_shifted m1 m2 p1 p2 _ (length pat)) by (assumption || reflexivity).
  reflexivity.
Qed.

Lemma write8_shifted m1 m2 p1 p2 v :
  shifted D lo m1 m2 -> p1 = p2 + D ->
  shifted D lo (write8 m1 p1 v) (write8 m2 p2 v).
Proof.
  intros H -> a Ha. unfold write8.
  destruct (Z.eqb_spec (a + D) (p2 + D)), (Z.eqb_spec a p2);
    try lia; [reflexivity|apply H, Ha].
Qed.

Lemma write16_shifted m1 m2 p1 p2 v :
  shifted D lo m1 m2 -> p1 = p2 + D ->
  shifted D lo (write16 m1 p1 v) (write16 m2 p2 v).
Proof.
  intros H ->. unfold write16.
  repeat apply write8_shifted; try assumption; lia.
Qed.

Lemma write32_shifted m1 m2 p1 p2 v :
  shifted D lo m1 m2 -> p1 = p2 + D ->
  shifted D lo (write32 m1 p1 v) (write32 m2 p2 v).
Proof.
  intros H ->. unfold write32.
  repeat apply write16_shifted; try assumption; lia.
Qed.

Lemma write_bytes_shifted m1 m2 p1 p2 l :
  shifted D lo m1 m2 -> p1 = p2 + D ->
  shifted D lo (write_bytes m1 p1 l) (write_bytes m2 p2 l).
Proof.
  intros H -> a Ha. unfold write_bytes.
  destruct (Z.leb_spec (p2 + D) (a + D)), (Z.leb_spec p2 a); try lia;
    destruct (Z.ltb_spec (a + D) (p2 + D + Z.of_nat (length l))),
             (Z.ltb_spec a (p2 + Z.of_nat (length l)));
    try lia; cbn [andb]; try (apply H, Ha).
  f_equal. lia.
Qed.

Lemma memmove_shifted m1 m2 dst1 dst2 src1 src2 n :
  shifted D lo m1 m2 -> dst1 = dst2 + D -> src1 = src2 + D -> lo <= src2 ->
  shifted D lo (memmove m1 dst1 src1 n) (memmove m2 dst2 src2 n).
Proof.
  intros H -> -> Hs a Ha. unfold memmove.
  destruct (Z.leb_spec (dst2 + D) (a + D)), (Z.leb_spec dst2 a); try lia;
    destruct (Z.ltb_spec (a + D) (dst2 + D + n)), (Z.ltb_spec a (dst2 + n));
    try lia; cbn [andb]; try (apply H, Ha).
  rewrite <- H by lia. f_equal. lia.
Qed.

Lemma CDHeader_load_shifted m1 m2 p1 p2 :
  shifted D lo m1 m2 -> p1 = p2 + D -> lo <= p2 ->
  CDHeader.load m1 p1 = CDHeader.load m2 p2.
Proof.
  intros H -> Hp. unfold CDHeader.load.
  repeat match goal with
         | |- context [read16 m1 (p2 + D + ?k)] =>
             rewrite (read16_shifted m1 m2 (p2 + D + k) (p2 + k))
               by (assumption || lia)
         | |- context [read32 m1 (p2 + D + ?k)] =>
             rewrite (read32_shifted m1 m2 (p2 + D + k) (p2 + k))
               by (assumption || lia)
         end.
  rewrite (read32_shifted m1 m2 (p2 + D) p2) by (assumption || lia).
  reflexivity.
Qed.

Lemma EOCD_load_shifted m1 m2 p1 p2 :
  shifted D lo m1 m2 -> p1 = p2 + D -> lo <= p2 ->
  EOCD.load m1 p1 = EOCD.load m2 p2.
Proof.
  intros H -> Hp. unfold EOCD.load.
  repeat match goal with
         | |- context [read16 m1 (p2 + D + ?k)] =>
             rewrite (read16_shifted m1 m2 (p2 + D + k) (p2 + k))
               by (assumption || lia)
         | |- context [read32 m1 (p2 + D + ?k)] =>
             rewrite (read32_shifted m1 m2 (p2 + D + k) (p2 + k))
               by (assumption || lia)
         end.
  rewrite (read32_shifted m1 m2 (p2 + D) p2) by (assumption || lia).
  reflexivity.
Qed.

Lemma CDHeader_store_shifted m1 m2 p1 p2 h :
  shifted D lo m1 m2 -> p1 = p2 + D ->
  shifted D lo (CDHeader.store m1 p1 h) (CDHeader.store m2 p2 h).
Proof.
  intros H ->. unfold CDHeader.store. cbv zeta.
  repeat first [ apply write16_shifted | apply write32_shifted ];
    try assumption; lia.
Qed.

Lemma EOCD_store_shifted m1 m2 p1 p2 e :
  shifted D lo m1 m2 -> p1 = p2 + D ->
  shifted D lo (EOCD.store m1 p1 e) (EOCD.store m2 p2 e).
Proof.
  intros H ->. unfold EOCD.store. cbv zeta.
  repeat first [ apply write16_shifted | apply write32_shifted ];
    try assumption; lia.
Qed.

End Shifted.

(** Related memories, store after store. *)
Ltac shifted_mem :=
  repeat first
    [ eassumption
    | apply write16_shifted
    | apply write32_shifted
    | apply write_bytes_shifted
    | apply memmove_shifted ];
  try lia.

(** One read of a memory built on [m1] is turned into the read of the
    memory built on the other side that the goal has as well. *)
Ltac shift_read m1 :=
  match goal with
  | |- context [read16 ?M1 ?A1] =>
      match M1 with context [m1] => idtac end;
      match goal with
      | |- context [read16 ?M2 ?A2] =>
          replace (read16 M1 A1) with (read16 M2 A2)
            by (symmetry; eapply read16_shifted; [solve [shifted_mem]|lia|lia])
      end
  | |- context [read32 ?M1 ?A1] =>
      match M1 with context [m1] => idtac end;
      match goal with
      | |- context [read32 ?M2 ?A2] =>
          replace (read32 M1 A1) with (read32 M2 A2)
            by (symmetry; eapply read32_shifted; [solve [shifted_mem]|lia|lia])
      end
  | |- context [read_bytes ?M1 ?A1 ?N1] =>
      match M1 with context [m1] => idtac end;
      match goal with
      | |- context [read_bytes ?M2 ?A2 ?N2] =>
          replace (read_bytes M1 A1 N1) with (read_bytes M2 A2 N2)
            by (symmetry; eapply read_bytes_shifted;
                [solve [shifted_mem]|lia|lia|lia])
      end
  end.

(** The next test both sides go through. *)
Ltac common_case :=
  match goal with
  | |- context [LeanifyFile ?e ?a ?b ?c ?d] =>
      destruct (LeanifyFile e a b c d) eqn:?
  | |- context [if ?c then _ else _] => destruct c eqn:?
  | |- context [match ?x with Some _ => _ | None => _ end] =>
      destruct x eqn:?
  end.

Section ShiftedEngine.

Variable E : Env.
Variables D lo : Z.
Variable depth' : Z.

Lemma process_payload_shifted m1 m2 h hdr1 hdr2 pr1 pr2 pw1 pw2 ocs flag fname :
  shifted D lo m1 m2 ->
  hdr1 = hdr2 + D -> pr1 = pr2 + D -> pw1 = pw2 + D ->
  lo <= hdr2 -> lo <= pr2 -> lo <= pw2 ->
  let '(m1', p1', h1') :=
    process_payload E depth' m1 h hdr1 pr1 pw1 ocs flag fname in
  let '(m2', p2', h2') :=
    process_payload E depth' m2 h hdr2 pr2 pw2 ocs flag fname in
  shifted D lo m1' m2' /\ p1' = p2' + D /\ h1' = h2'.
Proof.
  intros H Hhdr Hpr Hpw Lhdr Lpr Lpw.
  unfold process_payload, keep_or_minify, recompress.
  replace (pr1 - pw1) with (pr2 - pw2) by lia.
  repeat (cbv beta iota zeta; first [shift_read m1 | common_case]).
  all: cbv beta iota zeta.
  all: split; [solve [shifted_mem]|split; [lia|reflexivity]].
Qed.

End ShiftedEngine.

(** One comparison of addresses on the side of [a1] is turned into the
    comparison the goal has for the other side. *)
Ltac shift_test a1 :=
  match goal with
  | |- context [?x1 <? ?y1] =>
      match x1 with context [a1] => idtac end;
      match goal with
      | |- context [?x2 <? ?y2] =>
          lazymatch x2 with context [a1] => fail | _ => idtac end;
          replace (x1 <? y1) with (x2 <? y2)
            by (destruct (Z.ltb_spec x1 y1), (Z.ltb_spec x2 y2);
                first [reflexivity | lia])
      end
  end.

Ltac shift_magic m1 :=
  match goal with
  | |- context [memcmp_eq ?M1 ?A1 ?pat] =>
      match M1 with context [m1] => idtac end;
      match goal with
      | |- context [memcmp_eq ?M2 ?A2 pat] =>
          replace (memcmp_eq M1 A1 pat) with (memcmp_eq M2 A2 pat)
            by (symmetry; eapply memcmp_eq_shifted;
                [solve [shifted_mem]|lia|lia])
      end
  end.

Section ShiftedHeader.

Variables D lo : Z.

Lemma move_header_shifted m1 m2 pe1 pe2 fb1 fb2 fwb1 fwb2 pw1 pw2 h :
  shifted D lo m1 m2 ->
  pe1 = pe2 + D -> fb1 = fb2 + D -> fwb1 = fwb2 + D -> pw1 = pw2 + D ->
  lo <= fb2 -> lo <= pw2 -> CDHeader.wf h ->
  header_shifted D lo (move_header pe1 fb1 fwb1 m1 pw1 h)
                      (move_header pe2 fb2 fwb2 m2 pw2 h).
Proof.
  intros H Hpe Hfb Hfwb Hpw Lfb Lpw Hwf.
  assert (Hoff : 0 <= CDHeader.local_header_offset h) by apply Hwf.
  rewrite !move_header_unfold. cbv zeta.
  unfold LocalHeader.filename_len, LocalHeader.extra_field_len,
    LocalHeader.flag, LocalHeader.compressed_size, strip_extra_field,
    use_directory_values.
  replace (pw1 - fwb1) with (pw2 - fwb2) by lia.
  repeat (cbv beta iota zeta;
          first [shift_read m1 | shift_magic m1 | shift_test pe1]).
  pose proof (read16_range m2 (fb2 + CDHeader.local_header_offset h + 26)).
  pose proof (read16_range m2 (fb2 + CDHeader.local_header_offset h + 28)).
  repeat (cbv beta iota zeta; first [shift_read m1 | common_case]).
  all: cbn [header_shifted]; auto.
  all: repeat split; try reflexivity; try lia; try solve [shifted_mem].
Qed.

End ShiftedHeader.

Section ShiftedLoop.

Variable E : Env.
Variables D lo : Z.
Variable depth' : Z.

Lemma process_entry_shifted m1 m2 pe1 pe2 fb1 fb2 fwb1 fwb2 pw1 pw2 h :
  shifted D lo m1 m2 ->
  pe1 = pe2 + D -> fb1 = fb2 + D -> fwb1 = fwb2 + D -> pw1 = pw2 + D ->
  lo <= fb2 -> lo <= pw2 -> CDHeader.wf h ->
  let '(m1', p1', h1', next1) :=
    process_entry E depth' pe1 fb1 fwb1 m1 pw1 h in
  let '(m2', p2', h2', next2) :=
    process_entry E depth' pe2 fb2 fwb2 m2 pw2 h in
  shifted D lo m1' m2' /\ p1' = p2' + D /\ h1' = h2' /\ next1 = next2.
Proof.
  intros H Hpe Hfb Hfwb Hpw Lfb Lpw Hwf.
  pose proof (move_header_shifted D lo m1 m2 pe1 pe2 fb1 fb2 fwb1 fwb2 pw1 pw2
                h H Hpe Hfb Hfwb Hpw Lfb Lpw Hwf) as Hmh.
  unfold process_entry.
  destruct (move_header pe2 fb2 fwb2 m2 pw2 h)
    as [|h2|m2' h2|m2' h2 pr2 pw2' ocs2 flag2 name2] eqn:H2;
    destruct (move_header pe1 fb1 fwb1 m1 pw1 h)
      as [|h1|m1' h1|m1' h1 pr1 pw1' ocs1 flag1 name1];
    cbn [header_shifted] in Hmh; try contradiction.
  - repeat split; assumption.
  - subst h1. repeat split; assumption.
  - destruct Hmh as (Hm & ->). repeat split; assumption.
  - destruct Hmh as (Hm & -> & -> & -> & -> & -> & ->).
    destruct (move_header_ready _ _ _ _ _ _ _ _ _ _ _ _ _ H2)
      as (_ & _ & _ & _ & _ & Hpw2 & Hpr2 & _).
    cbv zeta in Hpw2, Hpr2.
    pose proof (read16_range m2 (fb2 + CDHeader.local_header_offset h + 26)).
    pose proof (read16_range m2 (fb2 + CDHeader.local_header_offset h + 28)).
    assert (Hoff : 0 <= CDHeader.local_header_offset h) by apply Hwf.
    unfold LocalHeader.filename_len, LocalHeader.extra_field_len in *.
    pose proof (process_payload_shifted E D lo depth' m1' m2' h2
                  pw1 pw2 (pr2 + D) pr2 (pw2' + D) pw2' ocs2 flag2 name2
                  Hm Hpw eq_refl eq_refl Lpw ltac:(lia) ltac:(lia)) as Hpp.
    destruct (process_payload E depth' m1' h2 pw1 (pr2 + D) (pw2' + D)
                ocs2 flag2 name2) as [[m1'' p1''] h1''].
    destruct (process_payload E depth' m2' h2 pw2 pr2 pw2' ocs2 flag2 name2)
      as [[m2'' p2''] h2''].
    destruct Hpp as (Hm'' & Hp'' & Hh'').
    repeat split; assumption.
Qed.

Lemma compact_shifted pe1 pe2 fb1 fb2 fwb1 fwb2 hs :
  pe1 = pe2 + D -> fb1 = fb2 + D -> fwb1 = fwb2 + D -> lo <= fb2 ->
  Forall CDHeader.wf hs ->
  forall m1 m2 pw1 pw2,
    shifted D lo m1 m2 -> pw1 = pw2 + D -> lo <= pw2 ->
    let '(m1', p1', hs1) := compact E depth' pe1 fb1 fwb1 m1 pw1 hs in
    let '(m2', p2', hs2) := compact E depth' pe2 fb2 fwb2 m2 pw2 hs in
    shifted D lo m1' m2' /\ p1' = p2' + D /\ hs1 = hs2.
Proof.
  intros Hpe Hfb Hfwb Lfb Hwf.
  induction Hwf as [|h rest Hh Hrest IH]; intros m1 m2 pw1 pw2 H Hpw Lpw.
  - cbn. repeat split; assumption.
  - cbn [compact].
    pose proof (process_entry_shifted m1 m2 pe1 pe2 fb1 fb2 fwb1 fwb2 pw1 pw2
                  h H Hpe Hfb Hfwb Hpw Lfb Lpw Hh) as Hpe'.
    destruct (process_entry E depth' pe2 fb2 fwb2 m2 pw2 h)
      as [[[m2' p2'] h2'] next2] eqn:H2.
    destruct (process_entry E depth' pe1 fb1 fwb1 m1 pw1 h)
      as [[[m1' p1'] h1'] next1].
    destruct Hpe' as (Hm & Hp & -> & ->).
    destruct (process_entry_below _ _ _ _ _ _ _ _ _ _ _ _ H2 Hh) as (Hle & _).
    destruct next2.
    + specialize (IH m1' m2' p1' p2' Hm Hp ltac:(lia)).
      destruct (compact E depth' pe1 fb1 fwb1 m1' p1' rest) as [[m1'' p1''] hs1].
      destruct (compact E depth' pe2 fb2 fwb2 m2' p2' rest) as [[m2'' p2''] hs2].
      destruct IH as (Hm'' & Hp'' & ->). repeat split; assumption.
    + repeat split; assumption.
Qed.

End ShiftedLoop.

Section ShiftedDirectory.

Variables D lo : Z.

Lemma write_cd_shifted fwb1 fwb2 hs :
  fwb1 = fwb2 + D -> lo <= fwb2 -> Forall CDHeader.wf hs ->
  forall m1 m2 pw1 pw2,
    shifted D lo m1 m2 -> pw1 = pw2 + D ->
    let '(m1', p1', hs1) := write_cd fwb1 m1 pw1 hs in
    let '(m2', p2', hs2) := write_cd fwb2 m2 pw2 hs in
    shifted D lo m1' m2' /\ p1' = p2' + D /\ hs1 = hs2.
Proof.
  intros Hfwb Lfwb Hwf.
  induction Hwf as [|h rest Hh Hrest IH]; intros m1 m2 pw1 pw2 H Hpw.
  - cbn. repeat split; assumption.
  - cbn [write_cd]. cbv zeta.
    assert (Hoff : 0 <= CDHeader.local_header_offset h) by apply Hh.
    match goal with
    | |- context [write_cd fwb1 ?M1 ?P1 rest] =>
        match goal with
        | |- context [write_cd fwb2 ?M2 ?P2 rest] =>
            specialize (IH M1 M2 P1 P2);
            destruct (write_cd fwb1 M1 P1 rest) as [[m1' p1'] hs1];
            destruct (write_cd fwb2 M2 P2 rest) as [[m2' p2'] hs2]
        end
    end.
    destruct IH as (Hm & Hp & ->).
    + apply memmove_shifted; [|lia| |].
      * apply CDHeader_store_shifted; assumption.
      * cbn [CDHeader.local_header_offset CDHeader.set_extra_field_len
             CDHeader.set_comment_len CDHeader.set_flag]. lia.
      * cbn [CDHeader.local_header_offset CDHeader.set_extra_field_len
             CDHeader.set_comment_len CDHeader.set_flag]. lia.
    + lia.
    + repeat split; assumption.
Qed.

Lemma rfind_shifted m1 m2 pat first1 first2 n :
  shifted D lo m1 m2 -> first1 = first2 + D -> lo <= first2 ->
  rfind m1 pat first1 n = option_map (fun p => p + D) (rfind m2 pat first2 n).
Proof.
  intros H -> Hlo. induction n as [|k IH]; [reflexivity|].
  cbn [rfind].
  rewrite (memcmp_eq_shifted D lo m1 m2 _ (first2 + Z.of_nat k))
    by (assumption || lia).
  destruct (memcmp_eq m2 (first2 + Z.of_nat k) pat); [|exact IH].
  cbn. f_equal. lia.
Qed.

Lemma find_end_shifted m1 m2 pat first1 first2 last1 last2 :
  shifted D lo m1 m2 -> first1 = first2 + D -> last1 = last2 + D ->
  lo <= first2 ->
  find_end m1 first1 last1 pat = find_end m2 first2 last2 pat + D.
Proof.
  intros H Hf Hl Hlo. unfold find_end.
  replace (last1 - first1) with (last2 - first2) by lia.
  rewrite (rfind_shifted m1 m2 pat first1 first2) by assumption.
  destruct (rfind m2 pat first2 _); cbn; [reflexivity|exact Hl].
Qed.

Lemma ffind_shifted m1 m2 pat n : forall p1 p2,
  shifted D lo m1 m2 -> p1 = p2 + D -> lo <= p2 ->
  ffind m1 pat p1 n = option_map (fun p => p + D) (ffind m2 pat p2 n).
Proof.
  induction n as [|k IH]; intros p1 p2 H Hp Hlo; [reflexivity|].
  cbn [ffind].
  rewrite (memcmp_eq_shifted D lo m1 m2 p1 p2) by assumption.
  destruct (memcmp_eq m2 p2 pat); [cbn; f_equal; exact Hp|].
  apply IH; [assumption|lia|lia].
Qed.

(** After the first turn the reader of the directory goes the same way on
    both sides, whatever the offset of the first local header is; the base
    offset is handed through. *)
Lemma read_cd_shifted m1 m2 pe1 pe2 zo1 zo2 n : forall i p1 p2 ce1 ce2 b1 b2 acc,
  shifted D lo m1 m2 -> 0 < i ->
  p1 = p2 + D -> ce1 = ce2 + D -> lo <= p2 ->
  read_cd m1 pe1 zo1 n i p1 ce1 b1 acc
  = let '(p', ce', _, hs) := read_cd m2 pe2 zo2 n i p2 ce2 b2 acc in
    (p' + D, ce' + D, b1, hs).
Proof.
  induction n as [|k IH]; intros i p1 p2 ce1 ce2 b1 b2 acc H Hi Hp Hce Hlo.
  - cbn. subst. reflexivity.
  - cbn [read_cd].
    replace (ce1 <? p1 + CDHeader.size) with (ce2 <? p2 + CDHeader.size)
      by (destruct (Z.ltb_spec ce1 (p1 + CDHeader.size)),
                   (Z.ltb_spec ce2 (p2 + CDHeader.size));
          first [reflexivity | lia]).
    destruct (ce2 <? p2 + CDHeader.size); [subst; reflexivity|].
    rewrite (memcmp_eq_shifted D lo m1 m2 p1 p2) by assumption.
    destruct (memcmp_eq m2 p2 CDHeader.magic_bytes).
    + rewrite (CDHeader_load_shifted D lo m1 m2 p1 p2) by assumption.
      pose proof (load_wf m2 p2) as Hwf.
      destruct Hwf as (_ & _ & _ & _ & _ & Hf & He & Hc & _).
      apply IH; [assumption|lia|lia|assumption|unfold CDHeader.size; lia].
    + destruct (Z.eqb_spec i 0) as [|_]; [lia|]. cbn. subst. reflexivity.
Qed.

End ShiftedDirectory.

(* ------------------------------------------------------------------ *)
(** ** An archive behind a stub *)

Lemma rfind_last m pat first n p :
  first <= p < first + Z.of_nat n -> memcmp_eq m p pat = true ->
  (forall q, p < q < first + Z.of_nat n -> memcmp_eq m q pat = false) ->
  rfind m pat first n = Some p.
Proof.
  intros Hp Hm Hl.
  destruct (rfind m pat first n) as [r|] eqn:Hf.
  - apply rfind_Some in Hf as (Hr & Hrm & Hrl). f_equal.
    destruct (Z.lt_trichotomy r p) as [Hlt|[Heq|Hgt]]; [|exact Heq|].
    + rewrite Hrl in Hm by lia. discriminate.
    + rewrite Hl in Hrm by lia. discriminate.
  - rewrite (rfind_None _ _ _ _ Hf p Hp) in Hm. discriminate.
Qed.

(** The last occurrence in a window is the last one in every window that
    starts earlier. *)
Lemma find_end_wider m first first' last pat :
  first' <= first ->
  find_end m first last pat <> last ->
  find_end m first' last pat = find_end m first last pat.
Proof.
  intros Hle Hne. unfold find_end in *.
  destruct (rfind m pat first _) as [p|] eqn:Hf; [|contradiction].
  apply rfind_Some in Hf as (Hr & Hm & Hl).
  rewrite (rfind_last m pat first' _ p); [reflexivity| |exact Hm|].
  - lia.
  - intros q Hq. apply Hl. lia.
Qed.

Lemma find_end_found m first last pat :
  find_end m first last pat <> last -> first <= find_end m first last pat.
Proof.
  unfold find_end.
  destruct (rfind m pat first _) as [p|] eqn:Hf; [|contradiction].
  intros _. apply rfind_Some in Hf as (Hr & _). lia.
Qed.

Lemma search_at_first m first last pat :
  memcmp_eq m first pat = true -> first + Z.of_nat (length pat) <= last ->
  search m first last pat = first.
Proof.
  intros Hm Hle. unfold search.
  destruct (Z.to_nat (last - first - Z.of_nat (length pat) + 1)) as [|k] eqn:Hk;
    [lia|].
  cbn [ffind]. rewrite Hm. reflexivity.
Qed.

Lemma search_found m first last pat :
  search m first last pat < last ->
  memcmp_eq m (search m first last pat) pat = true
  /\ search m first last pat + Z.of_nat (length pat) <= last.
Proof.
  unfold search.
  destruct (ffind m pat first _) as [r|] eqn:Hf; [|lia].
  intros _. apply ffind_Some in Hf as (Hr & Hm & _). split; [exact Hm|lia].
Qed.

(** One turn of the loop that reads the directory, at a record. *)
Lemma read_cd_matching m p_end zo k i p ce b acc :
  (ce <? p + CDHeader.size) = false ->
  memcmp_eq m p CDHeader.magic_bytes = true ->
  read_cd m p_end zo (S k) i p ce b acc
  = read_cd m p_end zo k (i + 1)
      (p + CDHeader.size + CDHeader.filename_len (CDHeader.load m p)
       + CDHeader.extra_field_len (CDHeader.load m p)
       + CDHeader.comment_len (CDHeader.load m p))
      ce b (acc ++ [CDHeader.load m p]).
Proof. intros H1 H2. cbn [read_cd]. rewrite H1, H2. reflexivity. Qed.

(** The first turn, when the record is found [zo] bytes later. *)
Lemma read_cd_rebased m p_end zo k p ce b acc :
  (ce <? p + CDHeader.size) = false ->
  memcmp_eq m p CDHeader.magic_bytes = false ->
  ce + zo <= p_end ->
  memcmp_eq m (p + zo) CDHeader.magic_bytes = true ->
  read_cd m p_end zo (S k) 0 p ce b acc
  = read_cd m p_end zo k (0 + 1)
      (p + zo + CDHeader.size
       + CDHeader.filename_len (CDHeader.load m (p + zo))
       + CDHeader.extra_field_len (CDHeader.load m (p + zo))
       + CDHeader.comment_len (CDHeader.load m (p + zo)))
      (ce + zo) zo (acc ++ [CDHeader.load m (p + zo)]).
Proof.
  intros H1 H2 H3 H4. cbn [read_cd]. rewrite H1, H2, H4.
  apply Z.leb_le in H3. rewrite H3. reflexivity.
Qed.

Section Stub.

Variable E : Env.

(** The whole buffer [z1], a stub of [N] bytes and the archive, and the
    archive alone [z2]: the memory of [z1] holds behind the stub what the
    memory of [z2] holds. *)
Variables (z1 z2 : Zip) (N : Z).

Let D := fp_ z1 + N - fp_ z2.

Hypothesis HN : 0 <= N.
Hypothesis Hdepth : depth z1 = depth z2.
Hypothesis Hsize : size_ z1 = N + size_ z2.
Hypothesis Hmem : shifted D (fp_ z2) (memory z1) (memory z2).

Variables (p_eocd : Z) (eocd : EOCD.t).

Hypothesis Hloc : locate_eocd z2 = Some (p_eocd, eocd).

(** The end record of the archive is the end record of the whole
    buffer. *)
Lemma locate_eocd_stub : locate_eocd z1 = Some (p_eocd + D, eocd).
Proof.
  pose proof Hloc as H. unfold locate_eocd in *. cbv zeta in *.
  set (pe2 := fp_ z2 + size_ z2) in *.
  replace (fp_ z1 + size_ z1) with (pe2 + D) by (unfold D, pe2; lia).
  set (first2 := Z.max (fp_ z2) (pe2 - 65535 - 4)) in *.
  set (p := find_end (memory z2) first2 pe2 EOCD.magic_bytes) in *.
  destruct (Z.eqb_spec p pe2) as [|Hne]; [discriminate|].
  assert (Hp : first2 <= p) by (apply find_end_found; exact Hne).
  assert (Hs : find_end (memory z1) (first2 + D) (pe2 + D) EOCD.magic_bytes
               = p + D).
  { apply (find_end_shifted D (fp_ z2)); [exact Hmem|reflexivity|reflexivity|].
    unfold first2. lia. }
  rewrite (find_end_wider _ (first2 + D))
    by (rewrite ?Hs; unfold first2, D; lia).
  rewrite Hs.
  destruct (Z.eqb_spec (p + D) (pe2 + D)) as [|_]; [lia|].
  replace (pe2 + D <? p + D + EOCD.size) with (pe2 <? p + EOCD.size)
    by (destruct (Z.ltb_spec (pe2 + D) (p + D + EOCD.size)),
                 (Z.ltb_spec pe2 (p + EOCD.size)); first [reflexivity|lia]).
  destruct (pe2 <? p + EOCD.size); [discriminate|].
  rewrite (EOCD_load_shifted D (fp_ z2) (memory z1) (memory z2) (p + D) p)
    by (exact Hmem || reflexivity || (unfold first2 in Hp; lia)).
  destruct (negb _ || negb _ || negb _); [discriminate|].
  destruct (Z.ltb_spec p (fp_ z2 + EOCD.cd_offset (EOCD.load (memory z2) p)
                          + EOCD.cd_size (EOCD.load (memory z2) p)))
    as [|Hc]; [discriminate|].
  destruct (Z.ltb_spec (p + D)
              (fp_ z1 + EOCD.cd_offset (EOCD.load (memory z2) p)
               + EOCD.cd_size (EOCD.load (memory z2) p)))
    as [Hc'|_]; [unfold D in Hc'; lia|].
  injection H as <- <-. reflexivity.
Qed.

Hypothesis Hfirst : first_local_header_at z1 eocd N.
Hypothesis Hdir :
  directory_starts_at (memory z2) (fp_ z2 + EOCD.cd_offset eocd) eocd.
Hypothesis Hnom :
  memcmp_eq (memory z1) (fp_ z1 + EOCD.cd_offset eocd) CDHeader.magic_bytes
  = false.

(** The directory of the whole buffer is the directory of the archive,
    with the stub as the base of the offsets. *)
Lemma read_directory_stub :
  let d2 := read_directory z2 eocd in
  zip_offset d2 = 0 /\ base_offset d2 = 0
  /\ read_directory z1 eocd
     = mkDirectory N N (p_read_cd d2 + D) (cd_end d2 + D) (cd_headers d2).
Proof.
  destruct Hfirst as (Hs & Hlt). destruct Hdir as (Hrec & Hsz & Hmag).
  cbv zeta.
  destruct (locate_eocd_Some _ _ _ Hloc) as (_ & _ & Hfit & _ & _ & _ & Hcd).
  unfold EOCD.size in Hfit. unfold CDHeader.size in Hsz.
  assert (Hfound : memcmp_eq (memory z1) (fp_ z1 + N) header_magic = true
                   /\ fp_ z1 + N + 4 <= fp_ z1 + EOCD.cd_offset eocd).
  { rewrite <- Hs. apply search_found. lia. }
  destruct Hfound as (Hhm & Hroom).
  rewrite (memcmp_eq_shifted D (fp_ z2) _ (memory z2) _ (fp_ z2)) in Hhm
    by (exact Hmem || (unfold D; lia)).
  unfold read_directory. cbv zeta.
  rewrite Hs, (search_at_first (memory z2) (fp_ z2)) by (cbn; lia || exact Hhm).
  replace (fp_ z1 + N - fp_ z1) with N by lia.
  replace (fp_ z2 - fp_ z2) with 0 by lia.
  destruct (Z.to_nat (EOCD.num_records eocd)) as [|k] eqn:Hk; [lia|].
  assert (Hmag1 : memcmp_eq (memory z1) (fp_ z1 + EOCD.cd_offset eocd + N)
                    CDHeader.magic_bytes = true).
  { rewrite (memcmp_eq_shifted D (fp_ z2) _ (memory z2) _
               (fp_ z2 + EOCD.cd_offset eocd))
      by (exact Hmem || (unfold D; lia)).
    exact Hmag. }
  assert (Hload : CDHeader.load (memory z1) (fp_ z1 + EOCD.cd_offset eocd + N)
                  = CDHeader.load (memory z2) (fp_ z2 + EOCD.cd_offset eocd)).
  { apply (CDHeader_load_shifted D (fp_ z2));
      [exact Hmem|unfold D; lia|lia]. }
  rewrite (read_cd_rebased (memory z1) _ N k (fp_ z1 + EOCD.cd_offset eocd));
    [|apply Z.ltb_ge; unfold CDHeader.size; lia|exact Hnom|lia|exact Hmag1].
  rewrite (read_cd_matching (memory z2) _ 0 k 0
             (fp_ z2 + EOCD.cd_offset eocd));
    [|apply Z.ltb_ge; unfold CDHeader.size; lia|exact Hmag].
  rewrite Hload.
  set (h := CDHeader.load (memory z2) (fp_ z2 + EOCD.cd_offset eocd)).
  pose proof (load_wf (memory z2) (fp_ z2 + EOCD.cd_offset eocd)) as Hwf.
  fold h in Hwf. destruct Hwf as (_ & _ & _ & _ & _ & Hf & He & Hc & _).
  set (R := read_cd (memory z2) _ 0 k _ _ _ 0 _).
  assert (Hb : R = let '(p', ce', _, hs) := R in (p', ce', 0, hs)).
  { unfold R.
    rewrite (read_cd_shifted 0 (fp_ z2) (memory z2) (memory z2) _
               (fp_ z2 + size_ z2) 0 0 k (0 + 1) _
               (fp_ z2 + EOCD.cd_offset eocd + CDHeader.size
                + CDHeader.filename_len h + CDHeader.extra_field_len h
                + CDHeader.comment_len h)
               _ (fp_ z2 + EOCD.cd_offset eocd + EOCD.cd_size eocd) 0 0)
      by (try (intros a _; f_equal); unfold CDHeader.size; lia).
    destruct (read_cd _ _ _ _ _ _ _ _ _) as [[[p' ce'] b'] hs].
    rewrite !Z.add_0_r. reflexivity. }
  rewrite (read_cd_shifted D (fp_ z2) (memory z1) (memory z2) _
             (fp_ z2 + size_ z2) N 0 k (0 + 1) _
             (fp_ z2 + EOCD.cd_offset eocd + CDHeader.size
              + CDHeader.filename_len h + CDHeader.extra_field_len h
              + CDHeader.comment_len h)
             _ (fp_ z2 + EOCD.cd_offset eocd + EOCD.cd_size eocd) N 0)
    by (exact Hmem || (unfold D, CDHeader.size; lia)).
  fold R. destruct R as [[[p' ce'] b'] hs]. injection Hb as ->.
  cbn [zip_offset base_offset p_read_cd cd_end cd_headers].
  split; [reflexivity|]. split; reflexivity.
Qed.

(** Compaction and the new directory go the same way on both sides, the
    stub staying where it is. *)
Lemma rewrite_archive_stub p' ce' hs :
  Forall CDHeader.wf hs ->
  let '(z1', r1) :=
    rewrite_archive E z1 0 eocd (mkDirectory N N (p' + D) (ce' + D) hs) in
  let '(z2', r2) :=
    rewrite_archive E z2 0 eocd (mkDirectory 0 0 p' ce' hs) in
  shifted D (fp_ z2) (memory z1') (memory z2')
  /\ fp_ z1' = fp_ z1 /\ fp_ z2' = fp_ z2
  /\ r1 = N + r2 /\ size_ z1' = r1 /\ size_ z2' = r2.
Proof.
  intros Hwf. unfold rewrite_archive. cbv zeta.
  cbn [zip_offset base_offset cd_headers].
  rewrite !Z.sub_0_r, !Z.add_0_r, Hdepth.
  assert (Hm0 : shifted D (fp_ z2)
                  (memmove (memory z1) (fp_ z1) (fp_ z1) N)
                  (memmove (memory z2) (fp_ z2) (fp_ z2) 0)).
  { intros a Ha. rewrite !memmove_other by (unfold D; lia). apply Hmem, Ha. }
  pose proof (compact_shifted E D (fp_ z2) (depth z2)
                (fp_ z1 + size_ z1) (fp_ z2 + size_ z2)
                (fp_ z1 + N) (fp_ z2) (fp_ z1 + N) (fp_ z2) hs
                ltac:(unfold D; lia) ltac:(unfold D; lia)
                ltac:(unfold D; lia) (Z.le_refl _) Hwf
                _ _ (fp_ z1 + N) (fp_ z2) Hm0
                ltac:(unfold D; lia) (Z.le_refl _)) as Hc.
  destruct (compact E (depth z2) (fp_ z2 + size_ z2) (fp_ z2) (fp_ z2) _
              (fp_ z2) hs) as [[m2' p2'] hs2] eqn:Hc2.
  destruct (compact E (depth z2) (fp_ z1 + size_ z1) (fp_ z1 + N)
              (fp_ z1 + N) _ (fp_ z1 + N) hs) as [[m1' p1'] hs1].
  destruct Hc as (Hm' & Hp' & ->).
  destruct (compact_spec _ _ _ _ _ _ _ _ _ _ _ Hc2 Hwf) as (_ & _ & _ & Hwf2).
  pose proof (write_cd_shifted D (fp_ z2) (fp_ z1 + N) (fp_ z2) hs2
                ltac:(unfold D; lia) (Z.le_refl _) Hwf2
                m1' m2' p1' p2' Hm' Hp') as Hw.
  destruct (write_cd (fp_ z2) m2' p2' hs2) as [[m2'' p2''] hs2'].
  destruct (write_cd (fp_ z1 + N) m1' p1' hs2) as [[m1'' p1''] hs1'].
  destruct Hw as (Hm'' & Hp'' & ->).
  cbn [memory fp_ size_].
  replace (p1' - (fp_ z1 + N)) with (p2' - fp_ z2) by (unfold D in Hp'; lia).
  replace (p1'' - (fp_ z1 + N)) with (p2'' - fp_ z2) by (unfold D in Hp''; lia).
  split; [apply EOCD_store_shifted; assumption|].
  unfold D in Hp''. repeat split; lia.
Qed.

End Stub.

(** A top-level call on a stub and an archive returns the stub followed by
    what the call on the archive alone returns, when the archive is taken
    with the stub as the base of its offsets. *)
Lemma Leanify_stub E z1 z2 N p_eocd eocd :
  0 <= N -> depth z1 = depth z2 -> size_ z1 = N + size_ z2 ->
  shifted (fp_ z1 + N - fp_ z2) (fp_ z2) (memory z1) (memory z2) ->
  locate_eocd z2 = Some (p_eocd, eocd) ->
  first_local_header_at z1 eocd N ->
  directory_starts_at (memory z2) (fp_ z2 + EOCD.cd_offset eocd) eocd ->
  memcmp_eq (memory z1) (fp_ z1 + EOCD.cd_offset eocd) CDHeader.magic_bytes
  = false ->
  snd (Leanify E z1 0) = N + snd (Leanify E z2 0)
  /\ contents (fst (Leanify E z1 0))
     = read_bytes (memory z1) (fp_ z1) (Z.to_nat N)
       ++ contents (fst (Leanify E z2 0)).
Proof.
  intros HN Hdepth Hsize Hmem Hloc Hfirst Hdir Hnom.
  assert (Hdepth' : depth (enter z1) = depth (enter z2))
    by (cbn; rewrite Hdepth; reflexivity).
  assert (Hloc2 : locate_eocd (enter z2) = Some (p_eocd, eocd)) by exact Hloc.
  pose proof (locate_eocd_stub (enter z1) (enter z2) N HN Hsize Hmem
                p_eocd eocd Hloc2) as Hloc1.
  destruct (read_directory_stub (enter z1) (enter z2) N HN Hsize Hmem
              p_eocd eocd Hloc2 Hfirst Hdir Hnom) as (Hzo & Hbo & Hd).
  rewrite (Leanify_rewrites _ _ _ _ _ Hloc1), (Leanify_rewrites _ _ _ _ _ Hloc2).
  destruct (locate_eocd_Some _ _ _ Hloc2) as (He & _).
  assert (Hwe : EOCD.wf eocd) by (rewrite He; apply EOCD_load_wf).
  destruct (read_directory_spec (enter z2) eocd Hwe) as (Hwf & _).
  destruct (read_directory_spec (enter z1) eocd Hwe) as (Hwf1 & _).
  set (d2 := read_directory (enter z2) eocd) in *.
  assert (Hd2 : d2 = mkDirectory 0 0 (p_read_cd d2) (cd_end d2) (cd_headers d2)).
  { destruct d2 as [zo bo pr ce hs]. cbn in Hzo, Hbo. subst. reflexivity. }
  pose proof (rewrite_archive_stub E (enter z1) (enter z2) N Hdepth' Hsize
                Hmem eocd (p_read_cd d2) (cd_end d2) (cd_headers d2) Hwf) as Hrw.
  cbv zeta in Hd. rewrite <- Hd, <- Hd2 in Hrw.
  destruct (rewrite_archive E (enter z2) 0 eocd d2) as [z2' r2] eqn:H2.
  destruct (rewrite_archive E (enter z1) 0 eocd (read_directory (enter z1) eocd))
    as [z1' r1] eqn:H1.
  destruct Hrw as (Hm' & Hfp1 & Hfp2 & Hr & Hs1 & Hs2).
  cbn [fst snd enter fp_ memory] in *.
  split; [exact Hr|].
  destruct (rewrite_archive_spec _ _ _ _ _ _ _ H2 Hwe Hwf)
    as (p_cd & hs2 & _ & _ & Hle & Hr2 & _).
  destruct (rewrite_archive_spec _ _ _ _ _ _ _ H1 Hwe Hwf1)
    as (_ & _ & _ & _ & _ & _ & _ & _ & _ & _ & _ & Hstub).
  cbn [enter fp_ memory] in Hle, Hr2, Hstub. rewrite Hzo in Hle.
  rewrite Hd in Hstub. cbn [zip_offset] in Hstub.
  pose proof (directory_size_nonneg _ Hwf) as Hnn.
  unfold EOCD.size in Hr2.
  unfold contents. rewrite Hs1, Hs2, Hfp1, Hfp2, Hr.
  replace (Z.to_nat (N + r2)) with (Z.to_nat N + Z.to_nat r2)%nat by lia.
  rewrite read_bytes_app. rewrite Z2Nat.id by lia. f_equal.
  - apply read_bytes_agree. intros a Ha. rewrite Z2Nat.id in Ha by lia.
    rewrite Hstub by lia. f_equal. lia.
  - apply (read_bytes_shifted (fp_ z1 + N - fp_ z2) (fp_ z2));
      [exact Hm'|lia|lia|reflexivity].
Qed.

Lemma load_buffer_shifted stub archive :
  shifted (Z.of_nat (length stub)) 0 (load_buffer (stub ++ archive)) (load_buffer archive).
Proof.
  intros a Ha. unfold load_buffer.
  destruct (Z.ltb_spec (a + Z.of_nat (length stub)) 0); [lia|].
  destruct (Z.ltb_spec a 0); [lia|].
  replace (Z.to_nat (a + Z.of_nat (length stub)))
    with (length stub + Z.to_nat a)%nat by lia.
  apply app_nth2_plus.
Qed.

Lemma read_bytes_load_buffer stub archive :
  read_bytes (load_buffer (stub ++ archive)) 0 (length stub) = stub.
Proof.
  apply nth_ext with (d := x00) (d' := x00);
    [apply read_bytes_length|].
  intros i Hi. rewrite read_bytes_length in Hi.
  rewrite read_bytes_nth by exact Hi. unfold load_buffer.
  destruct (Z.ltb_spec (0 + Z.of_nat i) 0); [lia|].
  replace (Z.to_nat (0 + Z.of_nat i)) with i by lia.
  apply app_nth1, Hi.
Qed.

(** C9. For every archive that the engine rewrites and every stub of N
    bytes before it such that the first local file header magic of
    stub ++ archive lies at offset N, before the nominal start of the
    central directory, the central directory of the archive starts with a
    record where the end record says, taken from the start of the archive,
    and the bytes of stub ++ archive at that offset, taken from the start of
    the stub, are not the magic of a central directory record: the output
    for stub ++ archive is the stub followed by the output for the archive
    alone, and the returned length is N more. *)
Theorem stub_is_kept_before_the_archive (E : Env) (stub archive : list byte)
    (p_eocd : Z) (eocd : EOCD.t) :
  locate_eocd (loaded archive) = Some (p_eocd, eocd) ->
  first_local_header_at (loaded (stub ++ archive)) eocd (Z.of_nat (length stub)) ->
  directory_starts_at (load_buffer archive) (EOCD.cd_offset eocd) eocd ->
  memcmp_eq (load_buffer (stub ++ archive)) (EOCD.cd_offset eocd) CDHeader.magic_bytes
  = false ->
  Leanify_bytes E (stub ++ archive) = stub ++ Leanify_bytes E archive
  /\ snd (Leanify E (loaded (stub ++ archive)) 0)
     = Z.of_nat (length stub) + snd (Leanify E (loaded archive) 0).
Proof.
  intros Hloc Hfirst Hdir Hnom.
  destruct (Leanify_stub E (loaded (stub ++ archive)) (loaded archive) (Z.of_nat (length stub))
              p_eocd eocd) as (Hr & Hc).
  - lia.
  - reflexivity.
  - cbn [loaded size_]. rewrite length_app. lia.
  - cbn [loaded fp_ memory].
    replace (0 + Z.of_nat (length stub) - 0) with (Z.of_nat (length stub)) by lia.
    apply load_buffer_shifted.
  - exact Hloc.
  - exact Hfirst.
  - exact Hdir.
  - exact Hnom.
  - split; [|exact Hr].
    unfold Leanify_bytes. fold (loaded (stub ++ archive)). fold (loaded archive).
    rewrite Hc. cbn [loaded fp_ memory]. rewrite Nat2Z.id.
    rewrite read_bytes_load_buffer. reflexivity.
Qed.

(* ------------------------------------------------------------------ *)
(** * Further properties of the engine *)

(** ** The end record and the directory reader *)

(** X1. Lines 59-83 accept an end of central directory record at [p]
    exactly when [p] is the last place of the search window that holds the
    magic, the 22 bytes of the record end inside the buffer, the record
    names disk 0 twice and gives the same count twice, and the central
    directory it describes ends at [p] or before.  In every other case the
    function returns through [Format::Leanify]. *)
Theorem locate_eocd_accepts (z : Zip) (p : Z) (eocd : EOCD.t) :
  locate_eocd z = Some (p, eocd)
  <-> last_eocd_magic z p
      /\ p + EOCD.size <= fp_ z + size_ z
      /\ eocd = EOCD.load (memory z) p
      /\ EOCD.disk_num eocd = 0 /\ EOCD.disk_cd_start eocd = 0
      /\ EOCD.num_records eocd = EOCD.num_records_total eocd
      /\ fp_ z + EOCD.cd_offset eocd + EOCD.cd_size eocd <= p.
Proof.
  unfold last_eocd_magic, eocd_magic_at. split.
  - intros H.
    destruct (locate_eocd_Some _ _ _ H) as (He & Hm & Hfit & H1 & H2 & H3 & H4).
    repeat split; try assumption.
    + unfold locate_eocd, find_end in H. cbv zeta in H.
      destruct (rfind _ _ _ _) as [r|] eqn:Hf.
      * apply rfind_Some in Hf as (Hr & _).
        destruct (r =? fp_ z + size_ z); [discriminate|].
        destruct (_ <? _); [discriminate|].
        destruct (_ || _); [discriminate|].
        destruct (_ <? _); [discriminate|].
        injection H as <- _. lia.
      * rewrite Z.eqb_refl in H. discriminate.
    + unfold EOCD.size in Hfit. lia.
    + intros q (Hq1 & Hq2 & Hq3).
      unfold locate_eocd, find_end in H. cbv zeta in H.
      destruct (rfind _ _ _ _) as [r|] eqn:Hf.
      * apply rfind_Some in Hf as (Hr & _ & Hl).
        destruct (r =? fp_ z + size_ z); [discriminate|].
        destruct (_ <? _); [discriminate|].
        destruct (_ || _); [discriminate|].
        destruct (_ <? _); [discriminate|].
        injection H as <- _.
        destruct (Z.le_gt_cases q r) as [|Hgt]; [assumption|].
        rewrite Hl in Hq3; [discriminate|].
        cbn [length EOCD.magic_bytes]. lia.
      * rewrite (rfind_None _ _ _ _ Hf q) in Hq3; [discriminate|].
        cbn [length EOCD.magic_bytes]. lia.
  - intros (((Hlo & Hhi & Hm) & Hlast) & Hfit & -> & H1 & H2 & H3 & H4).
    unfold locate_eocd, find_end. cbv zeta.
    rewrite (rfind_last _ _ _ _ p).
    + destruct (Z.eqb_spec p (fp_ z + size_ z)) as [|_]; [lia|].
      destruct (Z.ltb_spec (fp_ z + size_ z) (p + EOCD.size)) as [|_]; [lia|].
      rewrite H1, H2, H3, !Z.eqb_refl. cbn [negb orb].
      destruct (Z.ltb_spec p
                  (fp_ z + EOCD.cd_offset (EOCD.load (memory z) p)
                   + EOCD.cd_size (EOCD.load (memory z) p))) as [|_]; [lia|].
      reflexivity.
    + cbn [length EOCD.magic_bytes]. lia.
    + exact Hm.
    + intros q Hq. cbn [length EOCD.magic_bytes] in Hq.
      destruct (memcmp_eq (memory z) q EOCD.magic_bytes) eqn:Hmq;
        [|reflexivity].
      assert (q <= p); [|lia].
      apply Hlast. repeat split; [lia|lia|exact Hmq].
Qed.

(** The reader of the directory, turn by turn: what it adds to the vector
    are the records that lie one after the other from the cursor, or, when
    the first turn finds the magic [zo] bytes later only, from there. *)
Lemma read_cd_records m p_end zo n : forall i p ce b acc p' ce' b' hs,
  read_cd m p_end zo n i p ce b acc = (p', ce', b', hs) ->
  0 <= i ->
  exists new,
    hs = acc ++ new /\ (length new <= n)%nat
    /\ ((ce' = ce /\ b' = b /\ records_at m p ce new
         /\ p' = p + directory_bytes_read new)
        \/ (i = 0 /\ ce' = ce + zo /\ b' = zo /\ new <> []
            /\ memcmp_eq m p CDHeader.magic_bytes = false
            /\ ce + zo <= p_end
            /\ records_at m (p + zo) (ce + zo) new
            /\ p' = p + zo + directory_bytes_read new)).
Proof.
  assert (Hstop : forall p ce b acc (k : nat),
            exists new : list CDHeader.t,
              acc = acc ++ new /\ (length new <= k)%nat
              /\ ((ce = ce /\ b = b /\ records_at m p ce new
                   /\ p = p + directory_bytes_read new)
                  \/ (0 = 0 /\ ce = ce + zo /\ b = zo /\ new <> []
                      /\ memcmp_eq m p CDHeader.magic_bytes = false
                      /\ ce + zo <= p_end
                      /\ records_at m (p + zo) (ce + zo) new
                      /\ p = p + zo + directory_bytes_read new))).
  { intros. exists []. rewrite app_nil_r. cbn.
    split; [reflexivity|]. split; [lia|]. left. repeat split. lia. }
  induction n as [|n IH]; intros i p ce b acc p' ce' b' hs H Hi.
  - cbn in H. injection H as <- <- <- <-.
    destruct (Hstop p ce b acc 0%nat) as (new & H1 & H2 & [H3|H3]);
      exists new; (split; [exact H1|]); (split; [exact H2|]);
      [left; exact H3|destruct H3 as (_ & H3); right; split; [|exact H3]].
    destruct new; [destruct H3 as (_ & _ & H3 & _); contradiction|cbn in H2; lia].
  - cbn [read_cd] in H.
    destruct (Z.ltb_spec ce (p + CDHeader.size)) as [|Hroom].
    { injection H as <- <- <- <-. exists []. rewrite app_nil_r. cbn.
      split; [reflexivity|]. split; [lia|]. left. repeat split. lia. }
    destruct (memcmp_eq m p CDHeader.magic_bytes) eqn:Hm.
    + apply IH in H; [|lia].
      destruct H as (new & -> & Hlen & [(-> & -> & Hrec & ->)|(Hz & _)]);
        [|lia].
      exists (CDHeader.load m p :: new). rewrite <- app_assoc.
      split; [reflexivity|]. split; [cbn; lia|]. left.
      split; [reflexivity|]. split; [reflexivity|]. split.
      * cbn [records_at]. repeat split; assumption.
      * rewrite directory_bytes_read_cons. unfold CDHeader.size. lia.
    + destruct (Z.eqb_spec i 0) as [->|Hne]; cbn [andb] in H.
      * destruct (Z.leb_spec (ce + zo) p_end) as [Hfit|]; cbn [andb] in H.
        -- destruct (memcmp_eq m (p + zo) CDHeader.magic_bytes) eqn:Hm2.
           ++ apply IH in H; [|lia].
              destruct H as (new & -> & Hlen & [(-> & -> & Hrec & ->)|(Hz & _)]);
                [|lia].
              exists (CDHeader.load m (p + zo) :: new). rewrite <- app_assoc.
              split; [reflexivity|]. split; [cbn; lia|]. right.
              split; [reflexivity|]. split; [reflexivity|].
              split; [reflexivity|]. split; [discriminate|].
              split; [reflexivity|]. split; [exact Hfit|]. split.
              ** cbn [records_at]. unfold CDHeader.size in *.
                 repeat split; try assumption. lia.
              ** rewrite directory_bytes_read_cons. unfold CDHeader.size. lia.
           ++ injection H as <- <- <- <-. exists []. rewrite app_nil_r. cbn.
              split; [reflexivity|]. split; [lia|]. left. repeat split. lia.
        -- injection H as <- <- <- <-. exists []. rewrite app_nil_r. cbn.
           split; [reflexivity|]. split; [lia|]. left. repeat split. lia.
      * injection H as <- <- <- <-. exists []. rewrite app_nil_r. cbn.
        split; [reflexivity|]. split; [lia|]. left. repeat split. lia.
Qed.

(** Why the reader of the directory stops: the turns have run out, or the
    next record would pass the end of the directory, or the magic is
    missing at the cursor, and then, on the first turn, it is not found
    [zo] bytes later in a directory that still ends inside the buffer
    either. *)
Lemma read_cd_stops m p_end zo n : forall i p ce b acc p' ce' b' hs,
  read_cd m p_end zo n i p ce b acc = (p', ce', b', hs) ->
  0 <= i ->
  length hs = (length acc + n)%nat
  \/ ce' < p' + CDHeader.size
  \/ (memcmp_eq m p' CDHeader.magic_bytes = false
      /\ (i = 0 -> hs = acc ->
          ce + zo <= p_end ->
          memcmp_eq m (p + zo) CDHeader.magic_bytes = false)).
Proof.
  induction n as [|n IH]; intros i p ce b acc p' ce' b' hs H Hi.
  - cbn in H. injection H as <- <- <- <-. left. lia.
  - cbn [read_cd] in H.
    destruct (Z.ltb_spec ce (p + CDHeader.size)) as [Hfull|Hroom].
    { injection H as <- <- <- <-. right. left. exact Hfull. }
    assert (Hgrow : forall q c b0 x,
              read_cd m p_end zo n (i + 1) q c b0 (acc ++ [x])
              = (p', ce', b', hs) ->
              length hs = (length acc + S n)%nat
              \/ ce' < p' + CDHeader.size
              \/ (memcmp_eq m p' CDHeader.magic_bytes = false
                  /\ (i = 0 -> hs = acc -> ce + zo <= p_end ->
                      memcmp_eq m (p + zo) CDHeader.magic_bytes = false))).
    { intros q c b0 x Hrec.
      pose proof (read_cd_records _ _ _ _ _ _ _ _ _ _ _ _ _ Hrec ltac:(lia))
        as (new & Hhs & _).
      destruct (IH _ _ _ _ _ _ _ _ _ Hrec ltac:(lia)) as [Hl|[Hf|(Hm & _)]].
      - left. rewrite Hl, length_app. cbn. lia.
      - right. left. exact Hf.
      - right. right. split; [exact Hm|].
        intros _ Heq. exfalso.
        apply (f_equal (@length _)) in Hhs.
        rewrite Heq, !length_app in Hhs. cbn in Hhs. lia. }
    destruct (memcmp_eq m p CDHeader.magic_bytes) eqn:Hm.
    + eapply Hgrow. exact H.
    + destruct (Z.eqb_spec i 0) as [->|Hne]; cbn [andb] in H.
      * destruct (Z.leb_spec (ce + zo) p_end) as [Hfit|Hnofit]; cbn [andb] in H.
        -- destruct (memcmp_eq m (p + zo) CDHeader.magic_bytes) eqn:Hm2.
           ++ eapply Hgrow. exact H.
           ++ injection H as <- <- <- <-. right. right.
              split; [exact Hm|]. intros _ _ _. reflexivity.
        -- injection H as <- <- <- <-. right. right.
           split; [exact Hm|]. intros _ _ Hc. lia.
      * injection H as <- <- <- <-. right. right.
        split; [exact Hm|]. intros Hc. contradiction.
Qed.

(** The first turn of the reader when the record is not where the end
    record says but [zo] bytes later. *)
Lemma read_cd_rebases m p_end zo n p ce p' ce' b' hs :
  read_cd m p_end zo (S n) 0 p ce 0 [] = (p', ce', b', hs) ->
  p + CDHeader.size <= ce ->
  memcmp_eq m p CDHeader.magic_bytes = false ->
  ce + zo <= p_end ->
  memcmp_eq m (p + zo) CDHeader.magic_bytes = true ->
  b' = zo /\ ce' = ce + zo /\ hs <> [].
Proof.
  intros H Hroom Hm Hfit Hm2. cbn [read_cd] in H.
  destruct (Z.ltb_spec ce (p + CDHeader.size)) as [|_]; [lia|].
  rewrite Hm in H. cbn [Z.eqb andb] in H.
  destruct (Z.leb_spec (ce + zo) p_end) as [_|]; [|lia].
  rewrite Hm2 in H. cbn [andb app] in H.
  destruct (read_cd_records _ _ _ _ _ _ _ _ _ _ _ _ _ H ltac:(lia))
    as (new & -> & _ & [(-> & -> & _)|(Hz & _)]); [|lia].
  repeat split. discriminate.
Qed.

(** The first turn when the record is where the end record says. *)
Lemma read_cd_nominal m p_end zo n p ce p' ce' b' hs :
  read_cd m p_end zo (S n) 0 p ce 0 [] = (p', ce', b', hs) ->
  p + CDHeader.size <= ce ->
  memcmp_eq m p CDHeader.magic_bytes = true ->
  b' = 0 /\ ce' = ce /\ hs <> [].
Proof.
  intros H Hroom Hm. cbn [read_cd] in H.
  destruct (Z.ltb_spec ce (p + CDHeader.size)) as [|_]; [lia|].
  rewrite Hm in H. cbn [app] in H.
  destruct (read_cd_records _ _ _ _ _ _ _ _ _ _ _ _ _ H ltac:(lia))
    as (new & -> & _ & [(-> & -> & _)|(Hz & _)]); [|lia].
  repeat split. discriminate.
Qed.

(** X2. Lines 85-119 take from the central directory the records that
    lie one after the other from its start, each with the record magic and
    with its 46 bytes inside the directory, and the read cursor ends behind
    the last of them.  They take all of these up to [num_records]: the
    reader stops only when it has [num_records] records, or the next
    record would pass the end of the directory, or the magic is missing at
    the cursor (and, before the first record, is not found [zip_offset]
    bytes later in a directory that would still end inside the buffer).
    The start is where the end record says, or, when the magic is not
    there but is [zip_offset] bytes later and the directory moved by as
    much still ends inside the buffer, [zip_offset] bytes later: that is
    the only way to a base offset other than 0, and whenever a first
    record is asked for and fits, the magic at the nominal start gives the
    base offset 0 and the magic at the moved start alone gives the base
    offset [zip_offset].  The offset of the first local header is that of
    the first local header magic lying before the nominal start of the
    directory, and that start when there is none.  (The vector is then
    sorted: it holds these records in another order.) *)
Theorem directory_reader (z : Zip) (p_eocd : Z) :
  let eocd := EOCD.load (memory z) p_eocd in
  let d := read_directory z eocd in
  let nominal := fp_ z + EOCD.cd_offset eocd in
  let start := nominal + base_offset d in
  exists records,
    Permutation (cd_headers d) records
    /\ Z.of_nat (length records) <= EOCD.num_records eocd
    /\ records_at (memory z) start (cd_end d) records
    /\ p_read_cd d = start + directory_bytes_read records
    /\ cd_end d = start + EOCD.cd_size eocd
    /\ (Z.of_nat (length records) = EOCD.num_records eocd
        \/ cd_end d < p_read_cd d + CDHeader.size
        \/ (memcmp_eq (memory z) (p_read_cd d) CDHeader.magic_bytes = false
            /\ (records = [] ->
                cd_end d + zip_offset d <= fp_ z + size_ z ->
                memcmp_eq (memory z) (nominal + zip_offset d)
                  CDHeader.magic_bytes = false)))
    /\ 0 <= zip_offset d <= EOCD.cd_offset eocd
    /\ (forall q, fp_ z <= q < fp_ z + zip_offset d ->
          q + 4 <= nominal ->
          memcmp_eq (memory z) q header_magic = false)
    /\ (zip_offset d < EOCD.cd_offset eocd ->
          memcmp_eq (memory z) (fp_ z + zip_offset d) header_magic = true)
    /\ (base_offset d = 0
        \/ (base_offset d = zip_offset d /\ records <> []
            /\ memcmp_eq (memory z) nominal CDHeader.magic_bytes = false
            /\ cd_end d <= fp_ z + size_ z))
    /\ (0 < EOCD.num_records eocd -> CDHeader.size <= EOCD.cd_size eocd ->
        (memcmp_eq (memory z) nominal CDHeader.magic_bytes = true ->
           base_offset d = 0 /\ records <> [])
        /\ (memcmp_eq (memory z) nominal CDHeader.magic_bytes = false ->
            nominal + EOCD.cd_size eocd + zip_offset d <= fp_ z + size_ z ->
            memcmp_eq (memory z) (nominal + zip_offset d) CDHeader.magic_bytes
            = true ->
            base_offset d = zip_offset d /\ records <> [])).
Proof.
  cbv zeta.
  pose proof (EOCD_load_wf (memory z) p_eocd) as Hwe.
  set (eocd := EOCD.load (memory z) p_eocd) in *.
  assert (Hoff : 0 <= EOCD.cd_offset eocd) by apply Hwe.
  assert (Hnum : 0 <= EOCD.num_records eocd) by apply Hwe.
  unfold read_directory. cbv zeta.
  set (zo := search (memory z) (fp_ z) (fp_ z + EOCD.cd_offset eocd)
               header_magic - fp_ z).
  assert (Hzo : 0 <= zo <= EOCD.cd_offset eocd).
  { pose proof (search_range (memory z) (fp_ z)
                  (fp_ z + EOCD.cd_offset eocd) header_magic ltac:(lia)).
    unfold zo. lia. }
  assert (Hnone : forall q, fp_ z <= q < fp_ z + zo ->
                    q + 4 <= fp_ z + EOCD.cd_offset eocd ->
                    memcmp_eq (memory z) q header_magic = false).
  { intros q Hq Hq4. unfold zo, search in *.
    destruct (ffind _ _ _ _) as [r|] eqn:Hf.
    - apply ffind_Some in Hf as (_ & _ & Hl). apply Hl. lia.
    - apply (ffind_None _ _ _ _ Hf). cbn [length header_magic]. lia. }
  assert (Hsome : zo < EOCD.cd_offset eocd ->
                  memcmp_eq (memory z) (fp_ z + zo) header_magic = true).
  { intros Hlt. unfold zo.
    replace (fp_ z + (search (memory z) (fp_ z) (fp_ z + EOCD.cd_offset eocd)
                        header_magic - fp_ z))
      with (search (memory z) (fp_ z) (fp_ z + EOCD.cd_offset eocd)
              header_magic) by lia.
    apply search_found. unfold zo in Hlt. lia. }
  destruct (read_cd _ _ _ _ _ _ _ _ _) as [[[p' ce'] b'] hs] eqn:Hr.
  cbn [cd_headers p_read_cd cd_end base_offset zip_offset].
  pose proof (read_cd_stops _ _ _ _ _ _ _ _ _ _ _ _ _ Hr (Z.le_refl 0))
    as Hstop.
  assert (Hfirst :
    0 < EOCD.num_records eocd -> CDHeader.size <= EOCD.cd_size eocd ->
    (memcmp_eq (memory z) (fp_ z + EOCD.cd_offset eocd) CDHeader.magic_bytes
     = true -> b' = 0 /\ hs <> [])
    /\ (memcmp_eq (memory z) (fp_ z + EOCD.cd_offset eocd) CDHeader.magic_bytes
        = false ->
        fp_ z + EOCD.cd_offset eocd + EOCD.cd_size eocd + zo
        <= fp_ z + size_ z ->
        memcmp_eq (memory z) (fp_ z + EOCD.cd_offset eocd + zo)
          CDHeader.magic_bytes = true ->
        b' = zo /\ hs <> [])).
  { intros Hpos Hsize.
    destruct (Z.to_nat (EOCD.num_records eocd)) as [|n] eqn:Hn; [lia|].
    split.
    - intros Hm.
      destruct (read_cd_nominal _ _ _ _ _ _ _ _ _ _ Hr ltac:(lia) Hm)
        as (Hb & _ & Hne).
      split; assumption.
    - intros Hm Hfit Hm2.
      destruct (read_cd_rebases _ _ _ _ _ _ _ _ _ _ Hr ltac:(lia) Hm Hfit Hm2)
        as (Hb & _ & Hne).
      split; assumption. }
  destruct (read_cd_records _ _ _ _ _ _ _ _ _ _ _ _ _ Hr (Z.le_refl 0))
    as (new & -> & Hlen & Hcase).
  cbn [app length Nat.add] in *. exists new.
  split; [apply sort_by_offset_perm|]. split; [lia|].
  destruct Hcase as [(-> & -> & Hrec & ->)
                    |(_ & -> & -> & Hne & Hnom & Hfit & Hrec & ->)].
  - rewrite !Z.add_0_r.
    split; [exact Hrec|]. split; [reflexivity|]. split; [reflexivity|].
    split.
    { destruct Hstop as [Hl|[Hf|(Hm & Hm2)]].
      - left. rewrite Hl. lia.
      - right. left. exact Hf.
      - right. right. split; [exact Hm|]. intros -> Hc.
        apply Hm2; [reflexivity|reflexivity|exact Hc]. }
    split; [exact Hzo|]. split; [exact Hnone|]. split; [exact Hsome|].
    split; [left; reflexivity|exact Hfirst].
  - split; [exact Hrec|].
    split; [reflexivity|]. split; [lia|].
    split.
    { destruct Hstop as [Hl|[Hf|(Hm & _)]].
      - left. rewrite Hl. lia.
      - right. left. exact Hf.
      - right. right. split; [exact Hm|]. intros ->. contradiction. }
    split; [exact Hzo|]. split; [exact Hnone|]. split; [exact Hsome|].
    split; [|exact Hfirst].
    right. split; [reflexivity|]. split; [exact Hne|].
    split; [exact Hnom|]. lia.
Qed.

(** X3. Lines 124-125: the headers are in ascending order of their local
    header offsets when the loop over the local headers starts. *)
Theorem directory_is_sorted (z : Zip) (eocd : EOCD.t) :
  StronglySorted
    (fun a b => CDHeader.local_header_offset a <= CDHeader.local_header_offset b)
    (cd_headers (read_directory z eocd)).
Proof.
  assert (Hins : forall h l,
            StronglySorted
              (fun a b => CDHeader.local_header_offset a
                          <= CDHeader.local_header_offset b) l ->
            StronglySorted
              (fun a b => CDHeader.local_header_offset a
                          <= CDHeader.local_header_offset b)
              (insert_sorted h l)).
  { intros h l Hs. induction Hs as [|x tl Hs IH Hx]; cbn [insert_sorted].
    - constructor; constructor.
    - destruct (Z.ltb_spec (CDHeader.local_header_offset x)
                  (CDHeader.local_header_offset h)) as [Hlt|Hge].
      + constructor; [exact IH|].
        eapply Permutation_Forall;
          [apply Permutation_sym, insert_sorted_perm|].
        constructor; [lia|exact Hx].
      + constructor; [constructor; assumption|].
        constructor; [exact Hge|].
        eapply Forall_impl; [|exact Hx]. cbn. intros a Ha. lia. }
  unfold read_directory. cbv zeta.
  destruct (read_cd _ _ _ _ _ _ _ _ _) as [[[p' ce'] b'] hs].
  cbn [cd_headers]. unfold sort_by_offset.
  induction hs as [|h tl IH]; cbn [fold_right]; [constructor|].
  apply Hins, IH.
Qed.

(** ** Where the engine writes *)

(** X4. Lines 127-129: whenever the archive is rewritten, the bytes that
    lie before the first local header are in the output what they were in
    the input, whatever [size_leanified] is and whatever happens to the
    entries. *)
Theorem bytes_before_first_header_kept (E : Env) (z : Zip)
    (size_leanified : Z) (p_eocd : Z) (eocd : EOCD.t) :
  locate_eocd (enter z) = Some (p_eocd, eocd) ->
  let d := read_directory (enter z) eocd in
  let z' := fst (Leanify E z size_leanified) in
  fp_ z' = fp_ z - size_leanified
  /\ read_bytes (memory z') (fp_ z') (Z.to_nat (zip_offset d))
     = read_bytes (memory z) (fp_ z) (Z.to_nat (zip_offset d)).
Proof.
  intros Hloc. cbv zeta.
  rewrite (Leanify_rewrites _ _ _ _ _ Hloc).
  destruct (locate_eocd_Some _ _ _ Hloc) as (He & _).
  assert (Hwe : EOCD.wf eocd) by (rewrite He; apply EOCD_load_wf).
  destruct (read_directory_spec (enter z) eocd Hwe) as (Hwf & _ & Hzo & _).
  destruct (rewrite_archive _ _ _ _ _) as [z' r] eqn:Hrw. cbn [fst].
  destruct (rewrite_archive_spec _ _ _ _ _ _ _ Hrw Hwe Hwf)
    as (_ & _ & Hfp & _ & _ & _ & _ & _ & _ & _ & _ & Hstub).
  cbn [enter fp_ memory] in Hfp, Hstub.
  split; [exact Hfp|]. rewrite Hfp.
  unfold read_bytes. apply map_ext_in. intros i Hi. apply in_seq in Hi.
  rewrite Hstub by lia. f_equal. lia.
Qed.

(** The loop over the directory headers writes the records from the cursor
    on, and as many bytes as the records take. *)
Lemma write_cd_above fp_w_base hs : forall m p m' p' hs',
  write_cd fp_w_base m p hs = (m', p', hs') ->
  Forall CDHeader.wf hs ->
  forall a, p + directory_size hs <= a -> m' a = m a.
Proof.
  induction hs as [|h rest IH]; intros m p m' p' hs' H Hwf a Ha.
  - cbn in H. injection H as <- <- <-. reflexivity.
  - inversion Hwf as [|? ? Hh Hrest]; subst.
    cbn [write_cd] in H. cbv zeta in H.
    match type of H with
    | context [write_cd fp_w_base ?M ?P rest] =>
        destruct (write_cd fp_w_base M P rest) as [[m1 p1] hs1] eqn:Hw
    end.
    injection H as <- <- <-.
    rewrite directory_size_cons in Ha.
    pose proof (directory_size_nonneg _ Hrest) as Hnn.
    assert (Hf : 0 <= CDHeader.filename_len h) by apply Hh.
    cbn [CDHeader.filename_len CDHeader.set_extra_field_len
         CDHeader.set_comment_len CDHeader.set_flag] in Hw.
    rewrite (IH _ _ _ _ _ Hw Hrest) by (unfold CDHeader.size in *; lia).
    rewrite memmove_other by (unfold CDHeader.size in *; lia).
    apply CDHeader_store_other. unfold CDHeader.size in *. lia.
Qed.

(** X5. Whenever the archive is rewritten, no byte below
    [fp_ - size_leanified] is written: the output starts there, and what
    lies before it is left alone. *)
Theorem nothing_written_before_output (E : Env) (z : Zip)
    (size_leanified : Z) (p_eocd : Z) (eocd : EOCD.t) :
  locate_eocd (enter z) = Some (p_eocd, eocd) ->
  forall a, a < fp_ z - size_leanified ->
    memory (fst (Leanify E z size_leanified)) a = memory z a.
Proof.
  intros Hloc a Ha.
  rewrite (Leanify_rewrites _ _ _ _ _ Hloc).
  destruct (locate_eocd_Some _ _ _ Hloc) as (He & _).
  assert (Hwe : EOCD.wf eocd) by (rewrite He; apply EOCD_load_wf).
  destruct (read_directory_spec (enter z) eocd Hwe) as (Hwf & _ & Hzo & _).
  unfold rewrite_archive. cbv zeta. cbn [enter fp_ memory size_ depth].
  set (d := read_directory (enter z) eocd) in *.
  destruct (compact E _ _ _ _ _ _ _) as [[m2 p_cd] hs2] eqn:Hc.
  destruct (write_cd _ m2 p_cd hs2) as [[m3 p3] hs3] eqn:Hw.
  cbn [fst memory].
  destruct (compact_spec _ _ _ _ _ _ _ _ _ _ _ Hc Hwf)
    as (Hle & Hfr & _ & Hwf2).
  destruct (write_cd_spec _ _ _ _ _ _ _ Hw Hwf2) as (_ & Hp3 & Hfr3 & _).
  pose proof (directory_size_nonneg _ Hwf2) as Hnn.
  rewrite EOCD_store_other by lia.
  rewrite Hfr3 by lia. rewrite Hfr by lia.
  apply memmove_other. lia.
Qed.

Section StaysInside.

Variable E : Env.
Variables (depth' p_end fp_base fp_w_base : Z).
Hypothesis Hshrinks : minifier_shrinks E.
Hypothesis Hplace : minifier_in_place E.

(** With entries that lie one behind the other, the loop over the local
    headers writes nothing at [limit] or behind it. *)
Lemma compact_above m0 sl limit hs : forall m p_write lo m2 p2 hs2,
  compact E depth' p_end fp_base fp_w_base m p_write hs = (m2, p2, hs2) ->
  Forall CDHeader.wf hs -> 0 <= sl ->
  entries_in_order m0 fp_base lo hs limit ->
  (forall a, lo <= a -> m a = m0 a) ->
  p_write + sl <= lo ->
  forall a, limit <= a -> m2 a = m a.
Proof.
  induction hs as [|h rest IH];
    intros m p_write lo m2 p2 hs2 H Hwf Hsl Ho Hag Hcur a Ha.
  - cbn in H. injection H as <- <- <-. reflexivity.
  - inversion Hwf as [|? ? Hh Hrest]; subst.
    cbn [compact] in H. cbn [entries_in_order] in Ho. destruct Ho as (Hlo & Ho).
    destruct (process_entry E depth' p_end fp_base fp_w_base m p_write h)
      as [[[m1 p1] h1] next] eqn:Hpe.
    destruct (process_entry_bound E depth' p_end fp_base fp_w_base
                Hshrinks Hplace m0 m p_write h sl _ _ _ _ Hpe Hh Hsl)
      as (B1 & B2).
    { intros b Hb. apply Hag. lia. }
    { lia. }
    pose proof (entries_in_order_le fp_base m0 limit rest _ Hrest Ho) as Hlim.
    destruct next.
    + destruct (compact E depth' p_end fp_base fp_w_base m1 p1 rest)
        as [[m3 p3] rest3] eqn:Hc.
      injection H as <- <- <-.
      rewrite (IH m1 p1 _ _ _ _ Hc Hrest Hsl Ho); [apply B2; lia| |lia|exact Ha].
      intros b Hb. rewrite B2 by lia. apply Hag.
      pose proof (extent_end_ge m0 (fp_base + CDHeader.local_header_offset h)
                    h Hh). lia.
    + injection H as <- <- <-. apply B2. lia.
Qed.

End StaysInside.

(** X6. For a valid archive and a minifier that never returns more than it
    was given and works in the region it was given, no byte at
    [fp_ + size_] or behind it is written: together with the property
    before, the engine stays inside the buffer, from the output start to
    the end of the input. *)
Theorem nothing_written_behind_input (E : Env) (z : Zip)
    (size_leanified : Z) :
  0 <= size_leanified ->
  minifier_shrinks E -> minifier_in_place E ->
  valid_archive z ->
  forall a, fp_ z + size_ z <= a ->
    memory (fst (Leanify E z size_leanified)) a = memory z a.
Proof.
  intros Hsl Hshrinks Hplace Hvalid a Ha.
  unfold valid_archive in Hvalid.
  change (locate_eocd z) with (locate_eocd (enter z)) in Hvalid.
  destruct (locate_eocd (enter z)) as [[p_eocd eocd]|] eqn:Hloc;
    [|contradiction].
  change (read_directory z eocd) with (read_directory (enter z) eocd)
    in Hvalid.
  change (memory z) with (memory (enter z)) in Hvalid.
  change (fp_ z) with (fp_ (enter z)) in Hvalid.
  cbv zeta in Hvalid. destruct Hvalid as (Hread & Hend & Horder).
  rewrite (Leanify_rewrites _ _ _ _ _ Hloc).
  destruct (locate_eocd_Some _ _ _ Hloc) as (He & _ & Hfit & _ & _ & _ & Hcd).
  assert (Hwe : EOCD.wf eocd) by (rewrite He; apply EOCD_load_wf).
  destruct (read_directory_spec (enter z) eocd Hwe) as (Hwf & _ & Hzo & _).
  pose proof (read_directory_consumed (enter z) eocd Hwe) as Hcons.
  cbv zeta in Hcons.
  pose proof (entries_in_order_le _ _ _ _ _ Hwf Horder) as Hlim.
  unfold rewrite_archive. cbv zeta.
  set (d := read_directory (enter z) eocd) in *.
  destruct (compact E _ _ _ _ _ _ _) as [[m2 p_cd] hs2] eqn:Hc.
  destruct (write_cd _ m2 p_cd hs2) as [[m3 p3] hs3] eqn:Hw.
  cbn [fst memory].
  destruct (compact_spec _ _ _ _ _ _ _ _ _ _ _ Hc Hwf)
    as (Hle & _ & Hsame & Hwf2).
  destruct (write_cd_spec _ _ _ _ _ _ _ Hw Hwf2) as (_ & Hp3 & _ & _).
  pose proof (directory_size_nonneg _ Hwf2) as Hnn.
  pose proof (Forall2_same_entry_size _ _ Hsame) as Hsz.
  assert (Hag : forall b, fp_ (enter z) + zip_offset d <= b ->
                  memmove (memory (enter z)) (fp_ (enter z) - size_leanified)
                    (fp_ (enter z)) (zip_offset d) b = memory (enter z) b).
  { intros b Hb. apply memmove_other. right. lia. }
  pose proof (compact_bound E _ _ _ _ Hshrinks Hplace (memory (enter z))
                size_leanified _ _ _ _ _ _ _ _ Hc Hwf Hsl Horder Hag
                ltac:(lia)) as Hcur.
  pose proof (compact_above E _ _ _ _ Hshrinks Hplace (memory (enter z))
                size_leanified _ _ _ _ _ _ _ _ Hc Hwf Hsl Horder Hag
                ltac:(lia)) as Hab.
  unfold EOCD.size in *. cbn [enter fp_ size_ memory] in *.
  rewrite EOCD_store_other by (unfold EOCD.size; lia).
  rewrite (write_cd_above _ _ _ _ _ _ _ Hw Hwf2) by lia.
  rewrite Hab by lia.
  apply memmove_other. right. lia.
Qed.

(** ** Single entries *)

(** X7. Lines 139, 148-151 and 185-188: when an entry ends the loop, a
    local header magic was found at its offset, and either the header with
    its file name or the payload runs past the end of the buffer.  The write
    cursor stays where it was, nothing is written outside the place a moved
    header takes, and the directory header of the entry has already been
    given the offset of the write cursor, which is where the new central
    directory is going to start; the headers after it stay as they were
    parsed. *)
Theorem loop_break_keeps_cursor (E : Env) (depth' p_end fp_base fp_w_base : Z)
    (m : mem) (p_write : Z) (h : CDHeader.t) (rest : list CDHeader.t)
    (m2 : mem) (p2 : Z) (h2 : CDHeader.t) :
  process_entry E depth' p_end fp_base fp_w_base m p_write h
  = (m2, p2, h2, Stop) ->
  let p := fp_base + CDHeader.local_header_offset h in
  let fl := LocalHeader.filename_len m p in
  p2 = p_write
  /\ h2 = CDHeader.set_local_header_offset h (u32 (p_write - fp_w_base))
  /\ memcmp_eq m p header_magic = true
  /\ p + 30 <= p_end
  /\ (p_end < p + 30 + fl
      \/ p_end < p + LocalHeader.extra_field_len m p
                 + Entry.compressed_size m p h)
  /\ (forall a, a < p_write \/ p_write + 30 + fl <= a -> m2 a = m a)
  /\ compact E depth' p_end fp_base fp_w_base m p_write (h :: rest)
     = (m2, p_write, h2 :: rest).
Proof.
  intros H. cbv zeta.
  assert (Hc : compact E depth' p_end fp_base fp_w_base m p_write (h :: rest)
               = (m2, p2, h2 :: rest)).
  { cbn [compact]. rewrite H. reflexivity. }
  unfold process_entry in H. rewrite move_header_unfold in H. cbv zeta in H.
  unfold Entry.compressed_size.
  set (p := fp_base + CDHeader.local_header_offset h) in *.
  pose proof (read16_range m (p + 26)) as Hfl.
  unfold LocalHeader.filename_len in *.
  destruct (Z.ltb_spec p_end (p + 30)) as [|H30]; cbn [orb] in H;
    [discriminate|].
  destruct (memcmp_eq m p header_magic) eqn:Hm; cbn [negb] in H;
    [|discriminate].
  destruct (Z.ltb_spec p_end (p + 30 + read16 m (p + 26))) as [Heof|Hname].
  - injection H as <- <- <-. rewrite Hc.
    do 4 (split; [reflexivity || lia|]).
    split; [left; exact Heof|]. split; reflexivity.
  - destruct (Z.ltb_spec p_end
                (p + LocalHeader.extra_field_len m p
                 + (if Z.testbit (LocalHeader.flag m p) 3
                    then CDHeader.compressed_size h
                    else LocalHeader.compressed_size m p))) as [Hbig|].
    + injection H as <- <- <-. rewrite Hc.
      do 4 (split; [reflexivity || lia|]).
      split; [right; exact Hbig|]. split; [|reflexivity].
      intros a Ha. apply moved_header_other; [lia|exact Ha].
    + destruct (process_payload _ _ _ _ _ _ _ _ _ _) as [[? ?] ?].
      discriminate.
Qed.

(** X8. Lines 196-207: an entry that is encrypted, or whose method is
    neither store nor deflate, or that is stored but lies deeper than
    [max_depth], is only moved: its payload is in the output what it was,
    behind the moved header and file name, and the header keeps the crc,
    the sizes and the method the engine went by. *)
Theorem entry_moved_verbatim (E : Env) (depth' p_end fp_base fp_w_base : Z)
    (m : mem) (p_write : Z) (h : CDHeader.t) :
  let p := fp_base + CDHeader.local_header_offset h in
  let hdr_end := p_write + 30 + LocalHeader.filename_len m p in
  let csize := Entry.compressed_size m p h in
  CDHeader.wf h ->
  Entry.compactable m p_end p h ->
  p_write <= p ->
  Z.land (LocalHeader.flag m p) 1 <> 0
  \/ (LocalHeader.compression_method m p <> 0
      /\ LocalHeader.compression_method m p <> 8)
  \/ (LocalHeader.compression_method m p = 0 /\ max_depth E < depth') ->
  let '(m2, p_write2, h2, next) :=
    process_entry E depth' p_end fp_base fp_w_base m p_write h in
  next = Next
  /\ read_bytes m2 (p_write + 30) (Z.to_nat (LocalHeader.filename_len m p))
     = Entry.filename m p
  /\ read_bytes m2 hdr_end (Z.to_nat csize) = Entry.payload_bytes m p h
  /\ p_write2 = hdr_end + csize
  /\ LocalHeader.compression_method m2 p_write
     = LocalHeader.compression_method m p
  /\ LocalHeader.crc32 m2 p_write = Entry.crc32 m p h
  /\ LocalHeader.compressed_size m2 p_write = csize
  /\ LocalHeader.uncompressed_size m2 p_write = Entry.uncompressed_size m p h
  /\ h2 = CDHeader.set_local_header_offset h (u32 (p_write - fp_w_base)).
Proof.
  cbv zeta. intros Hwf Hok Hcur Hwhy.
  destruct (compactable_ready p_end fp_base fp_w_base m p_write h Hok)
    as (m1 & Hmh & F1 & F2 & F3 & F4 & F5 & F6 & F7 & F8 & F9).
  destruct (entry_sizes_wf m (fp_base + CDHeader.local_header_offset h) h Hwf)
    as (W1 & W2 & W3 & W4).
  rewrite W1 in F5. rewrite W2 in F6. rewrite W3 in F7.
  set (p := fp_base + CDHeader.local_header_offset h) in *.
  pose proof (read16_range m (p + 26)) as Hfl.
  pose proof (read16_range m (p + 28)) as Hex.
  unfold LocalHeader.filename_len in *.
  set (hdr_end := p_write + 30 + read16 m (p + 26)) in *.
  assert (Hhe : hdr_end = p_write + 30 + read16 m (p + 26)) by reflexivity.
  assert (Hh22 : p_write + 22 <= hdr_end) by lia.
  assert (Hpay : process_payload E depth' m1
                   (CDHeader.set_local_header_offset h (u32 (p_write - fp_w_base)))
                   p_write (Entry.payload m p) hdr_end
                   (Entry.compressed_size m p h) (LocalHeader.flag m p)
                   (Entry.filename m p)
                 = (memmove m1 hdr_end (Entry.payload m p)
                      (Entry.compressed_size m p h),
                    hdr_end + LocalHeader.compressed_size m1 p_write,
                    CDHeader.set_local_header_offset h
                      (u32 (p_write - fp_w_base)))).
  { unfold process_payload.
    change (read16 m1 (p_write + 8))
      with (LocalHeader.compression_method m1 p_write).
    rewrite F4.
    assert (Hgo : negb (LocalHeader.compression_method m p =? 8)
                  || negb (Z.land (LocalHeader.flag m p) 1 =? 0)
                  || is_fast E = true).
    { destruct Hwhy as [Henc|[(_ & H8)|(H0 & _)]].
      - apply Z.eqb_neq in Henc. rewrite Henc. cbn [negb].
        rewrite orb_true_r. reflexivity.
      - apply Z.eqb_neq in H8. rewrite H8. reflexivity.
      - rewrite H0. reflexivity. }
    rewrite Hgo.
    apply keep_or_minify_moves; [exact Hh22|].
    rewrite F4. destruct Hwhy as [Henc|[(H0 & _)|(_ & Hd)]].
    - right. right. exact Henc.
    - left. exact H0.
    - right. left. exact Hd. }
  rewrite (process_entry_ready _ _ _ _ _ _ _ _ _ _ _ _ _ _ _ Hmh), Hpay.
  rewrite F6.
  split; [reflexivity|]. split.
  { unfold Entry.filename, LocalHeader.filename_len.
    apply nth_ext with (d := x00) (d' := x00);
      [rewrite !read_bytes_length; reflexivity|].
    intros i Hi. rewrite read_bytes_length in Hi.
    rewrite !read_bytes_nth by exact Hi.
    rewrite memmove_other by lia. rewrite F2 by lia. f_equal. lia. }
  split.
  { unfold Entry.payload_bytes.
    rewrite <- (Z2Nat.id (Entry.compressed_size m p h)) at 1 by lia.
    rewrite read_bytes_memmove. apply read_bytes_agree.
    intros a Ha. apply F1. unfold Entry.payload in *.
    unfold LocalHeader.filename_len, LocalHeader.extra_field_len in *. lia. }
  split; [reflexivity|].
  unfold LocalHeader.compression_method, LocalHeader.crc32,
    LocalHeader.compressed_size, LocalHeader.uncompressed_size in *.
  mem_simpl. rewrite F4, F5, F6, F7. repeat split; reflexivity.
Qed.

(** X9. Line 196: fast mode, the inflater and the deflater have a say on
    deflate entries that are not encrypted, and on no other entry. *)
Theorem only_deflate_entries_depend_on_mode (E : Env)
    (depth' p_end fp_base fp_w_base : Z) (m : mem) (p_write : Z)
    (h : CDHeader.t) :
  let p := fp_base + CDHeader.local_header_offset h in
  LocalHeader.compression_method m p <> 8
  \/ Z.land (LocalHeader.flag m p) 1 <> 0 ->
  forall fast inflate deflate,
    process_entry
      (mkEnv (max_depth E) fast (mz_crc32 E) inflate deflate (LeanifyFile E))
      depth' p_end fp_base fp_w_base m p_write h
    = process_entry E depth' p_end fp_base fp_w_base m p_write h.
Proof.
  cbv zeta. intros Hwhy fast inflate deflate. unfold process_entry.
  destruct (move_header p_end fp_base fp_w_base m p_write h)
    as [|h1|m1 h1|m1 h1 p_read' p_write' ocs flag fname] eqn:Hmh;
    try reflexivity.
  destruct (move_header_ready _ _ _ _ _ _ _ _ _ _ _ _ _ Hmh)
    as (_ & _ & _ & Hflag & _).
  destruct (move_header_memory _ _ _ _ _ _ _ _ _ _ _ _ _ Hmh)
    as (_ & _ & _ & F4 & _).
  cbv zeta in F4.
  unfold process_payload. cbn [is_fast].
  change (read16 m1 (p_write + 8))
    with (LocalHeader.compression_method m1 p_write).
  rewrite F4, Hflag.
  assert (Hgo : negb (LocalHeader.compression_method m
                        (fp_base + CDHeader.local_header_offset h) =? 8)
                || negb (Z.land (LocalHeader.flag m
                           (fp_base + CDHeader.local_header_offset h)) 1 =? 0)
                = true).
  { destruct Hwhy as [H8|Henc].
    - apply Z.eqb_neq in H8. rewrite H8. reflexivity.
    - apply Z.eqb_neq in Henc. rewrite Henc. apply orb_true_r. }
  rewrite Hgo. reflexivity.
Qed.

(** X10. Lines 213-218: a deflate entry whose uncompressed size is 0 in
    the values the engine goes by is turned into a stored entry of
    compressed size 0 without being inflated.  Its payload is dropped: the
    write cursor stays behind the file name.  The crc of the header and the
    crc and the uncompressed size of the directory header are left as they
    are. *)
Theorem empty_deflate_entry_becomes_stored (E : Env)
    (depth' p_end fp_base fp_w_base : Z) (m : mem) (p_write : Z)
    (h : CDHeader.t) :
  let p := fp_base + CDHeader.local_header_offset h in
  let hdr_end := p_write + 30 + LocalHeader.filename_len m p in
  is_fast E = false ->
  CDHeader.wf h ->
  Entry.compactable m p_end p h ->
  p_write <= p ->
  LocalHeader.compression_method m p = 8 ->
  Z.land (LocalHeader.flag m p) 1 = 0 ->
  Entry.uncompressed_size m p h = 0 ->
  let '(m2, p_write2, h2, next) :=
    process_entry E depth' p_end fp_base fp_w_base m p_write h in
  next = Next
  /\ p_write2 = hdr_end
  /\ LocalHeader.compression_method m2 p_write = 0
  /\ LocalHeader.compressed_size m2 p_write = 0
  /\ LocalHeader.uncompressed_size m2 p_write = 0
  /\ LocalHeader.crc32 m2 p_write = Entry.crc32 m p h
  /\ h2 = CDHeader.set_compressed_size
            (CDHeader.set_compression_method
               (CDHeader.set_local_header_offset h (u32 (p_write - fp_w_base)))
               0) 0.
Proof.
  cbv zeta. intros Hfast Hwf Hok Hcur Hmeth Henc Hzero.
  destruct (deflate_entry_recompress E depth' p_end fp_base fp_w_base m p_write
              h Hfast Hwf Hok Hcur Hmeth Henc)
    as (m1 & Hpe & F1 & F4 & F5 & F6 & F7 & _).
  rewrite Hpe. rewrite recompress_empty by (rewrite F7; exact Hzero).
  split; [reflexivity|]. split; [reflexivity|].
  unfold LocalHeader.compression_method, LocalHeader.crc32,
    LocalHeader.compressed_size, LocalHeader.uncompressed_size in *.
  mem_simpl. rewrite F5, F7, Hzero. repeat split; reflexivity.
Qed.

(** X11. Lines 211-255: a deflate entry never grows.  Whatever the
    inflater, the minifier and the deflater return, the payload written
    for a deflate entry that is recompressed is as long as the compressed
    size its header then gives, and that is no more than the compressed
    size the engine went by. *)
Theorem deflate_entry_never_grows (E : Env)
    (depth' p_end fp_base fp_w_base : Z) (m : mem) (p_write : Z)
    (h : CDHeader.t) :
  let p := fp_base + CDHeader.local_header_offset h in
  let hdr_end := p_write + 30 + LocalHeader.filename_len m p in
  let csize := Entry.compressed_size m p h in
  is_fast E = false ->
  CDHeader.wf h ->
  Entry.compactable m p_end p h ->
  p_write <= p ->
  LocalHeader.compression_method m p = 8 ->
  Z.land (LocalHeader.flag m p) 1 = 0 ->
  let '(m2, p_write2, h2, next) :=
    process_entry E depth' p_end fp_base fp_w_base m p_write h in
  next = Next
  /\ p_write2 = hdr_end + LocalHeader.compressed_size m2 p_write
  /\ LocalHeader.compressed_size m2 p_write <= csize.
Proof.
  cbv zeta. intros Hfast Hwf Hok Hcur Hmeth Henc.
  destruct (deflate_entry_recompress E depth' p_end fp_base fp_w_base m p_write
              h Hfast Hwf Hok Hcur Hmeth Henc)
    as (m1 & Hpe & F1 & F4 & F5 & F6 & F7 & _).
  destruct (entry_sizes_wf m (fp_base + CDHeader.local_header_offset h) h Hwf)
    as (_ & _ & _ & W4).
  rewrite Hpe.
  set (p := fp_base + CDHeader.local_header_offset h) in *.
  pose proof (read16_range m (p + 26)) as Hfl.
  unfold LocalHeader.filename_len in *.
  set (hdr_end := p_write + 30 + read16 m (p + 26)) in *.
  assert (Hhe : hdr_end = p_write + 30 + read16 m (p + 26)) by reflexivity.
  destruct (recompress _ _ _ _ _ _ _ _) as [[m2 p2] h2] eqn:Hk.
  split; [reflexivity|].
  unfold LocalHeader.compressed_size in *.
  pose proof u32_range as Hu.
  unfold recompress in Hk.
  repeat (cbv beta iota zeta in Hk;
          match type of Hk with
          | context [LeanifyFile ?e ?a ?b ?c ?d] =>
              destruct (LeanifyFile e a b c d) eqn:?
          | context [if ?c then _ else _] => destruct c eqn:?
          | context [match ?x with Some _ => _ | None => _ end] =>
              destruct x eqn:?
          end);
    cbv beta iota zeta in Hk; injection Hk as <- <- <-; reflect_tests;
    mem_simpl; rewrite ?u32_idem, ?F6;
    try match goal with
        | |- context [u32 (u32 ?z)] => rewrite (u32_idem z)
        end;
    repeat match goal with
           | |- context [u32 ?z] =>
               lazymatch goal with
               | H : 0 <= u32 z < _ |- _ => fail
               | _ => pose proof (Hu z)
               end
           end;
    rewrite ?u32_small by lia; lia.
Qed.

(** X16. Lines 135, 148 and 185: an entry gets through the header part
    exactly when the local header magic lies at its offset, the header with
    its file name ends inside the buffer, and the compressed size, counted
    from the start of the header plus the extra field length, does.  The
    last check is made before the read cursor is moved behind the header,
    so the payload of an entry that gets through, which starts behind
    header, file name and extra field, may end up to 30 bytes plus the
    length of the file name behind the end of the buffer. *)
Theorem entry_gets_through_iff (p_end fp_base fp_w_base : Z) (m : mem)
    (p_write : Z) (h : CDHeader.t) :
  let p := fp_base + CDHeader.local_header_offset h in
  let fl := LocalHeader.filename_len m p in
  let r := move_header p_end fp_base fp_w_base m p_write h in
  (cursors_behind_header r = Some (Entry.payload m p, p_write + 30 + fl)
   <-> Entry.compactable m p_end p h)
  /\ (cursors_behind_header r = None <-> ~ Entry.compactable m p_end p h)
  /\ (Entry.compactable m p_end p h ->
      Entry.extent_end m p h <= p_end + 30 + fl).
Proof.
  cbv zeta.
  assert (Hfwd : forall m1 h1 pr pw ocs flag fname,
            move_header p_end fp_base fp_w_base m p_write h
            = HReady m1 h1 pr pw ocs flag fname ->
            Entry.compactable m p_end
              (fp_base + CDHeader.local_header_offset h) h).
  { intros m1 h1 pr pw ocs flag fname Hmh.
    destruct (move_header_ready _ _ _ _ _ _ _ _ _ _ _ _ _ Hmh)
      as (H1 & H2 & _ & Hflag & _ & _ & _ & Hocs & H3 & _).
    cbv zeta in *. unfold Entry.compactable, Entry.compressed_size.
    rewrite <- Hflag, <- Hocs. repeat split; assumption. }
  assert (Hbwd : Entry.compactable m p_end
                   (fp_base + CDHeader.local_header_offset h) h ->
                 cursors_behind_header
                   (move_header p_end fp_base fp_w_base m p_write h)
                 = Some (Entry.payload m
                           (fp_base + CDHeader.local_header_offset h),
                         p_write + 30
                         + LocalHeader.filename_len m
                             (fp_base + CDHeader.local_header_offset h))).
  { intros Hok.
    destruct (compactable_ready p_end fp_base fp_w_base m p_write h Hok)
      as (m1 & Hmh & _).
    rewrite Hmh. reflexivity. }
  split; [|split].
  - split; [|exact Hbwd].
    destruct (move_header p_end fp_base fp_w_base m p_write h) eqn:Hmh;
      try discriminate.
    intros _. eapply Hfwd. reflexivity.
  - split.
    + intros Hnone Hok. rewrite (Hbwd Hok) in Hnone. discriminate.
    + intros Hno.
      destruct (move_header p_end fp_base fp_w_base m p_write h) eqn:Hmh;
        try reflexivity.
      exfalso. apply Hno. eapply Hfwd. reflexivity.
  - intros (_ & _ & H3).
    unfold Entry.extent_end, Entry.payload. lia.
Qed.

(** X17. Lines 196-203: in every mode, a stored entry that is not
    encrypted, not empty and not deeper than [max_depth], met with the
    write cursor not ahead of it ([p_write <= p], the order the compaction
    of entries in order keeps), is handed to the
    minifier in place, with the region from the write cursor to the end of
    its payload, its size, and the distance between the read and the write
    cursor.  What the minifier leaves is the new payload; the length it
    returns becomes both the compressed and the uncompressed size, in the
    header and in the directory header, and the crc of both is the crc of
    the new payload as it lies behind the header. *)
Theorem stored_entry_minified (E : Env) (depth' p_end fp_base fp_w_base : Z)
    (m : mem) (p_write : Z) (h : CDHeader.t) :
  let p := fp_base + CDHeader.local_header_offset h in
  let hdr_end := p_write + 30 + LocalHeader.filename_len m p in
  let csize := Entry.compressed_size m p h in
  CDHeader.wf h ->
  Entry.compactable m p_end p h ->
  p_write <= p ->
  LocalHeader.compression_method m p = 0 ->
  Z.land (LocalHeader.flag m p) 1 = 0 ->
  csize <> 0 ->
  depth' <= max_depth E ->
  let res :=
    LeanifyFile E
      (read_bytes m hdr_end (Z.to_nat (Entry.payload m p - hdr_end + csize)))
      csize (Entry.payload m p - hdr_end) (Entry.filename m p) in
  let new_size := u32 (snd res) in
  let '(m2, p_write2, h2, next) :=
    process_entry E depth' p_end fp_base fp_w_base m p_write h in
  next = Next
  /\ (forall a, hdr_end <= a -> m2 a = write_bytes m hdr_end (fst res) a)
  /\ p_write2 = hdr_end + new_size
  /\ LocalHeader.compression_method m2 p_write = 0
  /\ LocalHeader.compressed_size m2 p_write = new_size
  /\ LocalHeader.uncompressed_size m2 p_write = new_size
  /\ LocalHeader.crc32 m2 p_write
     = u32 (mz_crc32 E (read_bytes m2 hdr_end (Z.to_nat new_size)))
  /\ CDHeader.compressed_size h2 = new_size
  /\ CDHeader.uncompressed_size h2 = new_size
  /\ CDHeader.crc32 h2 = LocalHeader.crc32 m2 p_write.
Proof.
  cbv zeta. intros Hwf Hok Hcur Hmeth Henc Hnz Hdepth.
  destruct (compactable_ready p_end fp_base fp_w_base m p_write h Hok)
    as (m1 & Hmh & F1 & F2 & F3 & F4 & F5 & F6 & F7 & F8 & F9).
  set (p := fp_base + CDHeader.local_header_offset h) in *.
  pose proof (read16_range m (p + 26)) as Hfl.
  unfold LocalHeader.filename_len in *.
  set (hdr_end := p_write + 30 + read16 m (p + 26)) in *.
  assert (Hhe : hdr_end = p_write + 30 + read16 m (p + 26)) by reflexivity.
  assert (Hh26 : p_write + 26 <= hdr_end) by lia.
  assert (Hm0 : LocalHeader.compression_method m1 p_write = 0)
    by (rewrite F4; exact Hmeth).
  assert (Hpay : process_payload E depth' m1
                   (CDHeader.set_local_header_offset h (u32 (p_write - fp_w_base)))
                   p_write (Entry.payload m p) hdr_end
                   (Entry.compressed_size m p h) (LocalHeader.flag m p)
                   (Entry.filename m p)
                 = keep_or_minify E depth' m1
                   (CDHeader.set_local_header_offset h (u32 (p_write - fp_w_base)))
                   p_write (Entry.payload m p) hdr_end
                   (Entry.compressed_size m p h) (LocalHeader.flag m p)
                   (Entry.filename m p)).
  { unfold process_payload.
    change (read16 m1 (p_write + 8))
      with (LocalHeader.compression_method m1 p_write).
    rewrite Hm0. reflexivity. }
  rewrite (process_entry_ready _ _ _ _ _ _ _ _ _ _ _ _ _ _ _ Hmh), Hpay.
  destruct (keep_or_minify_minifies E depth' m1
              (CDHeader.set_local_header_offset h (u32 (p_write - fp_w_base)))
              p_write (Entry.payload m p) hdr_end
              (Entry.compressed_size m p h) (LocalHeader.flag m p)
              (Entry.filename m p) Hh26 Hm0 Hdepth Henc Hnz)
    as (m2 & Hk & G1 & G2 & G3 & G4).
  rewrite Hk.
  assert (Hreg : read_bytes m1 hdr_end
                   (Z.to_nat (Entry.payload m p - hdr_end
                              + Entry.compressed_size m p h))
                 = read_bytes m hdr_end
                   (Z.to_nat (Entry.payload m p - hdr_end
                              + Entry.compressed_size m p h))).
  { apply read_bytes_agree. intros a Ha. apply F1. lia. }
  rewrite Hreg in *.
  set (res := LeanifyFile E _ _ _ _) in *.
  assert (Hm2 : forall a, hdr_end <= a ->
                  m2 a = write_bytes m hdr_end (fst res) a).
  { intros a Ha. rewrite G1 by lia. unfold write_bytes.
    destruct ((hdr_end <=? a) && _); [reflexivity|]. apply F1. lia. }
  split; [reflexivity|]. split; [exact Hm2|]. split; [reflexivity|].
  split.
  { unfold LocalHeader.compression_method in *. rewrite <- Hmeth, <- F4.
    apply read16_agree. intros a Ha. rewrite G1 by lia.
    apply write_bytes_other. lia. }
  split; [exact G3|]. split; [exact G4|].
  assert (Hc : LocalHeader.crc32 m2 p_write
               = u32 (mz_crc32 E (read_bytes m2 hdr_end
                                    (Z.to_nat (u32 (snd res)))))).
  { rewrite G2. do 2 f_equal. symmetry. apply read_bytes_agree.
    intros a Ha. rewrite G1 by lia. reflexivity. }
  split; [exact Hc|].
  cbn [CDHeader.compressed_size CDHeader.uncompressed_size CDHeader.crc32
       CDHeader.set_crc32 CDHeader.set_compressed_size
       CDHeader.set_uncompressed_size].
  repeat split; try reflexivity. rewrite <- G2. reflexivity.
Qed.

(** X18. Lines 197-199 and 206-208: a stored entry of compressed size 0
    that is not encrypted, a directory for one, has its header and file
    name moved and nothing else, in every mode and at every depth: the
    memory is as the header part left it, the write cursor ends behind the
    file name, and of the directory header only the offset has changed. *)
Theorem empty_stored_entry_only_moved (E : Env)
    (depth' p_end fp_base fp_w_base : Z) (m : mem) (p_write : Z)
    (h : CDHeader.t) :
  let p := fp_base + CDHeader.local_header_offset h in
  let hdr_end := p_write + 30 + LocalHeader.filename_len m p in
  CDHeader.wf h ->
  Entry.compactable m p_end p h ->
  LocalHeader.compression_method m p = 0 ->
  Z.land (LocalHeader.flag m p) 1 = 0 ->
  Entry.compressed_size m p h = 0 ->
  let '(m2, p_write2, h2, next) :=
    process_entry E depth' p_end fp_base fp_w_base m p_write h in
  next = Next
  /\ p_write2 = hdr_end
  /\ h2 = CDHeader.set_local_header_offset h (u32 (p_write - fp_w_base))
  /\ (forall a, a < p_write \/ hdr_end <= a -> m2 a = m a)
  /\ match move_header p_end fp_base fp_w_base m p_write h with
     | HReady m1 _ _ _ _ _ _ => forall a, m2 a = m1 a
     | _ => False
     end.
Proof.
  cbv zeta. intros Hwf Hok Hmeth Henc Hzero.
  destruct (compactable_ready p_end fp_base fp_w_base m p_write h Hok)
    as (m1 & Hmh & F1 & F2 & F3 & F4 & F5 & F6 & F7 & F8 & F9).
  rewrite Hzero in *.
  pose proof (read16_range m (fp_base + CDHeader.local_header_offset h + 26))
    as Hfl.
  unfold LocalHeader.filename_len in *.
  rewrite (process_entry_ready _ _ _ _ _ _ _ _ _ _ _ _ _ _ _ Hmh), Hmh.
  unfold process_payload, keep_or_minify.
  unfold LocalHeader.compression_method, LocalHeader.compressed_size in *.
  rewrite F4, Hmeth, Henc. cbn [Z.eqb negb orb andb].
  change (u32 0) with 0 in F6.
  destruct (depth' <=? max_depth E); cbn [andb negb].
  - rewrite F6, Z.add_0_r.
    split; [reflexivity|]. split; [reflexivity|]. split; [reflexivity|].
    split; [exact F1|]. reflexivity.
  - rewrite read32_memmove_other by lia. rewrite F6, Z.add_0_r.
    split; [reflexivity|]. split; [reflexivity|]. split; [reflexivity|].
    split.
    + intros a Ha. rewrite memmove_other by lia. apply F1, Ha.
    + intros a. apply memmove_other. lia.
Qed.

(** X19. Lines 153-255: whatever is done to an entry that is compacted,
    the header written for it starts with the six bytes the original header
    starts with, the magic and the version needed, and keeps the four bytes
    of its modification time and date. *)
Theorem rewritten_header_keeps_version_and_time (E : Env)
    (depth' p_end fp_base fp_w_base : Z) (m : mem) (p_write : Z)
    (h : CDHeader.t) :
  let p := fp_base + CDHeader.local_header_offset h in
  CDHeader.wf h ->
  Entry.compactable m p_end p h ->
  let '(m2, p_write2, h2, next) :=
    process_entry E depth' p_end fp_base fp_w_base m p_write h in
  read_bytes m2 p_write 6 = read_bytes m p 6
  /\ read_bytes m2 (p_write + 10) 4 = read_bytes m (p + 10) 4.
Proof.
  cbv zeta. intros Hwf Hok.
  destruct (compactable_ready p_end fp_base fp_w_base m p_write h Hok)
    as (m1 & Hmh & _).
  destruct (move_header_ready _ _ _ _ _ _ _ _ _ _ _ _ _ Hmh)
    as (_ & _ & _ & _ & _ & _ & _ & _ & _ & Hm1).
  cbv zeta in Hm1.
  set (p := fp_base + CDHeader.local_header_offset h) in *.
  pose proof (read16_range m (p + 26)) as Hfl.
  unfold LocalHeader.filename_len in *.
  assert (Hkept : forall a, p_write <= a < p_write + 6
                            \/ p_write + 8 <= a < p_write + 14 ->
                    m1 a = m (a - p_write + p)).
  { intros a Ha. subst m1.
    assert (Hmv : strip_extra_field
                    (memmove m p_write p (30 + read16 m (p + 26))) p_write a
                  = m (a - p_write + p)).
    { rewrite strip_extra_field_other by lia. apply memmove_inside. lia. }
    destruct (Z.testbit _ 3); [|exact Hmv].
    unfold use_directory_values. cbv zeta. frame. exact Hmv. }
  rewrite (process_entry_ready _ _ _ _ _ _ _ _ _ _ _ _ _ _ _ Hmh).
  destruct (process_payload _ _ _ _ _ _ _ _ _ _) as [[m2 p2] h2] eqn:Hpp.
  pose proof (process_payload_frame _ _ _ _ _ _ _ _ _ _ _ _ _ Hpp
                ltac:(lia)) as Hfr.
  split.
  - apply nth_ext with (d := x00) (d' := x00);
      [rewrite !read_bytes_length; reflexivity|].
    intros i Hi. rewrite read_bytes_length in Hi.
    rewrite !read_bytes_nth by exact Hi.
    rewrite Hfr by lia. rewrite Hkept by lia. f_equal. lia.
  - apply nth_ext with (d := x00) (d' := x00);
      [rewrite !read_bytes_length; reflexivity|].
    intros i Hi. rewrite read_bytes_length in Hi.
    rewrite !read_bytes_nth by exact Hi.
    rewrite Hfr by lia. rewrite Hkept by lia. f_equal. lia.
Qed.

(** ** Copying the packed structs *)

Lemma write8_back m m' p a :
  (forall b, m' b = m b) -> write8 m' p (read8 m p) a = m a.
Proof.
  intros H. unfold write8, read8. destruct (Z.eqb_spec a p) as [->|_].
  - apply byte_of_to_Z.
  - apply H.
Qed.

Lemma write16_back m m' p a :
  (forall b, m' b = m b) -> write16 m' p (read16 m p) a = m a.
Proof.
  intros H. unfold write16, read16.
  pose proof (read8_range m p) as H0. pose proof (read8_range m (p + 1)) as H1.
  replace ((read8 m p + 256 * read8 m (p + 1)) / 256) with (read8 m (p + 1))
    by (rewrite Z.mul_comm, Z.div_add, Z.div_small by lia; lia).
  apply write8_back. intros b. unfold write8 at 1.
  destruct (Z.eqb_spec b p) as [->|_]; [|apply H].
  unfold byte_of_Z.
  replace ((read8 m p + 256 * read8 m (p + 1)) mod 256) with (read8 m p mod 256)
    by (rewrite Z.mul_comm, Z.mod_add by lia; reflexivity).
  fold (byte_of_Z (read8 m p)). apply byte_of_to_Z.
Qed.

Lemma write32_back m m' p a :
  (forall b, m' b = m b) -> write32 m' p (read32 m p) a = m a.
Proof.
  intros H. unfold write32, read32.
  pose proof (read16_range m p) as H0.
  pose proof (read16_range m (p + 2)) as H1.
  replace ((read16 m p + 65536 * read16 m (p + 2)) / 65536)
    with (read16 m (p + 2))
    by (rewrite Z.mul_comm, Z.div_add, Z.div_small by lia; lia).
  apply write16_back. intros b.
  assert (Hlow : forall c, write16 m' p (read16 m p + 65536 * read16 m (p + 2)) c
                           = write16 m' p (read16 m p) c).
  { intros c. unfold write16, write8.
    replace ((read16 m p + 65536 * read16 m (p + 2)) / 256)
      with (read16 m p / 256 + 256 * read16 m (p + 2))
      by (replace (65536 * read16 m (p + 2))
            with (256 * read16 m (p + 2) * 256) by lia;
          rewrite Z.div_add by lia; reflexivity).
    unfold byte_of_Z.
    replace ((read16 m p / 256 + 256 * read16 m (p + 2)) mod 256)
      with ((read16 m p / 256) mod 256)
      by (rewrite (Z.mul_comm 256), Z.mod_add by lia; reflexivity).
    replace ((read16 m p + 65536 * read16 m (p + 2)) mod 256)
      with (read16 m p mod 256)
      by (replace (65536 * read16 m (p + 2))
            with (256 * read16 m (p + 2) * 256) by lia;
          rewrite Z.mod_add by lia; reflexivity).
    reflexivity. }
  rewrite Hlow. apply write16_back, H.
Qed.

(** X12. The central directory header as the engine copies it out of the
    buffer and back (lines 115 and 269): storing the header that was
    loaded from a place leaves the memory as it is; loading from the place
    a header was stored at gives the header back, all its fields holding
    values of their types; and a store writes the 46 bytes of the record
    and no other. *)
Theorem CDHeader_round_trip (m : mem) (p : Z) (h : CDHeader.t) :
  (forall a, CDHeader.store m p (CDHeader.load m p) a = m a)
  /\ (CDHeader.wf h -> CDHeader.load (CDHeader.store m p h) p = h)
  /\ (forall a, a < p \/ p + 46 <= a -> CDHeader.store m p h a = m a).
Proof.
  split; [|split].
  - intros a. unfold CDHeader.store, CDHeader.load. cbv zeta.
    cbn [CDHeader.magic CDHeader.version_made_by CDHeader.version_needed
         CDHeader.flag CDHeader.compression_method CDHeader.last_mod_time
         CDHeader.last_mod_date CDHeader.crc32 CDHeader.compressed_size
         CDHeader.uncompressed_size CDHeader.filename_len
         CDHeader.extra_field_len CDHeader.comment_len
         CDHeader.disk_file_start CDHeader.internal_file_attributes
         CDHeader.external_file_attributes CDHeader.local_header_offset].
    revert a.
    repeat (intros a; first [apply write32_back | apply write16_back]; clear a).
    reflexivity.
  - apply CDHeader_load_store.
  - intros a Ha. apply CDHeader_store_other. unfold CDHeader.size. exact Ha.
Qed.

(** X13. The end of central directory record likewise (lines 73 and 282),
    with its 22 bytes. *)
Theorem EOCD_round_trip (m : mem) (p : Z) (e : EOCD.t) :
  (forall a, EOCD.store m p (EOCD.load m p) a = m a)
  /\ (EOCD.wf e -> EOCD.load (EOCD.store m p e) p = e)
  /\ (forall a, a < p \/ p + 22 <= a -> EOCD.store m p e a = m a).
Proof.
  split; [|split].
  - intros a. unfold EOCD.store, EOCD.load. cbv zeta.
    cbn [EOCD.magic EOCD.disk_num EOCD.disk_cd_start EOCD.num_records
         EOCD.num_records_total EOCD.cd_size EOCD.cd_offset EOCD.comment_len].
    revert a.
    repeat (intros a; first [apply write32_back | apply write16_back]; clear a).
    reflexivity.
  - apply EOCD_load_store.
  - intros a Ha. apply EOCD_store_other. unfold EOCD.size. exact Ha.
Qed.

(** ** The new directory and the rewritten headers *)

Lemma names_at_agree m_src : forall hs m m' fp_w_base p,
  Forall CDHeader.wf hs ->
  (forall a, p <= a < p + directory_size hs -> m' a = m a) ->
  names_at m_src m fp_w_base p hs -> names_at m_src m' fp_w_base p hs.
Proof.
  induction hs as [|h rest IH]; intros m m' fp_w_base p Hwf Hag H;
    [exact I|].
  inversion Hwf as [|? ? Hh Hrest]; subst.
  rewrite directory_size_cons in Hag.
  pose proof (directory_size_nonneg _ Hrest) as Hnn.
  assert (Hf : 0 <= CDHeader.filename_len h) by apply Hh.
  cbn [names_at] in *. destruct H as (H1 & H2). split.
  - rewrite <- H1. apply read_bytes_agree. intros a Ha. apply Hag.
    unfold CDHeader.size in *. lia.
  - apply (IH m); [exact Hrest| |exact H2].
    intros a Ha. apply Hag. unfold CDHeader.size in *. lia.
Qed.

(** X14. Lines 271-274: the file name behind a record of the new central
    directory is copied from behind the local header the record points to,
    not from the old directory: for headers whose local header and file
    name lie before the place the new directory starts at, the names in the
    new directory are the names behind those local headers. *)
Theorem directory_names_from_local_headers (fp_w_base : Z)
    (hs : list CDHeader.t) (m : mem) (p : Z)
    (m' : mem) (p' : Z) (hs' : list CDHeader.t) :
  write_cd fp_w_base m p hs = (m', p', hs') ->
  Forall CDHeader.wf hs ->
  Forall (fun h => fp_w_base + CDHeader.local_header_offset h + 30
                   + CDHeader.filename_len h <= p) hs ->
  names_at m m' fp_w_base p hs'.
Proof.
  intros H Hwf Hsrc.
  assert (G : forall m0 p0, p0 <= p -> (forall a, a < p0 -> m a = m0 a) ->
                Forall (fun h => fp_w_base + CDHeader.local_header_offset h + 30
                                 + CDHeader.filename_len h <= p0) hs ->
                names_at m0 m' fp_w_base p hs');
    [|apply (G m p); [lia|reflexivity|exact Hsrc]].
  clear Hsrc. revert m p m' p' hs' H Hwf.
  induction hs as [|h rest IH]; intros m p m' p' hs' H Hwf m0 p0 Hp0 Hag Hsrc.
  - cbn in H. injection H as <- <- <-. exact I.
  - inversion Hwf as [|? ? Hh Hrest]; subst.
    inversion Hsrc as [|? ? Hs Hsrest]; subst.
    cbn [write_cd] in H. cbv zeta in H.
    match type of H with
    | context [write_cd fp_w_base ?M ?P rest] =>
        destruct (write_cd fp_w_base M P rest) as [[m1 p1] hs1] eqn:Hw
    end.
    injection H as <- <- <-.
    cbn [CDHeader.filename_len CDHeader.local_header_offset
         CDHeader.set_extra_field_len CDHeader.set_comment_len
         CDHeader.set_flag] in Hw.
    assert (Hf : 0 <= CDHeader.filename_len h) by apply Hh.
    assert (Hoff : 0 <= CDHeader.local_header_offset h) by apply Hh.
    set (placed := memmove (CDHeader.store m p _) (p + CDHeader.size)
                     (fp_w_base + CDHeader.local_header_offset h + 30)
                     (CDHeader.filename_len h)) in *.
    destruct (write_cd_spec _ _ _ _ _ _ _ Hw Hrest) as (_ & _ & Hfr & _).
    cbn [names_at CDHeader.filename_len CDHeader.local_header_offset
         CDHeader.set_extra_field_len CDHeader.set_comment_len
         CDHeader.set_flag].
    split.
    + apply nth_ext with (d := x00) (d' := x00);
        [rewrite !read_bytes_length; reflexivity|].
      intros i Hi. rewrite read_bytes_length in Hi.
      rewrite !read_bytes_nth by exact Hi.
      rewrite Hfr by (unfold CDHeader.size; lia).
      unfold placed. rewrite memmove_inside by (unfold CDHeader.size; lia).
      rewrite CDHeader_store_other by (unfold CDHeader.size; lia).
      rewrite Hag by lia. f_equal. lia.
    + apply (IH _ _ _ _ _ Hw Hrest m0 p0);
        [unfold CDHeader.size; lia| |exact Hsrest].
      intros a Ha. unfold placed.
      rewrite memmove_other by (unfold CDHeader.size; lia).
      rewrite CDHeader_store_other by (unfold CDHeader.size; lia).
      apply Hag, Ha.
Qed.

Lemma moved_header_magic p_end fp_base fp_w_base m p_write h m1 h1 p_read'
    p_write' ocs flag fname :
  move_header p_end fp_base fp_w_base m p_write h
  = HReady m1 h1 p_read' p_write' ocs flag fname ->
  memcmp_eq m1 p_write header_magic = true.
Proof.
  intros Hmh.
  destruct (move_header_ready _ _ _ _ _ _ _ _ _ _ _ _ _ Hmh)
    as (_ & Hm & _ & _ & _ & _ & _ & _ & _ & Hm1).
  cbv zeta in Hm1.
  pose proof (read16_range m (fp_base + CDHeader.local_header_offset h + 26))
    as Hfl.
  unfold LocalHeader.filename_len in *.
  rewrite <- Hm. unfold memcmp_eq. f_equal.
  cbn [length header_magic].
  apply nth_ext with (d := x00) (d' := x00);
    [rewrite !read_bytes_length; reflexivity|].
  intros i Hi. rewrite read_bytes_length in Hi.
  rewrite !read_bytes_nth by exact Hi. subst m1.
  assert (Hmv : strip_extra_field
                  (memmove m p_write
                     (fp_base + CDHeader.local_header_offset h)
                     (30 + read16 m (fp_base + CDHeader.local_header_offset h
                                     + 26))) p_write (p_write + Z.of_nat i)
                = m (fp_base + CDHeader.local_header_offset h + Z.of_nat i)).
  { rewrite strip_extra_field_other by lia.
    rewrite memmove_inside by lia. f_equal. lia. }
  destruct (Z.testbit _ 3); [|exact Hmv].
  rewrite use_directory_values_other by lia. exact Hmv.
Qed.

(** X15. Lines 139-191: the directory header of every entry that is
    compacted ends up pointing at the local header the engine has written
    for it, as long as the offsets of the output fit 32 bits: at its new
    offset lies the local header magic, in a header without extra field
    and with bit 3 of the flag cleared, and that header lies between the
    write cursor the loop started from and the one it ended with.  Nothing
    the loop does later, to this entry or to the ones after it, takes that
    away. *)
Theorem compacted_offsets_point_at_headers (E : Env)
    (depth' p_end fp_base fp_w_base : Z) (hs : list CDHeader.t) :
  forall (m : mem) (p_write : Z) (m2 : mem) (p2 : Z) (hs2 : list CDHeader.t),
  compact E depth' p_end fp_base fp_w_base m p_write hs = (m2, p2, hs2) ->
  Forall CDHeader.wf hs ->
  fp_w_base <= p_write ->
  p2 - fp_w_base < 4294967296 ->
  Forall2
    (fun (compacted : bool) h2 =>
       compacted = true ->
       points_at_header m2 fp_w_base h2
       /\ p_write <= fp_w_base + CDHeader.local_header_offset h2
       /\ fp_w_base + CDHeader.local_header_offset h2 + 30 <= p2)
    (compacted_entries E depth' p_end fp_base fp_w_base m p_write hs) hs2.
Proof.
  assert (Hnone : forall (l l' : list CDHeader.t) (P : bool -> CDHeader.t -> Prop),
            length l = length l' ->
            Forall2 (fun c h2 => c = true -> P c h2)
              (map (fun _ => false) l) l').
  { induction l as [|x l IH]; intros [|y l'] P Hlen; try discriminate;
      cbn [map]; constructor.
    - discriminate.
    - apply IH. cbn in Hlen. lia. }
  induction hs as [|h rest IH]; intros m p_write m2 p2 hs2 H Hwf Hlo Hhi.
  - cbn in H. injection H as <- <- <-. constructor.
  - inversion Hwf as [|? ? Hh Hrest]; subst.
    cbn [compact compacted_entries] in *.
    destruct (process_entry E depth' p_end fp_base fp_w_base m p_write h)
      as [[[m1 p1] h1] next] eqn:Hpe.
    destruct next.
    + destruct (compact E depth' p_end fp_base fp_w_base m1 p1 rest)
        as [[m3 p3] rest3] eqn:Hc.
      injection H as <- <- <-.
      destruct (process_entry_below _ _ _ _ _ _ _ _ _ _ _ _ Hpe Hh)
        as (Hle & _).
      destruct (compact_spec _ _ _ _ _ _ _ _ _ _ _ Hc Hrest)
        as (Hle3 & Hfr3 & _).
      specialize (IH _ _ _ _ _ Hc Hrest ltac:(lia) Hhi).
      assert (IH' : Forall2
                (fun (compacted : bool) h2 =>
                   compacted = true ->
                   points_at_header m3 fp_w_base h2
                   /\ p_write <= fp_w_base + CDHeader.local_header_offset h2
                   /\ fp_w_base + CDHeader.local_header_offset h2 + 30 <= p3)
                (compacted_entries E depth' p_end fp_base fp_w_base m1 p1 rest)
                rest3).
      { eapply Forall2_impl; [|exact IH].
        intros c x Hx Hc'. destruct (Hx Hc') as (Q1 & Q2 & Q3).
        split; [exact Q1|]. split; lia. }
      destruct (move_header p_end fp_base fp_w_base m p_write h)
        as [|h'|m' h'|m' h' p_read' p_write' ocs flag fname] eqn:Hmh;
        constructor; try exact IH'; try discriminate.
      * unfold process_entry in Hpe. rewrite Hmh in Hpe. discriminate.
      * unfold process_entry in Hpe. rewrite Hmh in Hpe. discriminate.
      * intros _. unfold process_entry in Hpe. rewrite Hmh in Hpe.
        destruct (process_payload _ _ _ _ _ _ _ _ _ _) as [[m'' p''] h'']
          eqn:Hpp.
        injection Hpe as -> -> ->.
        destruct (move_header_ready _ _ _ _ _ _ _ _ _ _ _ _ _ Hmh)
          as (_ & _ & Hh' & _ & _ & Hpw' & _ & Hocs & _).
        destruct (move_header_memory _ _ _ _ _ _ _ _ _ _ _ _ _ Hmh)
          as (_ & _ & F3 & _ & _ & _ & _ & _ & F9).
        pose proof (moved_header_magic _ _ _ _ _ _ _ _ _ _ _ _ _ Hmh) as Hmag.
        cbv zeta in Hpw', Hocs.
        pose proof (read16_range m
                      (fp_base + CDHeader.local_header_offset h + 26)) as Hfl.
        unfold LocalHeader.filename_len in Hpw'.
        destruct (process_payload_same_entry _ _ _ _ _ _ _ _ _ _ _ _ _ Hpp)
          as (_ & Hoff & _).
        assert (Hocs0 : 0 <= ocs).
        { rewrite Hocs. destruct (Z.testbit _ 3); [apply Hh|].
          apply read32_range. }
        pose proof (process_payload_advances _ _ _ _ _ _ _ _ _ _ _ _ _ Hpp
                      Hocs0) as Hadv.
        assert (Hq : fp_w_base + CDHeader.local_header_offset h1 = p_write).
        { rewrite Hoff, Hh'. cbn [CDHeader.local_header_offset
                                  CDHeader.set_local_header_offset].
          rewrite u32_small by lia. lia. }
        assert (Hfr1 : forall a, p_write <= a < p_write + 8
                                 \/ p_write + 26 <= a < p_write + 30 ->
                         m3 a = m' a).
        { intros a Ha. rewrite Hfr3 by lia.
          apply (process_payload_frame _ _ _ _ _ _ _ _ _ _ _ _ _ Hpp); lia. }
        unfold points_at_header. cbv zeta. rewrite Hq.
        split; [|lia]. split; [|split].
        -- rewrite <- Hmag. apply memcmp_eq_agree.
           intros a Ha. cbn [length header_magic] in Ha. apply Hfr1. lia.
        -- rewrite <- F9. unfold LocalHeader.extra_field_len.
           apply read16_agree. intros a Ha. apply Hfr1. lia.
        -- unfold LocalHeader.flag in *.
           rewrite (read16_agree m' m3) by (intros a Ha; apply Hfr1; lia).
           rewrite F3. apply clear_bit3.
    + injection H as <- <- <-.
      apply Hnone. reflexivity.
Qed.

(* ------------------------------------------------------------------ *)
(** * Sample runs

    The theorems above at sample archives, and the sample archives on
    which the engine does not do what a claim of the spec says. *)

(** Closes what evaluating the sample leaves. *)
Ltac by_run :=
  vm_compute; repeat split; try reflexivity; try (intro; discriminate).

(** C7 at a buffer of three bytes, and at a buffer that is nothing but the
    magic of an end of central directory record. *)
Lemma Leanify_passthrough_without_eocd_witness :
  contents (fst (Leanify Sample.plain (Sample.zip_of [x01; x02; x03]) 0))
  = [x01; x02; x03]
  /\ snd (Leanify Sample.plain (Sample.zip_of EOCD.magic_bytes) 0) = 4.
Proof.
  split.
  - refine (proj2 (proj2 (Leanify_passthrough_without_eocd Sample.plain
              (Sample.zip_of [x01; x02; x03]) 0 _))).
    left. intros p (H1 & H2 & _). cbn in H1, H2. lia.
  - refine (proj1 (proj2 (Leanify_passthrough_without_eocd Sample.plain
              (Sample.zip_of EOCD.magic_bytes) 0 _))).
    right. exists 0. split; [by_run|]. split; [|by_run].
    intros q (_ & H2 & _). cbn in H2. lia.
Defined.

(** C1: the archive [lost_header] has two directory headers, for [a] at
    offset 0 and for [b] at offset 40, where no local header starts.  The
    loop compacts the first entry and skips the second (line 135).  The
    new directory still has two records and the new end record counts 2
    entries, where one entry was written.  The record of the skipped entry
    has the offset 40 it came with; there is no header there, and the file
    name line 273 copies for it, from 30 bytes behind that place, is a
    byte of the directory record written just before (0x00), not the [b]
    of the old directory. *)
Lemma lost_header_stays_in_directory :
  let z := Sample.zip_of Sample.lost_header in
  let d := read_directory (enter z) (EOCD.load (memory z) 138) in
  let out := fst (Leanify Sample.plain z 0) in
  locate_eocd (enter z) = Some (138, EOCD.load (memory z) 138)
  /\ map CDHeader.local_header_offset (cd_headers d) = [0; 40]
  /\ compacted_entries Sample.plain 1 160 0 0 (memory z) 0 (cd_headers d)
     = [true; false]
  /\ fp_ out = 0 /\ size_ out = 152
  /\ EOCD.num_records (EOCD.load (memory out) (fp_ out + size_ out - 22)) = 2
  /\ EOCD.num_records_total (EOCD.load (memory out) (fp_ out + size_ out - 22))
     = 2
  /\ EOCD.cd_offset (EOCD.load (memory out) (fp_ out + size_ out - 22)) = 36
  /\ EOCD.cd_size (EOCD.load (memory out) (fp_ out + size_ out - 22)) = 94
  /\ memcmp_eq (memory out) 36 CDHeader.magic_bytes = true
  /\ CDHeader.local_header_offset (CDHeader.load (memory out) 36) = 0
  /\ memcmp_eq (memory out) (36 + 47) CDHeader.magic_bytes = true
  /\ CDHeader.local_header_offset (CDHeader.load (memory out) (36 + 47)) = 40
  /\ memcmp_eq (memory out) 40 header_magic = false
  /\ CDHeader.filename_len (CDHeader.load (memory out) (36 + 47)) = 1
  /\ read_bytes (memory z) (44 + 47 + 46) 1 = [x62]
  /\ read_bytes (memory out) (36 + 47 + 46) 1 = [x00].
Proof. by_run. Qed.

Lemma rewritten_archive_layout_witness :
  let z := Sample.zip_of Sample.stored_hello in
  let eocd := EOCD.load (memory z) 83 in
  let z' := fst (Leanify Sample.plain z 0) in
  let r := snd (Leanify Sample.plain z 0) in
  let eocd' := EOCD.load (memory z') (fp_ z' + r - EOCD.size) in
  locate_eocd (enter z) = Some (83, eocd)
  /\ r < 4294967296
  /\ size_ z' = r
  /\ EOCD.comment_len eocd' = 0
  /\ r = base_offset (read_directory (enter z) eocd)
         + EOCD.cd_offset eocd' + EOCD.cd_size eocd' + EOCD.size.
Proof.
  cbv zeta.
  assert (H : locate_eocd (enter (Sample.zip_of Sample.stored_hello))
              = Some (83, EOCD.load (memory (Sample.zip_of Sample.stored_hello)) 83))
    by (vm_compute; reflexivity).
  assert (Hr : snd (Leanify Sample.plain (Sample.zip_of Sample.stored_hello) 0)
               < 4294967296) by (vm_compute; reflexivity).
  split; [exact H|]. split; [exact Hr|].
  pose proof (rewritten_archive_layout Sample.plain
                (Sample.zip_of Sample.stored_hello) 0 83 _ H) as T.
  cbv zeta in T. destruct T as (T1 & _ & T3 & T4).
  split; [exact T1|]. split; [exact T3|]. exact (proj1 (T4 Hr)).
Defined.



(** C3: in [name_length_mismatch] the local header gives a file name of 1
    byte and the directory header one of 2.  The header that is moved has
    30 + 1 bytes: both cursors are 31 bytes further, and the payload is
    written at 31. *)
Lemma header_size_ignores_directory :
  let m := load_buffer Sample.name_length_mismatch in
  let h := CDHeader.load m 36 in
  CDHeader.filename_len h = 2
  /\ LocalHeader.filename_len m 0 = 1
  /\ cursors_behind_header (move_header 106 0 0 m 0 h) = Some (31, 31)
  /\ read_bytes (fst (fst (fst (process_entry Sample.plain 1 106 0 0 m 0 h))))
       31 5 = Sample.hello.
Proof. by_run. Qed.

Lemma header_size_from_local_header_witness :
  let m := load_buffer Sample.name_length_mismatch in
  let h := CDHeader.load m 36 in
  CDHeader.wf h
  /\ Entry.compactable m 106 0 h
  /\ let '(m2, p_write2, h2, next) :=
       process_entry Sample.plain 1 106 0 0 m 0 h in
     p_write2
     = 0 + 30 + LocalHeader.filename_len m 0
       + LocalHeader.compressed_size m2 0.
Proof.
  cbv zeta.
  set (m := load_buffer Sample.name_length_mismatch).
  set (h := CDHeader.load m 36).
  assert (H2 : CDHeader.wf h) by apply load_wf.
  assert (H3 : Entry.compactable m 106 (0 + CDHeader.local_header_offset h) h)
    by by_run.
  split; [exact H2|]. split; [exact H3|].
  pose proof (header_size_from_local_header Sample.plain 1 106 0 0 m 0 h
                H2 H3) as T.
  cbv zeta in T. destruct T as (_ & _ & T).
  destruct (process_entry Sample.plain 1 106 0 0 m 0 h) as [[[m2 p2] h2] next].
  exact (proj1 (proj2 (proj2 T))).
Defined.



(** C6: two deflate entries that fail a check against the directory and
    are not copied as they are.  In [deflated_directory_crc] the payload
    inflates to [hello], whose crc is not the 12345 of the directory; the
    local header has the right crc, the entry passes line 224 and is
    rewritten as a stored entry of 5 bytes.  In [deflated_size_zero] the
    payload inflates to 5 bytes where the directory and the header say 0;
    nothing is inflated and the entry becomes a stored entry of 0 bytes:
    the cursor stays behind the header. *)
Lemma directory_mismatch_is_not_kept :
  let m := load_buffer Sample.deflated_directory_crc in
  let h := CDHeader.load m 41 in
  let r := process_entry Sample.plain 1 110 0 0 m 0 h in
  let m' := load_buffer Sample.deflated_size_zero in
  let h' := CDHeader.load m' 41 in
  let r' := process_entry Sample.plain 1 110 0 0 m' 0 h' in
  (LocalHeader.compression_method m 0 = 8
   /\ Sample.inflate (Entry.payload_bytes m 0 h) = Some Sample.hello
   /\ Sample.crc32 Sample.hello = 907060870
   /\ CDHeader.crc32 h = 12345
   /\ LocalHeader.compression_method (fst (fst (fst r))) 0 = 0
   /\ snd (fst (fst r)) = 36
   /\ read_bytes (fst (fst (fst r))) 31 5 = Sample.hello)
  /\ (LocalHeader.compression_method m' 0 = 8
      /\ Sample.inflate (Entry.payload_bytes m' 0 h') = Some Sample.hello
      /\ CDHeader.uncompressed_size h' = 0
      /\ LocalHeader.compression_method (fst (fst (fst r'))) 0 = 0
      /\ LocalHeader.compressed_size (fst (fst (fst r'))) 0 = 0
      /\ snd (fst (fst r')) = 31).
Proof. by_run. Qed.

Lemma deflate_entry_failed_check_witness :
  let m := load_buffer Sample.deflated_bad_crc in
  let h := CDHeader.load m 41 in
  is_fast Sample.plain = false
  /\ CDHeader.wf h
  /\ Entry.compactable m 110 0 h
  /\ LocalHeader.compression_method m 0 = 8
  /\ (forall buffer, ~ Entry.inflates_to Sample.plain m 0 h buffer)
  /\ snd (process_entry Sample.plain 1 110 0 0 m 0 h) = Next.
Proof.
  cbv zeta.
  set (m := load_buffer Sample.deflated_bad_crc).
  set (h := CDHeader.load m 41).
  assert (H1 : is_fast Sample.plain = false) by reflexivity.
  assert (H2 : CDHeader.wf h) by apply load_wf.
  assert (H3 : Entry.compactable m 110 (0 + CDHeader.local_header_offset h) h)
    by by_run.
  assert (H4 : 0 <= 0 + CDHeader.local_header_offset h) by by_run.
  assert (H5 : LocalHeader.compression_method m
                 (0 + CDHeader.local_header_offset h) = 8) by by_run.
  assert (H6 : Z.land (LocalHeader.flag m (0 + CDHeader.local_header_offset h)) 1
               = 0) by by_run.
  assert (H7 : Entry.uncompressed_size m (0 + CDHeader.local_header_offset h) h
               <> 0) by by_run.
  assert (H8 : forall buffer,
             ~ Entry.inflates_to Sample.plain m
                 (0 + CDHeader.local_header_offset h) h buffer).
  { intros buffer (I1 & _ & I3). vm_compute in I1.
    injection I1 as <-. vm_compute in I3. discriminate I3. }
  repeat (split; [assumption|]).
  pose proof (deflate_entry_failed_check Sample.plain 1 110 0 0 m 0 h
                H1 H2 H3 H4 H5 H6 H7 H8) as T.
  cbv zeta in T.
  destruct (process_entry Sample.plain 1 110 0 0 m 0 h) as [[[m2 p2] h2] next].
  exact (proj1 T).
Defined.

(** C8 at the deflate entry of [deflated_hello] and at the stored entry of
    [with_descriptor], both in fast mode. *)
Lemma fast_mode_entry_witness :
  let m := load_buffer Sample.deflated_hello in
  let h := CDHeader.load m 41 in
  let m' := load_buffer Sample.with_descriptor in
  let h' := CDHeader.load m' 52 in
  is_fast Sample.fast = true
  /\ (CDHeader.wf h /\ Entry.compactable m 110 0 h
      /\ LocalHeader.compression_method m 0 = 8
      /\ snd (process_entry Sample.fast 1 110 0 0 m 0 h) = Next)
  /\ (CDHeader.wf h' /\ Entry.compactable m' 121 0 h'
      /\ LocalHeader.compression_method m' 0 = 0
      /\ snd (process_entry Sample.fast 1 121 0 0 m' 0 h') = Next).
Proof.
  cbv zeta.
  assert (H1 : is_fast Sample.fast = true) by reflexivity.
  split; [exact H1|]. split.
  - set (m := load_buffer Sample.deflated_hello).
    set (h := CDHeader.load m 41).
    assert (H2 : CDHeader.wf h) by apply load_wf.
    assert (H3 : Entry.compactable m 110 (0 + CDHeader.local_header_offset h) h)
      by by_run.
    assert (H4 : LocalHeader.compression_method m
                   (0 + CDHeader.local_header_offset h) = 8) by by_run.
    assert (H5 : 0 <= 0 + CDHeader.local_header_offset h) by by_run.
    repeat (split; [assumption|]).
    pose proof (fast_mode_entry Sample.fast 1 110 0 0 m 0 h H1 H2 H3) as T.
    cbv zeta in T. destruct T as [_ T].
    destruct (process_entry Sample.fast 1 110 0 0 m 0 h) as [[[m2 p2] h2] next].
    exact (proj1 (proj1 T H4 H5)).
  - set (m := load_buffer Sample.with_descriptor).
    set (h := CDHeader.load m 52).
    assert (H2 : CDHeader.wf h) by apply load_wf.
    assert (H3 : Entry.compactable m 121 (0 + CDHeader.local_header_offset h) h)
      by by_run.
    assert (H4 : LocalHeader.compression_method m
                   (0 + CDHeader.local_header_offset h) = 0) by by_run.
    assert (H5 : Z.land (LocalHeader.flag m (0 + CDHeader.local_header_offset h)) 1
                 = 0) by by_run.
    assert (H6 : Entry.compressed_size m (0 + CDHeader.local_header_offset h) h
                 <> 0) by by_run.
    assert (H7 : 1 <= max_depth Sample.fast) by by_run.
    assert (H8 : 0 <= 0 + CDHeader.local_header_offset h) by by_run.
    repeat (split; [assumption|]).
    pose proof (fast_mode_entry Sample.fast 1 121 0 0 m 0 h H1 H2 H3) as T.
    cbv zeta in T. destruct T as [_ T].
    destruct (process_entry Sample.fast 1 121 0 0 m 0 h) as [[[m2 p2] h2] next].
    exact (proj1 (proj2 T H4 H8 H5 H6 H7)).
Defined.

(** C4 at [with_descriptor], whose entry loses its extra field and its data
    descriptor, with a minifier that only moves the file. *)
Lemma move_only_shrinks : minifier_shrinks Sample.plain.
Proof. intros region file_size size_leanified filename H. cbn. lia. Qed.

Lemma move_only_in_place : minifier_in_place Sample.plain.
Proof.
  intros region file_size size_leanified filename Hfs Hsl Hlen. cbn.
  rewrite length_app, !length_skipn. lia.
Qed.

Lemma valid_archive_does_not_grow_witness :
  valid_archive (Sample.zip_of Sample.with_descriptor)
  /\ snd (Leanify Sample.plain (Sample.zip_of Sample.with_descriptor) 0)
     <= 121.
Proof.
  assert (H : valid_archive (Sample.zip_of Sample.with_descriptor)) by by_run.
  split; [exact H|].
  exact (valid_archive_does_not_grow Sample.plain
           (Sample.zip_of Sample.with_descriptor) 0 (Z.le_refl 0)
           move_only_shrinks move_only_in_place H).
Defined.

(** C10: an archive of 4 GiB and 99 bytes whose one entry, a payload of
    4294967295 bytes, lies behind the central directory.  In fast mode the
    entry is moved to the front as it is, so the new directory starts at
    4294967326, which does not fit the 32 bits of [cd_offset]: the end
    record says 30, the returned length is not what the end record adds up
    to, and there is no directory record at 30. *)
Lemma four_gib_archive_wraps_offset :
  let z := mkZip Sample.huge_memory 0 Sample.huge_size 0 in
  let eocd := EOCD.load (memory z) 4294967373 in
  let d := read_directory (enter z) eocd in
  let z' := fst (Leanify Sample.fast z 0) in
  let r := snd (Leanify Sample.fast z 0) in
  let eocd' := EOCD.load (memory z') (fp_ z' + r - EOCD.size) in
  locate_eocd (enter z) = Some (4294967373, eocd)
  /\ base_offset d = 0
  /\ r = 4294967395
  /\ EOCD.cd_offset eocd' = 30
  /\ EOCD.cd_size eocd' = 47
  /\ (r =? base_offset d + EOCD.cd_offset eocd' + EOCD.cd_size eocd'
           + EOCD.size) = false
  /\ memcmp_eq (memory z') (fp_ z' + base_offset d + EOCD.cd_offset eocd')
       CDHeader.magic_bytes = false
  /\ memcmp_eq (memory z') 4294967326 CDHeader.magic_bytes = true.
Proof. by_run. Qed.

(** C9 at [stored_hello] behind the stub: the bytes at the nominal start of
    the directory, 36, are part of the payload, [ello]. *)
Lemma stub_is_kept_before_the_archive_witness :
  let eocd := EOCD.load (load_buffer Sample.stored_hello) 83 in
  locate_eocd (loaded Sample.stored_hello) = Some (83, eocd)
  /\ first_local_header_at (loaded (Sample.stub ++ Sample.stored_hello)) eocd
       (Z.of_nat (length Sample.stub))
  /\ directory_starts_at (load_buffer Sample.stored_hello)
       (EOCD.cd_offset eocd) eocd
  /\ memcmp_eq (load_buffer (Sample.stub ++ Sample.stored_hello))
       (EOCD.cd_offset eocd) CDHeader.magic_bytes = false
  /\ Leanify_bytes Sample.plain (Sample.stub ++ Sample.stored_hello)
     = Sample.stub ++ Leanify_bytes Sample.plain Sample.stored_hello.
Proof.
  cbv zeta.
  assert (H1 : locate_eocd (loaded Sample.stored_hello)
               = Some (83, EOCD.load (load_buffer Sample.stored_hello) 83))
    by by_run.
  assert (H2 : first_local_header_at
                 (loaded (Sample.stub ++ Sample.stored_hello))
                 (EOCD.load (load_buffer Sample.stored_hello) 83)
                 (Z.of_nat (length Sample.stub))) by by_run.
  assert (H3 : directory_starts_at (load_buffer Sample.stored_hello)
                 (EOCD.cd_offset (EOCD.load (load_buffer Sample.stored_hello) 83))
                 (EOCD.load (load_buffer Sample.stored_hello) 83)) by by_run.
  assert (H4 : memcmp_eq (load_buffer (Sample.stub ++ Sample.stored_hello))
                 (EOCD.cd_offset (EOCD.load (load_buffer Sample.stored_hello) 83))
                 CDHeader.magic_bytes = false) by by_run.
  split; [exact H1|]. split; [exact H2|]. split; [exact H3|].
  split; [exact H4|].
  exact (proj1 (stub_is_kept_before_the_archive Sample.plain Sample.stub
                  Sample.stored_hello 83 _ H1 H2 H3 H4)).
Defined.

(** C9: [magic_payload] is a valid archive that the engine leaves as it is.
    Behind the stub its first local header is the first one of the buffer,
    at 4, and its directory starts where its end record says, taken from
    the start of the archive.  But the payload then lies at 35, the nominal
    start of the directory, and it is taken for the first directory record:
    the base offset stays 0, the entry is skipped, and what comes out has
    76 bytes, not the 4 + 104 of the stub and the archive. *)
Lemma directory_magic_at_nominal_offset :
  let whole := Sample.stub ++ Sample.magic_payload in
  let eocd := EOCD.load (load_buffer Sample.magic_payload) 82 in
  valid_archive (loaded Sample.magic_payload)
  /\ locate_eocd (loaded Sample.magic_payload) = Some (82, eocd)
  /\ first_local_header_at (loaded whole) eocd 4
  /\ directory_starts_at (load_buffer Sample.magic_payload)
       (EOCD.cd_offset eocd) eocd
  /\ memcmp_eq (load_buffer whole) (EOCD.cd_offset eocd) CDHeader.magic_bytes
     = true
  /\ base_offset (read_directory (enter (loaded whole)) eocd) = 0
  /\ Leanify_bytes Sample.plain Sample.magic_payload = Sample.magic_payload
  /\ length (Leanify_bytes Sample.plain whole) = 76%nat
  /\ snd (Leanify Sample.plain (loaded whole) 0) = 76
  /\ snd (Leanify Sample.plain (loaded Sample.magic_payload) 0) = 104
  /\ bytes_eqb (Leanify_bytes Sample.plain whole)
       (Sample.stub ++ Leanify_bytes Sample.plain Sample.magic_payload)
     = false.
Proof. by_run. Qed.

(** X4 at [stored_hello] behind the stub of four bytes. *)
Lemma bytes_before_first_header_kept_witness :
  let z := loaded (Sample.stub ++ Sample.stored_hello) in
  let eocd := EOCD.load (memory z) 87 in
  let z' := fst (Leanify Sample.plain z 0) in
  locate_eocd (enter z) = Some (87, eocd)
  /\ zip_offset (read_directory (enter z) eocd) = 4
  /\ read_bytes (memory z') (fp_ z')
       (Z.to_nat (zip_offset (read_directory (enter z) eocd)))
     = read_bytes (memory z) (fp_ z)
         (Z.to_nat (zip_offset (read_directory (enter z) eocd))).
Proof.
  cbv zeta.
  assert (H : locate_eocd (enter (loaded (Sample.stub ++ Sample.stored_hello)))
              = Some (87, EOCD.load
                            (memory (loaded (Sample.stub ++ Sample.stored_hello)))
                            87)) by by_run.
  split; [exact H|]. split; [by_run|].
  pose proof (bytes_before_first_header_kept Sample.plain
                (loaded (Sample.stub ++ Sample.stored_hello)) 0 87 _ H) as T.
  cbv zeta in T. exact (proj2 T).
Defined.

(** X5 at [stored_hello], rewritten two bytes further down. *)
Lemma nothing_written_before_output_witness :
  let z := loaded Sample.stored_hello in
  locate_eocd (enter z) = Some (83, EOCD.load (memory z) 83)
  /\ memory (fst (Leanify Sample.plain z 2)) (-3) = memory z (-3).
Proof.
  cbv zeta.
  assert (H : locate_eocd (enter (loaded Sample.stored_hello))
              = Some (83, EOCD.load (memory (loaded Sample.stored_hello)) 83))
    by by_run.
  split; [exact H|].
  exact (nothing_written_before_output Sample.plain
           (loaded Sample.stored_hello) 2 83 _ H (-3) eq_refl).
Defined.

(** X6 at [with_descriptor], at the first address behind the buffer. *)
Lemma nothing_written_behind_input_witness :
  let z := loaded Sample.with_descriptor in
  valid_archive z
  /\ memory (fst (Leanify Sample.plain z 0)) 121 = memory z 121.
Proof.
  cbv zeta.
  assert (H : valid_archive (loaded Sample.with_descriptor)) by by_run.
  split; [exact H|].
  refine (nothing_written_behind_input Sample.plain
            (loaded Sample.with_descriptor) 0 (Z.le_refl 0)
            move_only_shrinks move_only_in_place H 121 _).
  by_run.
Defined.

(** X7 at the entry of [stored_hello] in a buffer that ends at 30, before
    the file name. *)
Lemma loop_break_keeps_cursor_witness :
  let m := load_buffer Sample.stored_hello in
  let h := CDHeader.load m 36 in
  let '(m2, p2, h2, next) := process_entry Sample.plain 1 30 0 0 m 0 h in
  next = Stop
  /\ p2 = 0
  /\ h2 = CDHeader.set_local_header_offset h (u32 (0 - 0))
  /\ compact Sample.plain 1 30 0 0 m 0 [h] = (m2, 0, [h2]).
Proof.
  cbv zeta.
  assert (Hs : snd (process_entry Sample.plain 1 30 0 0
                      (load_buffer Sample.stored_hello) 0
                      (CDHeader.load (load_buffer Sample.stored_hello) 36))
               = Stop) by by_run.
  destruct (process_entry Sample.plain 1 30 0 0
              (load_buffer Sample.stored_hello) 0
              (CDHeader.load (load_buffer Sample.stored_hello) 36))
    as [[[m2 p2] h2] next] eqn:H.
  cbn [snd] in Hs. subst next.
  pose proof (loop_break_keeps_cursor Sample.plain 1 30 0 0
                (load_buffer Sample.stored_hello) 0
                (CDHeader.load (load_buffer Sample.stored_hello) 36) []
                m2 p2 h2 H) as T.
  cbv zeta in T. destruct T as (T1 & T2 & _ & _ & _ & _ & T7).
  split; [reflexivity|]. split; [exact T1|]. split; [exact T2|exact T7].
Defined.

(** X8 at the stored entry of [stored_hello], two levels deep where one is
    allowed. *)
Lemma entry_moved_verbatim_witness :
  let m := load_buffer Sample.stored_hello in
  let h := CDHeader.load m 36 in
  let p := 0 + CDHeader.local_header_offset h in
  Entry.compactable m 105 p h
  /\ LocalHeader.compression_method m p = 0
  /\ max_depth Sample.plain < 2
  /\ let '(m2, p2, h2, next) := process_entry Sample.plain 2 105 0 0 m 0 h in
     next = Next
     /\ read_bytes m2 (0 + 30 + LocalHeader.filename_len m p)
          (Z.to_nat (Entry.compressed_size m p h))
        = Entry.payload_bytes m p h.
Proof.
  cbv zeta.
  set (m := load_buffer Sample.stored_hello).
  set (h := CDHeader.load m 36).
  assert (H1 : CDHeader.wf h) by apply load_wf.
  assert (H2 : Entry.compactable m 105 (0 + CDHeader.local_header_offset h) h)
    by by_run.
  assert (H3 : 0 <= 0 + CDHeader.local_header_offset h) by by_run.
  assert (H4 : LocalHeader.compression_method m
                 (0 + CDHeader.local_header_offset h) = 0) by by_run.
  assert (H5 : max_depth Sample.plain < 2) by by_run.
  split; [exact H2|]. split; [exact H4|]. split; [exact H5|].
  pose proof (entry_moved_verbatim Sample.plain 2 105 0 0 m 0 h H1 H2 H3
                (or_intror (or_intror (conj H4 H5)))) as T.
  cbv zeta in T.
  destruct (process_entry Sample.plain 2 105 0 0 m 0 h) as [[[m2 p2] h2] next].
  destruct T as (T1 & _ & T3 & _).
  split; [exact T1|exact T3].
Defined.

(** X9 at the stored entry of [stored_hello]: fast mode, an inflater that
    always fails and a deflater that returns its input make no
    difference. *)
Lemma only_deflate_entries_depend_on_mode_witness :
  let m := load_buffer Sample.stored_hello in
  let h := CDHeader.load m 36 in
  (LocalHeader.compression_method m (0 + CDHeader.local_header_offset h) =? 8)
  = false
  /\ process_entry
       (mkEnv (max_depth Sample.plain) true (mz_crc32 Sample.plain)
          (fun _ => None) (fun l => l) (LeanifyFile Sample.plain))
       1 105 0 0 m 0 h
     = process_entry Sample.plain 1 105 0 0 m 0 h.
Proof.
  cbv zeta.
  set (m := load_buffer Sample.stored_hello).
  set (h := CDHeader.load m 36).
  assert (H : (LocalHeader.compression_method m
                 (0 + CDHeader.local_header_offset h) =? 8) = false) by by_run.
  split; [exact H|].
  apply (only_deflate_entries_depend_on_mode Sample.plain 1 105 0 0 m 0 h).
  left. apply Z.eqb_neq. exact H.
Defined.

(** X10 at the entry of [deflated_size_zero]. *)
Lemma empty_deflate_entry_becomes_stored_witness :
  let m := load_buffer Sample.deflated_size_zero in
  let h := CDHeader.load m 41 in
  let p := 0 + CDHeader.local_header_offset h in
  Entry.compactable m 110 p h
  /\ LocalHeader.compression_method m p = 8
  /\ Entry.uncompressed_size m p h = 0
  /\ let '(m2, p2, h2, next) := process_entry Sample.plain 1 110 0 0 m 0 h in
     next = Next
     /\ p2 = 0 + 30 + LocalHeader.filename_len m p
     /\ LocalHeader.compression_method m2 0 = 0
     /\ LocalHeader.compressed_size m2 0 = 0.
Proof.
  cbv zeta.
  set (m := load_buffer Sample.deflated_size_zero).
  set (h := CDHeader.load m 41).
  assert (H0 : is_fast Sample.plain = false) by reflexivity.
  assert (H1 : CDHeader.wf h) by apply load_wf.
  assert (H2 : Entry.compactable m 110 (0 + CDHeader.local_header_offset h) h)
    by by_run.
  assert (H3 : 0 <= 0 + CDHeader.local_header_offset h) by by_run.
  assert (H4 : LocalHeader.compression_method m
                 (0 + CDHeader.local_header_offset h) = 8) by by_run.
  assert (H5 : Z.land (LocalHeader.flag m (0 + CDHeader.local_header_offset h)) 1
               = 0) by by_run.
  assert (H6 : Entry.uncompressed_size m (0 + CDHeader.local_header_offset h) h
               = 0) by by_run.
  split; [exact H2|]. split; [exact H4|]. split; [exact H6|].
  pose proof (empty_deflate_entry_becomes_stored Sample.plain 1 110 0 0 m 0 h
                H0 H1 H2 H3 H4 H5 H6) as T.
  cbv zeta in T.
  destruct (process_entry Sample.plain 1 110 0 0 m 0 h) as [[[m2 p2] h2] next].
  destruct T as (T1 & T2 & T3 & T4 & _).
  split; [exact T1|]. split; [exact T2|]. split; [exact T3|exact T4].
Defined.

(** X11 at the entry of [deflated_hello]. *)
Lemma deflate_entry_never_grows_witness :
  let m := load_buffer Sample.deflated_hello in
  let h := CDHeader.load m 41 in
  let p := 0 + CDHeader.local_header_offset h in
  Entry.compactable m 110 p h
  /\ LocalHeader.compression_method m p = 8
  /\ let '(m2, p2, h2, next) := process_entry Sample.plain 1 110 0 0 m 0 h in
     next = Next
     /\ p2 = 0 + 30 + LocalHeader.filename_len m p
             + LocalHeader.compressed_size m2 0
     /\ LocalHeader.compressed_size m2 0 <= Entry.compressed_size m p h.
Proof.
  cbv zeta.
  set (m := load_buffer Sample.deflated_hello).
  set (h := CDHeader.load m 41).
  assert (H0 : is_fast Sample.plain = false) by reflexivity.
  assert (H1 : CDHeader.wf h) by apply load_wf.
  assert (H2 : Entry.compactable m 110 (0 + CDHeader.local_header_offset h) h)
    by by_run.
  assert (H3 : 0 <= 0 + CDHeader.local_header_offset h) by by_run.
  assert (H4 : LocalHeader.compression_method m
                 (0 + CDHeader.local_header_offset h) = 8) by by_run.
  assert (H5 : Z.land (LocalHeader.flag m (0 + CDHeader.local_header_offset h)) 1
               = 0) by by_run.
  split; [exact H2|]. split; [exact H4|].
  pose proof (deflate_entry_never_grows Sample.plain 1 110 0 0 m 0 h
                H0 H1 H2 H3 H4 H5) as T.
  cbv zeta in T.
  destruct (process_entry Sample.plain 1 110 0 0 m 0 h) as [[[m2 p2] h2] next].
  exact T.
Defined.

(** X14 at the directory header of [stored_hello], written again at 36. *)
Lemma directory_names_from_local_headers_witness :
  let m := load_buffer Sample.stored_hello in
  let h := CDHeader.load m 36 in
  0 + CDHeader.local_header_offset h + 30 + CDHeader.filename_len h <= 36
  /\ let '(m', p', hs') := write_cd 0 m 36 [h] in
     names_at m m' 0 36 hs'.
Proof.
  cbv zeta.
  set (m := load_buffer Sample.stored_hello).
  set (h := CDHeader.load m 36).
  assert (H1 : 0 + CDHeader.local_header_offset h + 30
               + CDHeader.filename_len h <= 36) by by_run.
  split; [exact H1|].
  destruct (write_cd 0 m 36 [h]) as [[m' p'] hs'] eqn:H.
  apply (directory_names_from_local_headers 0 [h] m 36 m' p' hs' H).
  - constructor; [apply load_wf|constructor].
  - constructor; [exact H1|constructor].
Defined.

(** X15 at [stored_hello], compacted from the start of the buffer. *)
Lemma compacted_offsets_point_at_headers_witness :
  let m := load_buffer Sample.stored_hello in
  let h := CDHeader.load m 36 in
  compacted_entries Sample.plain 1 105 0 0 m 0 [h] = [true]
  /\ let '(m2, p2, hs2) := compact Sample.plain 1 105 0 0 m 0 [h] in
     Forall2
       (fun (compacted : bool) h2 =>
          compacted = true ->
          points_at_header m2 0 h2
          /\ 0 <= 0 + CDHeader.local_header_offset h2
          /\ 0 + CDHeader.local_header_offset h2 + 30 <= p2)
       (compacted_entries Sample.plain 1 105 0 0 m 0 [h]) hs2.
Proof.
  cbv zeta.
  set (m := load_buffer Sample.stored_hello).
  set (h := CDHeader.load m 36).
  split; [by_run|].
  assert (Hp : snd (fst (compact Sample.plain 1 105 0 0 m 0 [h])) - 0
               < 4294967296) by by_run.
  destruct (compact Sample.plain 1 105 0 0 m 0 [h]) as [[m2 p2] hs2] eqn:H.
  cbn [fst snd] in Hp.
  apply (compacted_offsets_point_at_headers Sample.plain 1 105 0 0 [h]
           m 0 m2 p2 hs2 H).
  - constructor; [apply load_wf|constructor].
  - apply Z.le_refl.
  - exact Hp.
Defined.

(** X16 at the entry of [stored_hello] in a buffer that ends at 31, where
    its payload starts: the entry gets through, and its five bytes are
    taken from behind the end of the buffer. *)
Lemma entry_gets_through_iff_witness :
  let m := load_buffer Sample.stored_hello in
  let h := CDHeader.load m 36 in
  let p := 0 + CDHeader.local_header_offset h in
  Entry.compactable m 31 p h
  /\ Entry.payload m p = 31
  /\ Entry.extent_end m p h = 36
  /\ Entry.extent_end m p h <= 31 + 30 + LocalHeader.filename_len m p.
Proof.
  cbv zeta.
  set (m := load_buffer Sample.stored_hello).
  set (h := CDHeader.load m 36).
  assert (H : Entry.compactable m 31 (0 + CDHeader.local_header_offset h) h)
    by by_run.
  split; [exact H|]. split; [by_run|]. split; [by_run|].
  pose proof (entry_gets_through_iff 31 0 0 m 0 h) as T.
  cbv zeta in T. destruct T as (_ & _ & T).
  exact (T H).
Defined.

(** X17 at the stored entry of [stored_hello]. *)
Lemma stored_entry_minified_witness :
  let m := load_buffer Sample.stored_hello in
  let h := CDHeader.load m 36 in
  let p := 0 + CDHeader.local_header_offset h in
  Entry.compactable m 105 p h
  /\ LocalHeader.compression_method m p = 0
  /\ (Entry.compressed_size m p h =? 0) = false
  /\ let '(m2, p2, h2, next) := process_entry Sample.plain 1 105 0 0 m 0 h in
     next = Next
     /\ LocalHeader.compressed_size m2 0 = LocalHeader.uncompressed_size m2 0
     /\ CDHeader.crc32 h2 = LocalHeader.crc32 m2 0.
Proof.
  cbv zeta.
  set (m := load_buffer Sample.stored_hello).
  set (h := CDHeader.load m 36).
  assert (H1 : CDHeader.wf h) by apply load_wf.
  assert (H2 : Entry.compactable m 105 (0 + CDHeader.local_header_offset h) h)
    by by_run.
  assert (H3 : LocalHeader.compression_method m
                 (0 + CDHeader.local_header_offset h) = 0) by by_run.
  assert (H4 : Z.land (LocalHeader.flag m (0 + CDHeader.local_header_offset h)) 1
               = 0) by by_run.
  assert (H5 : (Entry.compressed_size m (0 + CDHeader.local_header_offset h) h
                =? 0) = false) by by_run.
  assert (H6 : 1 <= max_depth Sample.plain) by by_run.
  assert (H7 : 0 <= 0 + CDHeader.local_header_offset h) by by_run.
  split; [exact H2|]. split; [exact H3|]. split; [exact H5|].
  pose proof (stored_entry_minified Sample.plain 1 105 0 0 m 0 h H1 H2 H7 H3 H4
                (proj1 (Z.eqb_neq _ _) H5) H6) as T.
  cbv zeta in T.
  destruct (process_entry Sample.plain 1 105 0 0 m 0 h) as [[[m2 p2] h2] next].
  destruct T as (T1 & _ & _ & _ & T5 & T6 & _ & _ & _ & T10).
  split; [exact T1|]. split; [rewrite T5, T6; reflexivity|exact T10].
Defined.

(** X18 at the entry of [empty_directory]. *)
Lemma empty_stored_entry_only_moved_witness :
  let m := load_buffer Sample.empty_directory in
  let h := CDHeader.load m 32 in
  let p := 0 + CDHeader.local_header_offset h in
  Entry.compactable m 102 p h
  /\ LocalHeader.compression_method m p = 0
  /\ Entry.compressed_size m p h = 0
  /\ let '(m2, p2, h2, next) := process_entry Sample.plain 1 102 0 0 m 0 h in
     next = Next /\ p2 = 0 + 30 + LocalHeader.filename_len m p.
Proof.
  cbv zeta.
  set (m := load_buffer Sample.empty_directory).
  set (h := CDHeader.load m 32).
  assert (H1 : CDHeader.wf h) by apply load_wf.
  assert (H2 : Entry.compactable m 102 (0 + CDHeader.local_header_offset h) h)
    by by_run.
  assert (H3 : LocalHeader.compression_method m
                 (0 + CDHeader.local_header_offset h) = 0) by by_run.
  assert (H4 : Z.land (LocalHeader.flag m (0 + CDHeader.local_header_offset h)) 1
               = 0) by by_run.
  assert (H5 : Entry.compressed_size m (0 + CDHeader.local_header_offset h) h
               = 0) by by_run.
  split; [exact H2|]. split; [exact H3|]. split; [exact H5|].
  pose proof (empty_stored_entry_only_moved Sample.plain 1 102 0 0 m 0 h
                H1 H2 H3 H4 H5) as T.
  cbv zeta in T.
  destruct (process_entry Sample.plain 1 102 0 0 m 0 h) as [[[m2 p2] h2] next].
  destruct T as (T1 & T2 & _).
  split; [exact T1|exact T2].
Defined.

(** X19 at the entry of [with_descriptor], whose flag, crc and sizes are
    rewritten and whose payload is minified. *)
Lemma rewritten_header_keeps_version_and_time_witness :
  let m := load_buffer Sample.with_descriptor in
  let h := CDHeader.load m 52 in
  let p := 0 + CDHeader.local_header_offset h in
  Entry.compactable m 121 p h
  /\ let '(m2, p2, h2, next) :=
       process_entry Sample.trimming 1 121 0 0 m 0 h in
     read_bytes m2 0 6 = read_bytes m p 6
     /\ read_bytes m2 (0 + 10) 4 = read_bytes m (p + 10) 4.
Proof.
  cbv zeta.
  set (m := load_buffer Sample.with_descriptor).
  set (h := CDHeader.load m 52).
  assert (H1 : CDHeader.wf h) by apply load_wf.
  assert (H2 : Entry.compactable m 121 (0 + CDHeader.local_header_offset h) h)
    by by_run.
  split; [exact H2|].
  pose proof (rewritten_header_keeps_version_and_time Sample.trimming
                1 121 0 0 m 0 h H1 H2) as T.
  cbv zeta in T.
  destruct (process_entry Sample.trimming 1 121 0 0 m 0 h)
    as [[[m2 p2] h2] next].
  exact T.
Defined.
